(** * re-kindle: alignment and re-injection of reader annotations

    A shallow embedding of the core of [src/utils.py], [src/re_kindle.py]
    and [src/clip_utils.py], with the properties of the specification
    stated and settled against it.

    Python values are modelled as follows.
    - [str] is a list of Unicode code points ([N]); [len], indexing and
      slicing follow Python (negative indices wrap, slices clamp).
    - [int] is [Z]; [float("inf")] in [min_window_subsequence] is the
      [None] of an [option Z].
    - A raised exception is the [Raise] of the result type [res]; loops
      written with [while] carry a fuel argument, and [Timeout] marks
      its exhaustion (the theorems show it is never reached). *)

From Stdlib Require Import ZArith NArith Ascii String DecimalString Lia Bool.
From stdpp Require Import base list sorting.

Local Open Scope Z_scope.

(** ** Python values *)

Definition char := N.
Abbreviation str := (list char).

(** A string literal as a list of code points. *)
Definition py (x : string) : str := map N_of_ascii (list_ascii_of_string x).

Definition len {A} (l : list A) : Z := Z.of_nat (length l).

Inductive exn :=
  | IndexError
  | TypeError
  | ValueError
  | AssertionError
  | FileNotFoundError.

Inductive res (A : Type) :=
  | Ok (a : A)
  | Raise (e : exn)
  | Timeout.
Arguments Ok {A} a.
Arguments Raise {A} e.
Arguments Timeout {A}.

Global Instance res_ret : MRet res := λ A a, Ok a.
Global Instance res_bind : MBind res := λ A B f x,
  match x with
  | Ok a => f a
  | Raise e => Raise e
  | Timeout => Timeout
  end.

Global Instance res_fmap : FMap res := λ A B f x,
  match x with
  | Ok a => Ok (f a)
  | Raise e => Raise e
  | Timeout => Timeout
  end.

(** [l[i]]: a negative index counts from the end; out of range raises. *)
Definition getitem {A} (l : list A) (i : Z) : res A :=
  let i' := if i <? 0 then i + len l else i in
  if i' <? 0 then Raise IndexError
  else match l !! Z.to_nat i' with
       | Some x => Ok x
       | None => Raise IndexError
       end.

(** [l[a:b]]: negative bounds count from the end, then both are clamped. *)
Definition clamp_index (n i : Z) : Z :=
  let i' := if i <? 0 then i + n else i in
  Z.max 0 (Z.min n i').

Definition slice {A} (l : list A) (a b : Z) : list A :=
  let a' := clamp_index (len l) a in
  let b' := clamp_index (len l) b in
  take (Z.to_nat (b' - a')) (drop (Z.to_nat a') l).

(** ** Built-in string operations *)

Definition SPACE : char := 32%N.

(** [s.startswith(p)] and [s.endswith(p)]. *)
Fixpoint startswith (s p : str) {struct p} : bool :=
  match p, s with
  | [], _ => true
  | _ :: _, [] => false
  | a :: p', b :: s' => (a =? b)%N && startswith s' p'
  end.

Definition endswith (s p : str) : bool := startswith (reverse s) (reverse p).

(** [sub in s]. *)
Fixpoint contains (s sub : str) : bool :=
  startswith s sub ||
  match s with
  | [] => false
  | _ :: s' => contains s' sub
  end.

(** [s.find(sub)], counting positions from [pos]: the first index at which
    [sub] occurs, or [-1]. *)
Fixpoint find_from (s sub : str) (pos : Z) : Z :=
  if startswith s sub then pos
  else match s with
       | [] => -1
       | _ :: s' => find_from s' sub (pos + 1)
       end.

Definition find (s sub : str) : Z := find_from s sub 0.

(** [sep.join(parts)]. *)
Fixpoint join (sep : str) (parts : list str) : str :=
  match parts with
  | [] => []
  | [p] => p
  | p :: rest => p ++ sep ++ join sep rest
  end.

(** [s.split(sep)] for a non-empty [sep]: [skip] counts the characters of
    an occurrence of [sep] still to be passed over, [acc] holds the current
    piece in reverse. *)
Fixpoint split_go (sep s : str) (skip : nat) (acc : str) : list str :=
  match s with
  | [] => [reverse acc]
  | c :: s' =>
      match skip with
      | S n => split_go sep s' n acc
      | O =>
          if startswith s sep
          then reverse acc :: split_go sep s' (length sep - 1) []
          else split_go sep s' 0 (c :: acc)
      end
  end.

Definition split (s sep : str) : res (list str) :=
  match sep with
  | [] => Raise ValueError
  | _ => Ok (split_go sep s 0 [])
  end.

(** [list.insert(i, x)] for [i >= 0]. *)
Definition list_insert {A} (l : list A) (i : Z) (x : A) : list A :=
  take (Z.to_nat i) l ++ x :: drop (Z.to_nat i) l.

(** Characters for which [str.isspace()] holds: the class matched by [\s]
    in a [str] pattern and removed by [str.strip()]. *)
Definition isspace (c : char) : bool :=
  ((9 <=? c) && (c <=? 13) || (28 <=? c) && (c <=? 32)
   || (c =? 0x85) || (c =? 0xa0) || (c =? 0x1680)
   || (0x2000 <=? c) && (c <=? 0x200a)
   || (c =? 0x2028) || (c =? 0x2029) || (c =? 0x202f)
   || (c =? 0x205f) || (c =? 0x3000))%N.

(** [s.lstrip()], [s.rstrip()] and [s.strip()]. *)
Fixpoint lstrip (s : str) : str :=
  match s with
  | [] => []
  | c :: s' => if isspace c then lstrip s' else s
  end.

Fixpoint rstrip (s : str) : str :=
  match s with
  | [] => []
  | c :: s' =>
      match rstrip s' with
      | [] => if isspace c then [] else [c]
      | r => c :: r
      end
  end.

Definition strip (s : str) : str := rstrip (lstrip s).

(** [re.sub(r"\s+", " ", s)]: [in_run] tells that the previous character
    belongs to the whitespace run already replaced. *)
Fixpoint sub_spaces (in_run : bool) (s : str) : str :=
  match s with
  | [] => []
  | c :: s' =>
      if isspace c
      then (if in_run then sub_spaces true s' else SPACE :: sub_spaces true s')
      else c :: sub_spaces false s'
  end.

(** [sorted(l, key=key, reverse=reverse)] for integer keys. The sort is
    stable: elements with equal keys keep their order, also with
    [reverse=True]. Each element is put in front of the sorted rest, before
    the first element it may precede. *)
Fixpoint insert_by {A} (before : A → A → bool) (x : A) (l : list A) : list A :=
  match l with
  | [] => [x]
  | y :: l' => if before x y then x :: l else y :: insert_by before x l'
  end.

Definition sorted {A} (key : A → Z) (reverse : bool) (l : list A) : list A :=
  foldr (insert_by (λ x y, if reverse then key y <=? key x else key x <=? key y))
    [] l.

(** Truth value of a string. *)
Definition nonempty (s : str) : bool :=
  match s with [] => false | _ :: _ => true end.

Definition NEWLINE : char := 10%N.

(** [str(n)] for an integer: its decimal digits, after a minus sign when
    it is negative. *)
Definition str_of_int (n : Z) : str := py (NilZero.string_of_int (Z.to_int n)).

(** ** Data model *)

(** [Clipping.type] after [process_metadata]: the pattern only matches
    headings that contain one of the two words. *)
Inductive clip_type := highlight | note_.

Global Instance clip_type_eq_dec : EqDecision clip_type.
Proof. solve_decision. Defined.

(** [Clipping.location]: the pattern group [\d+(?:-\d+)?] split on the dash
    holds one integer or two. *)
Inductive location_t :=
  | At (a : Z)
  | Range (a b : Z).

(** [location[0]] and [location[-1]]. *)
Definition location_first (l : location_t) : Z :=
  match l with At a => a | Range a _ => a end.
Definition location_last (l : location_t) : Z :=
  match l with At a => a | Range _ b => b end.

(** class [Clipping] of clip_utils.py; [date] is a timestamp when present. *)
Record Clipping := mkClipping {
  title : str;
  type : clip_type;
  location : location_t;
  date : option Z;
  color : option str;
  note : option str;
  content : str;
}.

(** [clip.note = text] *)
Definition set_note (c : Clipping) (text : str) : Clipping :=
  mkClipping (title c) (type c) (location c) (date c) (color c) (Some text)
    (content c).

(** class [Match] of re_kindle.py. *)
Record Match := mkMatch {
  clip : Clipping;
  spine_ix : Z;
  matched_tag_indices : list Z;
  all_tag_str : str;
  pre_highlight : str;
}.

(** One structural block as BeautifulSoup presents it: [el.get_text()] and
    [str(el)]. *)
Record Tag := mkTag {
  tag_text : str;
  tag_str : str;
}.

(** One spine document: its file name, [soup.get_text()] and
    [soup.find_all("p")]. *)
Record Item := mkItem {
  file_name : str;
  get_text : str;
  find_all_p : list Tag;
}.

(** ** utils.py *)

Module utils.

Definition DQUOTE : str := [34%N].

Definition HIGHLIGHT_HEAD : str :=
  py "<mark style=" ++ DQUOTE ++ py "background-color: yellow;" ++ DQUOTE ++ py ">".
Definition HIGHLIGHT_TAIL : str := py "</mark>".

Definition normalize_str (s : str) : str := strip (sub_spaces false s).

Definition unicode_whitespace : str :=
  [0x00a0; 0x1680; 0x180e; 0x2000; 0x2001; 0x2002; 0x2003; 0x2004; 0x2005;
   0x2006; 0x2007; 0x2008; 0x2009; 0x200a; 0x202f; 0x205f; 0x3000; 0xfeff]%N.

(** [re.sub] of the one-character class: every listed character becomes a
    space, one for one. *)
Definition normalize_whitespace (s : str) : str :=
  map (λ c, if existsb (N.eqb c) unicode_whitespace then SPACE else c) s.

(** [x < min_len] where [min_len] starts as [float("inf")]. *)
Definition lt_inf (x : Z) (min_len : option Z) : bool :=
  match min_len with
  | None => true
  | Some v => x <? v
  end.

(** Step 1, the loop [while k < m] that moves [j] through [t]. *)
Fixpoint forward_scan (fuel : nat) (s t : str) (k j : Z) : res (Z * Z) :=
  match fuel with
  | O => Timeout
  | S fuel =>
      if k <? len s then
        sk ← getitem s k;
        tj ← getitem t j;
        if (sk =? tj)%N then
          let j := j + 1 in
          if j =? len t then Ok (k, j)
          else forward_scan fuel s t (k + 1) j
        else forward_scan fuel s t (k + 1) j
      else Ok (k, j)
  end.

(** Step 2, the loop [while k >= i] that walks back from [end]. *)
Fixpoint backward_scan (fuel : nat) (s t : str) (i k j : Z) : res (Z * Z) :=
  match fuel with
  | O => Timeout
  | S fuel =>
      if i <=? k then
        sk ← getitem s k;
        tj ← getitem t j;
        if (sk =? tj)%N then
          let j := j - 1 in
          if j <? 0 then Ok (k, j)
          else backward_scan fuel s t i (k - 1) j
        else backward_scan fuel s t i (k - 1) j
      else Ok (k, j)
  end.

(** The outer loop [while i < m], on the state [(min_len, start_idx)]. *)
Fixpoint outer_loop (fuel : nat) (s t : str) (i : Z)
    (min_len : option Z) (start_idx : Z) : res (option Z * Z) :=
  match fuel with
  | O => Timeout
  | S fuel =>
      if i <? len s then
        si ← getitem s i;
        t0 ← getitem t 0;
        if (si =? t0)%N then
          '(k, j) ← forward_scan (S (length s)) s t i 0;
          if j =? len t then
            let end_ := k in
            '(k, _) ← backward_scan (S (length s)) s t i k (j - 1);
            let '(min_len, start_idx) :=
              if lt_inf (end_ - k) min_len
              then (Some (end_ - k), k + 1)
              else (min_len, start_idx) in
            outer_loop fuel s t (k + 1) min_len start_idx
          else outer_loop fuel s t (i + 1) min_len start_idx
        else outer_loop fuel s t (i + 1) min_len start_idx
      else Ok (min_len, start_idx)
  end.

Definition min_window_subsequence (s t : str) : res str :=
  '(min_len, start_idx) ← outer_loop (S (length s)) s t 0 None (-1);
  if start_idx =? -1 then Ok []
  else match min_len with
       | Some l => Ok (slice s (start_idx - 1) (start_idx + l))
       | None => Raise TypeError
       end.


(** The pattern [(</p>|<p[^>]*>)] tried at the head of [s]: the length of
    the match, if any. *)
Fixpoint index_gt (s : str) : option nat :=
  match s with
  | [] => None
  | c :: s' => if (c =? 62)%N then Some 0%nat else S <$> index_gt s'
  end.

Definition match_par_tag (s : str) : option nat :=
  if startswith s (py "</p>") then Some 4%nat
  else if startswith s (py "<p")
       then (λ n, 2 + n + 1)%nat <$> index_gt (drop 2 s)
       else None.

(** [re.split(pattern, html)] with the delimiters kept: [skip] counts the
    characters of the current delimiter still to be passed over. *)
Fixpoint re_split_pars (s : str) (skip : nat) (acc : str) : list str :=
  match s with
  | [] => [reverse acc]
  | c :: s' =>
      match skip with
      | S n => re_split_pars s' n acc
      | O =>
          match match_par_tag s with
          | Some n => reverse acc :: take n s :: re_split_pars s' (n - 1) []
          | None => re_split_pars s' 0 (c :: acc)
          end
      end
  end.

Definition is_blank (part : str) : bool :=
  match strip part with [] => true | _ => false end.

Definition split_raw_html_on_pars (html : str) : list str :=
  filter (λ part, is_blank part = false) (re_split_pars html 0 []).

Fixpoint str_eqb (a b : str) : bool :=
  match a, b with
  | [], [] => true
  | x :: a', y :: b' => (x =? y)%N && str_eqb a' b'
  | _, _ => false
  end.

(** The body of the loop over [enumerate(html_tags)]: what it appends to
    [to_insert] for the part at index [i]. *)
Definition insertion_at (html_tags : list str) (i : nat) (part : str)
    : list (Z * str) :=
  if (i =? 0)%nat then
    if startswith part (py "<p") || startswith part (py "</p>") then []
    else [(Z.of_nat i, HIGHLIGHT_HEAD)]
  else
    if startswith part (py "</p>") then [(Z.of_nat i, HIGHLIGHT_TAIL)]
    else if startswith part (py "<p") &&
            match html_tags !! (i - 1)%nat with
            | Some prev => endswith prev (py "</p>")
            | None => false
            end
         then [(Z.of_nat i + 1, HIGHLIGHT_HEAD)]
         else [].

(** [to_insert] as it stands when the counts are taken. *)
Definition highlight_insertions (html_tags : list str) : res (list (Z * str)) :=
  let to_insert := concat (imap (insertion_at html_tags) html_tags) in
  last_part ← getitem html_tags (-1);
  if negb (startswith last_part (py "</p") || startswith last_part (py "<p"))
  then Ok (to_insert ++ [(len html_tags, HIGHLIGHT_TAIL)])
  else Ok to_insert.

Definition head_count (to_insert : list (Z * str)) : Z :=
  len (filter (λ x, str_eqb x.2 HIGHLIGHT_HEAD = true) to_insert).
Definition tail_count (to_insert : list (Z * str)) : Z :=
  len (filter (λ x, str_eqb x.2 HIGHLIGHT_TAIL = true) to_insert).

(** [for offset, (i, tag) in enumerate(to_insert): html_tags.insert(offset + i, tag)] *)
Fixpoint insert_tags (offset : Z) (to_insert : list (Z * str))
    (html_tags : list str) : list str :=
  match to_insert with
  | [] => html_tags
  | (i, tag) :: rest =>
      insert_tags (offset + 1) rest (list_insert html_tags (offset + i) tag)
  end.

Definition note_tag (text : str) : str :=
  py "<span class=" ++ DQUOTE ++ py "note" ++ DQUOTE ++ py " style=" ++ DQUOTE
  ++ py "color: gray; font-style: italic; font-size: 90%;" ++ DQUOTE
  ++ py "> [R.N.: " ++ text ++ py "] </span>".

(** [create_highlighted_tags(match)] up to the markup handed to
    BeautifulSoup; parsing it back into [p] nodes is the library's. *)
Definition create_highlighted_tags (m : Match) : res str :=
  pieces ← split (all_tag_str m) (pre_highlight m);
  '(prefix, suffix) ← match pieces with
                      | [a; b] => Ok (a, b)
                      | _ => Raise ValueError
                      end;
  let html_tags := split_raw_html_on_pars (pre_highlight m) in
  to_insert ← highlight_insertions html_tags;
  if head_count to_insert =? tail_count to_insert then
    let html_tags := insert_tags 0 to_insert html_tags in
    let html_tags :=
      match note (clip m) with
      | Some text =>
          if nonempty text then html_tags ++ [note_tag text] else html_tags
      | None => html_tags
      end in
    Ok (prefix ++ concat html_tags ++ suffix)
  else Raise AssertionError.

(** [interactive_choice]. The answers typed by the user are the list
    [inputs], and [input] raises [EOFError] when none is left. The built-ins
    [str.isdigit] and [int] are parameters: [int] gives [None] where Python
    raises [ValueError]. *)
Inductive prompted :=
  | Chosen (n : Z) (unread : list str)
  | Failed (e : exn)
  | EOFError.

Section interactive.
Variable isdigit : str → bool.
Variable int : str → option Z.
Variables (num_options : Z) (has_default : bool) (default_choice : Z).

(** The default stands for an empty answer: [choice = str(default_choice)]
    under [has_default] when [choice] is the empty string. *)
Definition or_default (choice : str) : str :=
  if has_default && negb (nonempty choice) then str_of_int default_choice
  else choice.

(** The loop [while not choice.isdigit() or not (0 <= int(choice) <
    num_options)], entered with the current [choice]. *)
Fixpoint choice_loop (inputs : list str) (choice : str) : prompted :=
  let ask_again :=
    match inputs with
    | [] => EOFError
    | answer :: rest => choice_loop rest (or_default answer)
    end in
  if isdigit choice then
    match int choice with
    | Some n =>
        if (0 <=? n) && (n <? num_options) then
          match int choice with
          | Some r => Chosen r inputs
          | None => Failed ValueError
          end
        else ask_again
    | None => Failed ValueError
    end
  else ask_again.

Definition interactive_choice (inputs : list str) : prompted :=
  match inputs with
  | [] => EOFError
  | answer :: rest => choice_loop rest (or_default answer)
  end.
End interactive.

End utils.

(** ** clip_utils.py *)

Module clip_utils.

(** The line appended to [log] by [parse_txt_clippings]: the message says
    that the note with this content and location could not be matched. *)
Inductive log_line :=
  | NoteNotMatched (note_content : str) (note_location : location_t).

(** [clip.title == note.title and clip.location[-1] == note.location[0]] *)
Definition qualifies (c nt : Clipping) : bool :=
  utils.str_eqb (title c) (title nt) &&
  (location_last (location c) =? location_first (location nt)).

(** The inner loop over [reversed(parsed_clips)], which stops at the first
    clipping that qualifies; [rev_clips] is the reversed list. *)
Fixpoint attach_first (nt : Clipping) (rev_clips : list Clipping)
    : list Clipping :=
  match rev_clips with
  | [] => []
  | c :: rest =>
      if qualifies c nt then set_note c (content nt) :: rest
      else c :: attach_first nt rest
  end.

Definition attach_note (parsed_clips : list Clipping) (nt : Clipping)
    : list Clipping :=
  reverse (attach_first nt (reverse parsed_clips)).

(** The loop over [parsed_notes] of [parse_txt_clippings], on the sorted
    lists; it returns [parsed_clips] and [log]. *)
Fixpoint attach_notes (parsed_clips : list Clipping) (log : list log_line)
    (parsed_notes : list Clipping) : list Clipping * list log_line :=
  match parsed_notes with
  | [] => (parsed_clips, log)
  | nt :: rest =>
      let parsed_clips := attach_note parsed_clips nt in
      let log := log ++ [NoteNotMatched (content nt) (location nt)] in
      attach_notes parsed_clips log rest
  end.

(** The assertions over [range(1, len(all_clips))] of
    [parse_html_clippings]. *)
Fixpoint check_ordered (all_clips : list Clipping) : res unit :=
  match all_clips with
  | a :: (b :: _) as rest =>
      if location_first (location a) <=? location_first (location b)
      then check_ordered rest
      else Raise AssertionError
  | _ => Ok tt
  end.

Fixpoint note_indices_from (ix : nat) (all_clips : list Clipping) : list nat :=
  match all_clips with
  | [] => []
  | c :: rest =>
      if decide (type c = note_) then ix :: note_indices_from (S ix) rest
      else note_indices_from (S ix) rest
  end.

(** The body of the loop over [note_indices]; the first index is positive
    when it runs. *)
Definition attach_to_previous (all_clips : list Clipping) (note_ix : nat)
    : list Clipping :=
  match all_clips !! note_ix, all_clips !! (note_ix - 1)%nat with
  | Some nt, Some c =>
      <[(note_ix - 1)%nat := set_note c (content nt)]> all_clips
  | _, _ => all_clips
  end.

(** [parse_html_clippings] from [all_clips] on. *)
Definition parse_html_clippings (all_clips : list Clipping)
    : res (list Clipping) :=
  _ ← check_ordered all_clips;
  let note_indices := note_indices_from 0 all_clips in
  match note_indices with
  | first :: _ =>
      if (0 <? first)%nat then
        let all_clips := foldl attach_to_previous all_clips note_indices in
        Ok (filter (λ c, type c = highlight) all_clips)
      else Raise AssertionError
  | [] => Ok all_clips
  end.

(** [sorted(clips, key=lambda c: c.date)]. A missing date is [None], and
    comparing [None] with a date or with [None] raises [TypeError]; in a
    list of two or more every element is compared at least once, and a list
    of fewer than two is returned without any comparison. *)
Definition date_key (c : Clipping) : Z :=
  match date c with Some d => d | None => 0 end.

Definition has_date (c : Clipping) : bool :=
  match date c with Some _ => true | None => false end.

Definition sorted_by_date (clips : list Clipping) : res (list Clipping) :=
  match clips with
  | [] | [_] => Ok clips
  | _ => if forallb has_date clips then Ok (sorted date_key false clips)
         else Raise TypeError
  end.

(** [parse_txt_clippings] from [all_clips] on; the log it writes is
    returned with the clippings. *)
Definition parse_txt_clippings (all_clips : list Clipping)
    : res (list Clipping * list log_line) :=
  parsed_clips ← sorted_by_date (filter (λ c, type c = highlight) all_clips);
  parsed_notes ← sorted_by_date (filter (λ c, type c = note_) all_clips);
  Ok (attach_notes parsed_clips [] parsed_notes).

(** The text of an export, before the clippings are built. *)
Definition CLIP_SEPARATOR : str := py "==========".

(** The comprehension over the lines of [clip.strip()], split at the
    newline: every line that is not blank, stripped. *)
Definition clip_lines (clip : str) : list str :=
  map strip
    (filter (λ line, nonempty (strip line) = true)
       (split_go [NEWLINE] (strip clip) 0 [])).

(** The loop of [parse_txt_clippings] over [raw.split("==========")], up to
    the arguments [(title, metadata, content)] of each [Clipping]. *)
Definition txt_entry (lines : list str) : option (str * str * str) :=
  match lines with
  | title_ :: metadata :: content_ :: _ =>
      if nonempty (strip content_) then Some (title_, metadata, content_)
      else None
  | _ => None
  end.

Definition txt_entries (raw : str) : list (str * str * str) :=
  omap (λ clip, txt_entry (clip_lines clip)) (split_go CLIP_SEPARATOR raw 0 []).

(** [split_txt_clippings_by_title]: the clippings kept from the raw text,
    the byte order marks removed. *)
Definition keeps_lines (lines : list str) : bool :=
  match lines with
  | _ :: _ :: content_ :: _ => nonempty (strip content_)
  | _ => false
  end.

Definition kept_clips (raw : str) : list (list str) :=
  filter (λ lines, keeps_lines lines = true)
    (map clip_lines
       (split_go CLIP_SEPARATOR (filter (λ c, c ≠ 0xfeff%N) raw) 0 [])).

(** [re.sub] of the class of the characters that a file name may not
    hold (backslash, slash, star, question mark, colon, double quote, angle
    brackets, bar) by the empty string. *)
Definition forbidden_in_title : str := [92; 47; 42; 63; 58; 34; 60; 62; 124]%N.

Definition sanitize_title (t : str) : str :=
  filter (λ c, existsb (N.eqb c) forbidden_in_title = false) t.

(** [clips_by_title[title].append(clip)] on a dictionary that keeps the
    order of insertion of its keys. *)
Fixpoint dict_append (clips_by_title : list (str * list (list str)))
    (title_ : str) (clip : list str) : list (str * list (list str)) :=
  match clips_by_title with
  | [] => [(title_, [clip])]
  | (t, clips) :: rest =>
      if utils.str_eqb t title_ then (t, clips ++ [clip]) :: rest
      else (t, clips) :: dict_append rest title_ clip
  end.

Fixpoint group_by_title (all_clips : list (list str))
    (clips_by_title : list (str * list (list str)))
    : res (list (str * list (list str))) :=
  match all_clips with
  | [] => Ok clips_by_title
  | clip :: rest =>
      first_line ← getitem clip 0;
      group_by_title rest
        (dict_append clips_by_title (sanitize_title first_line) clip)
  end.

(** What is written for one clipping: its lines, then the separator line. *)
Definition written_clip (clip : list str) : str :=
  join [NEWLINE] clip ++ [NEWLINE] ++ CLIP_SEPARATOR ++ [NEWLINE].

(** The loop over [clips_by_title.items()]. [write_file name text] stands
    for opening the file [name] of the directory for writing and writing
    [text] to it, which the system may refuse. The files written are
    returned, as pairs of a title (the file is named after it) and the text
    of the file. *)
Fixpoint write_files (write_file : str → str → res unit)
    (clips_by_title : list (str * list (list str))) : res (list (str * str)) :=
  match clips_by_title with
  | [] => Ok []
  | (title_, clips) :: rest =>
      let text := concat (map written_clip clips) in
      _ ← write_file (title_ ++ py ".txt") text;
      files ← write_files write_file rest;
      Ok ((title_, text) :: files)
  end.

(** [split_txt_clippings_by_title], for a file system given by: [is_file],
    whether the export is there; [read], the text read from it; [mkdir],
    the creation of the directory; and [write_file]. *)
Definition split_txt_clippings_by_title (is_file : bool) (read : res str)
    (mkdir : res unit) (write_file : str → str → res unit)
    : res (list (str * str)) :=
  if is_file then
    raw ← read;
    clips_by_title ← group_by_title (kept_clips raw) [];
    _ ← mkdir;
    write_files write_file clips_by_title
  else Raise FileNotFoundError.

(** One [div] of a markup export: its [class] attribute, if any, and its
    text. *)
Record Div := mkDiv {
  div_class : option (list str);
  div_text : str;
}.

(** [element.get("class") == [name]] *)
Definition class_is (element : Div) (name : str) : bool :=
  match div_class element with
  | Some [x] => utils.str_eqb x name
  | _ => false
  end.

(** The loop of [parse_html_clippings] that pairs each heading with the
    text that follows it, for the constructor [Clipping(title, ., .)] of the
    book at hand; an element that does not open a pair is passed over. *)
Fixpoint collect_clips (Clip : str → str → res Clipping) (elements : list Div)
    : res (list Clipping) :=
  match elements with
  | heading :: ((text :: rest) as following) =>
      if class_is heading (py "noteHeading") && class_is text (py "noteText")
      then
        clip_ ← Clip (strip (div_text heading)) (strip (div_text text));
        all_clips ← collect_clips Clip rest;
        Ok (clip_ :: all_clips)
      else collect_clips Clip following
  | _ => Ok []
  end.

End clip_utils.

(** ** re_kindle.py *)

Module re_kindle.

Import utils.

(** [str.join] of the empty string over [s.split(" ")]. *)
Definition remove_spaces (s : str) : str := concat (split_go [SPACE] s 0 []).

(** The first loop of [find_text_spans], on the state [(combined, spans)]. *)
Fixpoint build_spans (full_texts : list str) (combined : str)
    (spans : list (Z * Z)) : str * list (Z * Z) :=
  match full_texts with
  | [] => (combined, spans)
  | text :: rest =>
      let combined :=
        match combined with [] => combined | _ => combined ++ [SPACE] end in
      let start := len combined in
      let combined := combined ++ text in
      let end_ := len combined in
      build_spans rest combined (spans ++ [(start, end_)])
  end.

(** The second loop, with its [continue] and [break]. *)
Fixpoint matched_indices_from (spans : list (Z * Z)) (i start_pos end_pos : Z)
    : list Z :=
  match spans with
  | [] => []
  | (start, end_) :: rest =>
      if end_ <=? start_pos
      then matched_indices_from rest (i + 1) start_pos end_pos
      else if end_pos <=? start then []
           else i :: matched_indices_from rest (i + 1) start_pos end_pos
  end.

Definition find_text_spans (elements : list Tag) (query : str)
    : option (list Z) :=
  let norm_query := normalize_str query in
  let full_texts := map (λ el, normalize_str (tag_text el)) elements in
  let '(combined, spans) := build_spans full_texts [] [] in
  let start_pos := find combined norm_query in
  if start_pos =? -1 then None
  else
    let end_pos := start_pos + len norm_query in
    Some (matched_indices_from spans 0 start_pos end_pos).

(** The loop of [find_clip_in_spine] over [enumerate(spine[start_from:])]. *)
Fixpoint find_clip_loop (c : Clipping) (nospace_clip : str)
    (items : list Item) (item_offset start_from : Z) : res (option Match) :=
  match items with
  | [] => Ok None
  | item :: rest =>
      let clean_soup := normalize_str (get_text item) in
      let nospace_soup := remove_spaces clean_soup in
      if contains nospace_soup nospace_clip then
        let item_ix := start_from + item_offset in
        let pars := find_all_p item in
        match find_text_spans pars (content c) with
        | None => Ok None
        | Some matched =>
            strs ← mapM (λ i, tag_str <$> getitem pars i) matched;
            let all_tag_str := normalize_whitespace (concat strs) in
            pre ← min_window_subsequence all_tag_str nospace_clip;
            Ok (Some (mkMatch c item_ix matched all_tag_str pre))
        end
      else find_clip_loop c nospace_clip rest (item_offset + 1) start_from
  end.

Definition find_clip_in_spine (c : Clipping) (spine : list Item)
    (start_from : Z) : res (option Match) :=
  find_clip_loop c (remove_spaces (content c))
    (slice spine start_from (len spine)) 0 start_from.

(** One line of the log of [find_matches]. *)
Inductive log_line :=
  | Found (clip_content : str) (file : str)
  | NotFound (clip_content : str).

Fixpoint find_matches_loop (clippings : list Clipping) (spine : list Item)
    (matches : list Match) (log : list log_line)
    : res (list Match * list log_line) :=
  match clippings with
  | [] => Ok (matches, log)
  | c :: rest =>
      let clip_content := normalize_str (content c) in
      found ← find_clip_in_spine c spine 0;
      match found with
      | None =>
          find_matches_loop rest spine matches (log ++ [NotFound clip_content])
      | Some m =>
          item ← getitem spine (spine_ix m);
          find_matches_loop rest spine (matches ++ [m])
            (log ++ [Found clip_content (file_name item)])
      end
  end.

(** [find_matches] returns [matches]; the log it writes is returned too. *)
Definition find_matches (clippings : list Clipping) (spine : list Item)
    : res (list Match * list log_line) :=
  find_matches_loop clippings spine [] [].

(** Binding the arguments of a call to a function whose parameters are all
    plain names without defaults: [npos] positional arguments and the
    keyword arguments [kwargs]. *)
Definition bind_arguments (params : list string) (npos : nat)
    (kwargs : list string) : res unit :=
  if (length params <? npos)%nat then Raise TypeError
  else if forallb (λ k, existsb (String.eqb k) (drop npos params)) kwargs
       then if (npos + length kwargs =? length params)%nat then Ok tt
            else Raise TypeError
       else Raise TypeError.

(** [def create_highlighted_tags(match)] *)
Definition create_highlighted_tags_params : list string := ["match"%string].

(** [utils.create_highlighted_tags(match, highlight_color=highlight_color)] *)
Definition call_create_highlighted_tags (m : Match) (highlight_color : str)
    : res str :=
  _ ← bind_arguments create_highlighted_tags_params 1 ["highlight_color"%string];
  create_highlighted_tags m.

(** What [process_book] reports: the two numbers of its last line, and the
    markup produced for each match in turn. *)
Record report := mkReport {
  applied : Z;
  total : Z;
  injected : list (Match * str);
}.

(** The body of the loop [for match in matches] of [process_book], for a
    tag injector [inject]. Putting the new tags in place of the matched
    blocks ([replace_with], [set_content]) is the work of the BeautifulSoup
    and ebooklib objects, here [replace_with]. *)
Definition apply_one (inject : Match → res str)
    (replace_with : Match → str → res unit) (m : Match) : res str :=
  new_tags ← inject m;
  _ ← replace_with m new_tags;
  Ok new_tags.

Fixpoint apply_highlights (inject : Match → res str)
    (replace_with : Match → str → res unit) (matches : list Match)
    : res (list (Match * str)) :=
  match matches with
  | [] => Ok []
  | m :: rest =>
      new_tags ← apply_one inject replace_with m;
      done_ ← apply_highlights inject replace_with rest;
      Ok ((m, new_tags) :: done_)
  end.

Definition process_book_with (inject : Match → res str)
    (replace_with : Match → str → res unit)
    (clippings : list Clipping) (spine : list Item) : res report :=
  '(matches, _) ← find_matches clippings spine;
  injected ← apply_highlights inject replace_with matches;
  Ok (mkReport (len matches) (len clippings) injected).

(** [process_book] from the parsed clippings and the spine on. *)
Definition process_book (replace_with : Match → str → res unit)
    (clippings : list Clipping) (spine : list Item)
    (highlight_color : str) : res report :=
  process_book_with (λ m, call_create_highlighted_tags m highlight_color)
    replace_with clippings spine.

(** [len(x) if x else 0], the key of the first sort of
    [list_known_clippings]; a file that could not be parsed is [None]. *)
Definition prefetched_size (x : option (list Clipping)) : Z :=
  match x with
  | Some clippings => len clippings
  | None => 0
  end.

(** [len(x)], the key of the second sort: [None] has no length. *)
Definition len_prefetched (x : option (list Clipping)) : res Z :=
  match x with
  | Some clippings => Ok (len clippings)
  | None => Raise TypeError
  end.

(** [l.index(x)], counting positions from [pos]. *)
Fixpoint index_from (l : list str) (x : str) (pos : Z) : res Z :=
  match l with
  | [] => Raise ValueError
  | y :: l' => if str_eqb y x then Ok pos else index_from l' x (pos + 1)
  end.

(** The block [if pre_fetch_clippings:] of [list_known_clippings], for the
    files [matched_clippings] and a parser [parse] that gives [None] for a
    file on which [parse_clippings] raises. It returns the two lists that
    the menu shows side by side, and from which the chosen file and its
    clippings are taken by the same index. The keys of a sort are all
    computed before it sorts. *)
Definition prefetch_and_sort (matched_clippings : list str)
    (parse : str → option (list Clipping))
    : res (list str * list (option (list Clipping))) :=
  let pre_fetched_clippings := map parse matched_clippings in
  let pre_fetched_clippings :=
    sorted prefetched_size true pre_fetched_clippings in
  keys ← mapM (λ x, i ← index_from matched_clippings x 0;
                    p ← getitem pre_fetched_clippings i;
                    len_prefetched p) matched_clippings;
  let matched_clippings :=
    map snd (sorted fst false (zip keys matched_clippings)) in
  Ok (matched_clippings, pre_fetched_clippings).

End re_kindle.

(** * Specification vocabulary *)

(** [seg l a b] is [l[a:b]] for in-range bounds. *)
Definition seg {A} (l : list A) (a b : Z) : list A :=
  take (Z.to_nat (b - a)) (drop (Z.to_nat a) l).

(** [t] is an ordered subsequence of the window [s[b:e+1]]. *)
Definition is_window (s t : str) (b e : Z) : Prop :=
  0 <= b ∧ b <= e ∧ e < len s ∧ t `sublist_of` seg s b (e + 1).

(** The running minimum [(min_len, start_idx)] accounts for the window
    [s[b:e+1]]: it is no longer, and on a tie it starts no later. *)
Definition covered (min_len : option Z) (start_idx b e : Z) : Prop :=
  match min_len with
  | None => False
  | Some l => l <= e - b ∧ (e - b = l → start_idx - 1 <= b)
  end.

Definition best_ok (s t : str) (min_len : option Z) (start_idx : Z) : Prop :=
  match min_len with
  | None => start_idx = -1
  | Some l => is_window s t (start_idx - 1) (start_idx - 1 + l)
  end.

(** Invariant of the outer loop at index [i]: every window starting
    before [i] is accounted for, or has a window with the same end
    starting at or after [i]. *)
Definition outer_inv (s t : str) (i : Z) (min_len : option Z)
    (start_idx : Z) : Prop :=
  best_ok s t min_len start_idx ∧
  (∀ l, min_len = Some l → start_idx - 1 < i) ∧
  ∀ b e, is_window s t b e → b < i →
    covered min_len start_idx b e ∨ ∃ b', i <= b' ∧ is_window s t b' e.

(** Two strings differ only in the run-length or the class of their
    whitespace characters, for the class [ws]: equal characters outside the
    class, any member of the class for any other, and one more member of
    the class in a run on either side. *)
Inductive ws_sim (ws : char → bool) : str → str → Prop :=
  | ws_sim_nil : ws_sim ws [] []
  | ws_sim_char c x y :
      ws c = false → ws_sim ws x y → ws_sim ws (c :: x) (c :: y)
  | ws_sim_class c d x y :
      ws c = true → ws d = true → ws_sim ws x y → ws_sim ws (c :: x) (d :: y)
  | ws_sim_longer_l c d x y :
      ws c = true → ws d = true → ws_sim ws (d :: x) y →
      ws_sim ws (c :: d :: x) y
  | ws_sim_longer_r c d x y :
      ws c = true → ws d = true → ws_sim ws x (d :: y) →
      ws_sim ws x (c :: d :: y).

(** The class the specification names: the [\s] class together with the
    characters listed in [normalize_whitespace], among them the byte order
    mark and the Mongolian vowel separator. *)
Definition spec_whitespace (c : char) : bool :=
  isspace c || existsb (N.eqb c) utils.unicode_whitespace.

Definition BOM : char := 0xfeff%N.

(** The first and the last character, if any, are not whitespace. *)
Definition starts_clean (z : str) : Prop :=
  match z with
  | c :: _ => isspace c = false
  | [] => True
  end.

Definition ends_clean (z : str) : Prop :=
  match last z with
  | Some c => isspace c = false
  | None => True
  end.

(** Every whitespace character is an ASCII space and is not followed by
    another whitespace character. *)
Fixpoint collapsed (z : str) : Prop :=
  match z with
  | [] => True
  | c :: z' =>
      (isspace c = true → c = SPACE ∧ starts_clean z') ∧ collapsed z'
  end.

(** A word is a non-empty run of characters none of which is whitespace, a
    gap a non-empty run of whitespace characters; a run of whitespace that
    may be empty is blank. *)
Definition is_word (w : str) : Prop :=
  w ≠ [] ∧ Forall (λ c, isspace c = false) w.

Definition is_gap (g : str) : Prop :=
  g ≠ [] ∧ Forall (λ c, isspace c = true) g.

Definition blank (g : str) : Prop := Forall (λ c, isspace c = true) g.

(** A text spelled as a first word and further words, each after its gap;
    and the same words with one ASCII space in the place of each gap. *)
Definition spelled (w0 : str) (rest : list (str * str)) : str :=
  w0 ++ concat (map (λ p, p.1 ++ p.2) rest).

Definition spaced (w0 : str) (rest : list (str * str)) : str :=
  w0 ++ concat (map (λ p, SPACE :: p.2) rest).

(** [q] occurs in [s] as a contiguous substring. *)
Definition is_infix (q s : str) : Prop := ∃ l1 l2, s = l1 ++ q ++ l2.

(** The two components of the state of [build_spans] after the loop, as
    functions of the texts still to come: the combined text, and the ranges
    laid out from the length [pos] of the text combined so far. *)
Definition glue_one (combined text : str) : str :=
  match combined with
  | [] => text
  | _ => combined ++ [SPACE] ++ text
  end.

Fixpoint glue (combined : str) (full_texts : list str) : str :=
  match full_texts with
  | [] => combined
  | text :: rest => glue (glue_one combined text) rest
  end.

Fixpoint layout (pos : Z) (full_texts : list str) : list (Z * Z) :=
  match full_texts with
  | [] => []
  | text :: rest =>
      let start := if pos =? 0 then 0 else pos + 1 in
      (start, start + len text) :: layout (start + len text) rest
  end.

(** The start of the range of a text laid out after [combined]. *)
Definition start_after (combined : str) : Z :=
  if len combined =? 0 then 0 else len combined + 1.

(** Ranges that follow one another from [lb] on. *)
Fixpoint chain (lb : Z) (spans : list (Z * Z)) : Prop :=
  match spans with
  | [] => True
  | (a, b) :: rest => lb <= a ∧ a <= b ∧ chain b rest
  end.

(** The half-open ranges [[a, b)] and [[c, d)] share a position. *)
Definition overlap (a b c d : Z) : Prop := ∃ p, a <= p < b ∧ c <= p < d.

(** The parts of a window that begins and ends in the text of a block:
    a chunk of content, then for every further block the closing
    delimiter, an opening delimiter and a chunk of content. *)
Definition is_content (part : str) : Prop :=
  startswith part (py "<p") = false ∧ startswith part (py "</p") = false.

Definition is_opening (part : str) : Prop :=
  startswith part (py "<p") = true.

Fixpoint block_parts (blocks : list (str * str)) : list str :=
  match blocks with
  | [] => []
  | (opening, chunk) :: rest =>
      py "</p>" :: opening :: chunk :: block_parts rest
  end.

(** Timestamp order on clippings that carry a date. *)
Definition date_le (a b : Clipping) : Prop :=
  match date a, date b with
  | Some x, Some y => x <= y
  | _, _ => False
  end.

(** [c'] is the clipping [c] with the text [text] as its note: the note
    field holds the text, every other field is the one of [c]. *)
Definition annotated (c' c : Clipping) (text : str) : Prop :=
  note c' = Some text ∧ title c' = title c ∧ type c' = type c ∧
  location c' = location c ∧ date c' = date c ∧ color c' = color c ∧
  content c' = content c.

(** Every clipping that is immediately followed by a note carries that
    note's content. *)
Fixpoint with_following_notes (all_clips : list Clipping) : list Clipping :=
  match all_clips with
  | [] => []
  | c :: rest =>
      match rest with
      | nt :: _ => if decide (type nt = note_) then set_note c (content nt) else c
      | [] => c
      end :: with_following_notes rest
  end.

(** What the clipping at a position of the export becomes: with a note
    next to it in document order it takes the content of that note as its
    note, and otherwise it stays as it is. *)
Definition takes_next_note (next : option Clipping) (c c' : Clipping) : Prop :=
  match next with
  | Some d => if decide (type d = note_) then annotated c' c (content d)
              else c' = c
  | None => c' = c
  end.

(** Some consecutive pair of clippings has a decreasing starting location. *)
Definition has_decreasing_pair (all_clips : list Clipping) : Prop :=
  ∃ i a b, all_clips !! i = Some a ∧ all_clips !! S i = Some b ∧
    location_first (location b) < location_first (location a).

(** The document test of [find_clip_in_spine]: the normalized text of the
    document, spaces removed, contains the content of the clipping, spaces
    removed. *)
Definition passes (c : Clipping) (item : Item) : Prop :=
  contains (re_kindle.remove_spaces (utils.normalize_str (get_text item)))
    (re_kindle.remove_spaces (content c)) = true.



(** ** Sample inputs *)

Definition sample_highlight (ttl text : string) (loc : location_t) (d : Z)
    : Clipping :=
  mkClipping (py ttl) highlight loc (Some d) None None (py text).

Definition sample_note (ttl text : string) (loc : Z) (d : Z) : Clipping :=
  mkClipping (py ttl) note_ (At loc) (Some d) None None (py text).

(** A document of two paragraphs, the second one carrying a class
    attribute. *)
Definition fox_par_1 : Tag := mkTag (py "The quick") (py "<p>The quick</p>").
Definition fox_par_2 : Tag :=
  mkTag (py "fox jumps")
    (py "<p class=" ++ utils.DQUOTE ++ py "fox" ++ utils.DQUOTE
     ++ py ">fox jumps</p>").
Definition fox_doc : Item :=
  mkItem (py "ch1.xhtml") (py "The quick fox jumps") [fox_par_1; fox_par_2].

Definition quick_fox : Clipping := sample_highlight "Book" "quick fox" (Range 1 5) 1.
Definition jumps : Clipping := sample_highlight "Book" "jumps" (Range 6 7) 2.

(** The match the orchestrator builds for [quick_fox] in [fox_doc]. *)
Definition quick_fox_match : Match :=
  mkMatch quick_fox 0 [0; 1]
    (tag_str fox_par_1 ++ tag_str fox_par_2)
    (py "quick</p><p class=" ++ utils.DQUOTE ++ py "fox").

(** The note-attachment example of the specification: two highlights at
    locations 1-5 with timestamps 1 and 2, and a note at location 5 with
    timestamp 3. *)
Definition hl_t1 : Clipping := sample_highlight "Book" "first pass" (Range 1 5) 1.
Definition hl_t2 : Clipping := sample_highlight "Book" "second pass" (Range 1 5) 2.
Definition note_t3 : Clipping := sample_note "Book" "remember this" 5 3.

(** Two documents for the content "a b": the first holds "ab", which
    passes the space-free test of the orchestrator and is not found by the
    span locator; the second holds the content itself. *)
Definition clip_a_b : Clipping := sample_highlight "Book" "a b" (Range 1 2) 1.
Definition doc_ab : Item :=
  mkItem (py "ch1.xhtml") (py "ab") [mkTag (py "ab") (py "<p>ab</p>")].
Definition doc_a_b : Item :=
  mkItem (py "ch2.xhtml") (py "a b") [mkTag (py "a b") (py "<p>a b</p>")].

(** A paragraph whose text holds a character that its markup escapes: the
    aligner finds no window for the content "a < b". *)
Definition clip_lt : Clipping := sample_highlight "Book" "a < b" (Range 1 2) 1.
Definition doc_lt : Item :=
  mkItem (py "ch1.xhtml") (py "a < b")
    [mkTag (py "a < b") (py "<p>a &lt; b</p>")].


Definition nothing : Clipping := sample_highlight "Book" "slow fox" (Range 8 9) 3.

(** Arithmetic on [len]. *)
Ltac len_lia :=
  unfold len in *; repeat rewrite !length_app in *; simpl length in *; lia.

(** ** Further vocabulary *)

(** One character of [normalize_whitespace]. *)
Definition space_if_listed (c : char) : char :=
  if existsb (N.eqb c) utils.unicode_whitespace then SPACE else c.

(** The delimiters matched by the pattern of [split_raw_html_on_pars]: the
    closing tag, or an opening tag up to its first closing angle bracket. *)
Definition GT : char := 62%N.

Definition is_par_delimiter (d : str) : Prop :=
  d = py "</p>" ∨ ∃ attrs, d = py "<p" ++ attrs ++ [GT] ∧ GT ∉ attrs.

(** No delimiter occurs anywhere in [text]. *)
Definition delimiter_free (text : str) : Prop :=
  ∀ u d v, text = u ++ d ++ v → ¬ is_par_delimiter d.

(** A piece of text followed by delimiters, each with the text after it. *)
Definition alternate (text0 : str) (rest : list (str * str)) : list str :=
  text0 :: concat (map (λ p, [p.1; p.2]) rest).

(** The characters of [s] that are not whitespace, in order. *)
Definition non_space (s : str) : str := filter (λ c, isspace c = false) s.

(** Where the tokens of [to_insert] belong among the parts: the token
    [(i, tag)] immediately before the part of index [i], after the last
    part when [i] is the number of parts; [pos] is the index of the first
    part of [parts]. *)
Fixpoint weave (pos : Z) (to_insert : list (Z * str)) (parts : list str)
    : list str :=
  match to_insert with
  | [] => parts
  | (i, tag) :: rest =>
      take (Z.to_nat (i - pos)) parts
      ++ tag :: weave i rest (drop (Z.to_nat (i - pos)) parts)
  end.

(** The positions of [to_insert] do not decrease, and lie between [pos]
    and [n]. *)
Fixpoint positions_ok (pos n : Z) (to_insert : list (Z * str)) : Prop :=
  match to_insert with
  | [] => True
  | (i, _) :: rest => (pos <= i ∧ i <= n) ∧ positions_ok i n rest
  end.

(** The text of a block inside a window: it holds no angle bracket that
    opens a tag, and it is not blank. *)
Definition LT : char := 60%N.

Definition is_chunk (text : str) : Prop :=
  (LT ∉ text) ∧ ∃ c, c ∈ text ∧ isspace c = false.

Definition is_opening_tag (d : str) : Prop :=
  ∃ attrs, d = py "<p" ++ attrs ++ [GT] ∧ GT ∉ attrs.

(** A window that begins in the text of a block and ends in the text of
    the same or a later block, and the markup expected for it: every chunk
    between its own pair of markers. *)
Definition window_of (chunk : str) (blocks : list (str * str)) : str :=
  concat (chunk :: block_parts blocks).

Definition marked (chunk : str) : str :=
  utils.HIGHLIGHT_HEAD ++ chunk ++ utils.HIGHLIGHT_TAIL.

Definition marked_window (chunk : str) (blocks : list (str * str)) : str :=
  marked chunk ++ concat (map (λ b, py "</p>" ++ b.1 ++ marked b.2) blocks).

(** The markup appended for the note of a clipping, if it has one. *)
Definition note_markup (nt : option str) : str :=
  match nt with
  | Some (c :: text) => utils.note_tag (c :: text)
  | _ => []
  end.

(** The tokens recorded for the blocks after the first chunk, the closing
    delimiter of the first of them having index [p]: a tail before each
    closing delimiter, a head after each opening delimiter. *)
Fixpoint block_tokens (p : Z) (blocks : list (str * str)) : list (Z * str) :=
  match blocks with
  | [] => []
  | _ :: rest =>
      (p, utils.HIGHLIGHT_TAIL) :: (p + 2, utils.HIGHLIGHT_HEAD)
      :: block_tokens (p + 3) rest
  end.

(** A clipping with its note taken away. *)
Definition without_note (c : Clipping) : Clipping :=
  mkClipping (title c) (type c) (location c) (date c) (color c) None (content c).

(** The pairs of neighbouring elements of a markup export, and the test
    that a pair is a heading followed by its text. *)
Definition adjacent_pairs (elements : list clip_utils.Div)
    : list (clip_utils.Div * clip_utils.Div) :=
  zip elements (drop 1 elements).

Definition is_note_pair (p : clip_utils.Div * clip_utils.Div) : bool :=
  clip_utils.class_is p.1 (py "noteHeading")
  && clip_utils.class_is p.2 (py "noteText").

(** The arguments of the clipping built from the lines of one entry. *)
Definition first_three (lines : list str) : str * str * str :=
  match lines with
  | a :: b :: c :: _ => (a, b, c)
  | _ => ([], [], [])
  end.

(** A line as [split_txt_clippings_by_title] writes it: stripped, not
    empty, and free of the newline and of the separator. *)
Definition good_line (line : str) : Prop :=
  line ≠ [] ∧ starts_clean line ∧ ends_clean line ∧
  (NEWLINE ∉ line) ∧ ¬ is_infix clip_utils.CLIP_SEPARATOR line.

(** The key under which [split_txt_clippings_by_title] files the lines of
    one entry: the title line with the forbidden characters removed. *)
Definition file_title (lines : list str) : str :=
  clip_utils.sanitize_title (default [] (head lines)).

(** The lines of an entry that is kept, as they are written. *)
Definition good_clip (lines : list str) : Prop :=
  clip_utils.keeps_lines lines = true ∧ Forall good_line lines.

(** The dictionary of [split_txt_clippings_by_title] after the entries
    [clips]: its keys are distinct, the key of every entry is among them,
    and under each key are the entries that have this key, in their order. *)
Definition grouped (d : list (str * list (list str)))
    (clips : list (list str)) : Prop :=
  NoDup d.*1 ∧
  (∀ clip, clip ∈ clips → file_title clip ∈ d.*1) ∧
  ∀ t cs, (t, cs) ∈ d →
    cs ≠ [] ∧ cs = filter (λ clip, file_title clip = t) clips.

(** The clipping [quick_fox] with a note of the reader. *)
Definition noted_fox : Clipping :=
  mkClipping (py "Book") highlight (Range 1 5) (Some 1) None
    (Some (py "remember this")) (py "quick fox").

(** An export of two entries of one book and, between them, one entry of
    another, whose title holds a colon. *)
Definition two_book_export : str :=
  py "Dune" ++ [NEWLINE] ++ py "- Highlight at 1-5" ++ [NEWLINE]
  ++ py "Fear is the mind-killer." ++ [NEWLINE]
  ++ clip_utils.CLIP_SEPARATOR ++ [NEWLINE]
  ++ py "Emma: a novel" ++ [NEWLINE] ++ py "- Highlight at 7" ++ [NEWLINE]
  ++ py "handsome, clever, and rich" ++ [NEWLINE]
  ++ clip_utils.CLIP_SEPARATOR ++ [NEWLINE]
  ++ py "Dune" ++ [NEWLINE] ++ py "- Note at 5" ++ [NEWLINE]
  ++ py "litany" ++ [NEWLINE] ++ clip_utils.CLIP_SEPARATOR ++ [NEWLINE].

(** The two built-ins of [interactive_choice] on ASCII decimal digits. *)
Definition ascii_isdigit (s : str) : bool :=
  nonempty s && forallb (λ c, (48 <=? c) && (c <=? 57))%N s.

Definition ascii_int (s : str) : option Z :=
  if ascii_isdigit s
  then Some (foldl (λ n c, 10 * n + Z.of_N (c - 48)) 0 s)
  else None.

(** An answer that [interactive_choice] does not accept and that does not
    make it raise, and one that it accepts as [n]. *)
Definition rejected_answer (isdigit : str → bool) (int : str → option Z)
    (num_options : Z) (choice : str) : Prop :=
  isdigit choice = false ∨
  ∃ k, int choice = Some k ∧ ¬ (0 <= k ∧ k < num_options).

Definition accepted_answer (isdigit : str → bool) (int : str → option Z)
    (num_options : Z) (choice : str) (n : Z) : Prop :=
  isdigit choice = true ∧ int choice = Some n ∧ 0 <= n ∧ n < num_options.

(** The number of clippings read from a file of the library. *)
Definition file_size (parse : str → option (list Clipping)) (x : str) : Z :=
  re_kindle.prefetched_size (parse x).

(** The beginning of an opening tag, cut before its closing angle
    bracket. *)
Definition is_cut_tag (part : str) : Prop :=
  ∃ attrs, part = py "<p" ++ attrs ∧ (GT ∉ attrs) ∧ (LT ∉ attrs).

(** * The window aligner ([min_window_subsequence]) *)

Section list_segments.
Context {A : Type}.
Implicit Types l : list A.

Lemma seg_nil l a b : b <= a → seg l a b = [].
Proof. intros. unfold seg. by replace (Z.to_nat (b - a)) with 0%nat by lia. Qed.

Lemma seg_cons l a b x :
  0 <= a < b → l !! Z.to_nat a = Some x → seg l a b = x :: seg l (a + 1) b.
Proof.
  intros Hab Hx. unfold seg.
  rewrite (drop_S _ _ _ Hx).
  replace (Z.to_nat (b - a)) with (S (Z.to_nat (b - (a + 1)))) by lia.
  by replace (Z.to_nat (a + 1)) with (S (Z.to_nat a)) by lia.
Qed.

Lemma seg_snoc l a b x :
  0 <= a <= b → l !! Z.to_nat b = Some x → seg l a (b + 1) = seg l a b ++ [x].
Proof.
  intros Hab Hx. unfold seg.
  replace (Z.to_nat (b + 1 - a)) with (S (Z.to_nat (b - a))) by lia.
  apply take_S_r. rewrite lookup_drop, <- Hx. f_equal. lia.
Qed.

Lemma seg_full l a : 0 <= a → seg l a (len l) = drop (Z.to_nat a) l.
Proof.
  intros. unfold seg, len. apply take_ge. rewrite length_drop. lia.
Qed.

Lemma seg_sublist_r l a b b' : b <= b' → seg l a b `sublist_of` seg l a b'.
Proof.
  intros. unfold seg.
  replace (Z.to_nat (b - a)) with (Z.to_nat (b - a) `min` Z.to_nat (b' - a))%nat by lia.
  rewrite <- take_take. apply sublist_take.
Qed.

Lemma seg_sublist_l l a a' b : 0 <= a <= a' → seg l a' b `sublist_of` seg l a b.
Proof.
  intros. destruct (decide (b <= a')) as [|Hlt].
  { rewrite (seg_nil l a' b) by done. apply sublist_nil_l. }
  unfold seg.
  replace (Z.to_nat a') with (Z.to_nat a + Z.to_nat (a' - a))%nat by lia.
  rewrite <- drop_drop, take_drop_commute.
  replace (Z.to_nat (a' - a) + Z.to_nat (b - a'))%nat with (Z.to_nat (b - a)) by lia.
  apply sublist_drop.
Qed.

Lemma seg_length l a b : 0 <= a <= b → b <= len l → len (seg l a b) = b - a.
Proof.
  intros. unfold seg, len in *. rewrite length_take, length_drop. lia.
Qed.

Lemma seg_split l a b :
  0 <= a <= b → b <= len l → l = seg l 0 a ++ seg l a b ++ seg l b (len l).
Proof.
  intros. rewrite (seg_full l b) by lia. unfold seg.
  rewrite Z.sub_0_r. simpl. rewrite drop_0.
  replace (Z.to_nat b) with (Z.to_nat a + Z.to_nat (b - a))%nat by lia.
  rewrite <- drop_drop. by rewrite !take_drop.
Qed.

Lemma seg_of_app l1 w l2 :
  seg (l1 ++ w ++ l2) (len l1) (len l1 + len w) = w.
Proof.
  unfold seg, len. rewrite Nat2Z.id.
  replace (Z.to_nat _) with (length w) by lia.
  rewrite drop_app_length. by rewrite take_app_length.
Qed.

Lemma seg_of_app_eq l1 w l2 a b :
  a = len l1 → b = len l1 + len w → seg (l1 ++ w ++ l2) a b = w.
Proof. intros -> ->. apply seg_of_app. Qed.

Lemma slice_seg l a b : 0 <= a <= b → b <= len l → slice l a b = seg l a b.
Proof.
  intros. unfold slice, seg, clamp_index.
  assert ((a <? 0) = false) as -> by lia. assert ((b <? 0) = false) as -> by lia.
  by rewrite !Z.max_r, !Z.min_r by lia.
Qed.

Lemma getitem_Ok l k :
  0 <= k < len l → ∃ x, getitem l k = Ok x ∧ l !! Z.to_nat k = Some x.
Proof.
  intros. unfold getitem. cbv zeta.
  assert ((k <? 0) = false) as -> by lia.
  assert ((k <? 0) = false) as -> by lia.
  destruct (lookup_lt_is_Some_2 l (Z.to_nat k)) as [x Hx]; [unfold len in *; lia|].
  rewrite Hx. eauto.
Qed.

Lemma sublist_snoc_ne (u v : list A) x y :
  x ≠ y → u ++ [x] `sublist_of` v ++ [y] → u ++ [x] `sublist_of` v.
Proof.
  intros Hne (l1 & l2 & Heq & H1 & H2)%sublist_app_r.
  apply sublist_cons_r in H2 as [H2|(l' & -> & H2)].
  - apply sublist_nil_r in H2 as ->. rewrite app_nil_r in Heq. by subst.
  - apply sublist_nil_r in H2 as ->. apply app_inj_tail in Heq as [_ ?]. done.
Qed.

Lemma sublist_cons_weaken (u v : list A) x :
  x :: u `sublist_of` v → u `sublist_of` v.
Proof. intros. etrans; [|done]. by apply sublist_cons. Qed.
End list_segments.

Lemma startswith_prefix (s p : str) :
  startswith s p = true ↔ ∃ r, s = p ++ r.
Proof.
  revert s. induction p as [|a p IH]; intros s; simpl.
  { split; eauto. }
  destruct s as [|b s]; [split; [done|by intros [? ?]]|].
  rewrite andb_true_iff, N.eqb_eq, IH. split.
  - intros [-> [r ->]]. eauto.
  - intros [r [= -> ->]]. eauto.
Qed.

Lemma str_eqb_eq (a b : str) : utils.str_eqb a b = true ↔ a = b.
Proof.
  revert b. induction a as [|x a IH]; intros [|y b]; simpl; try done.
  rewrite andb_true_iff, N.eqb_eq, IH. split; [by intros [-> ->]|by intros [= -> ->]].
Qed.

Section window_aligner.
Import utils.
Variables s t : str.

Lemma drop_lookup_cons (l : str) j x :
  0 <= j → l !! Z.to_nat j = Some x →
  drop (Z.to_nat j) l = x :: drop (Z.to_nat (j + 1)) l.
Proof.
  intros ? Hx. rewrite (drop_S _ _ _ Hx). f_equal. f_equal. lia.
Qed.

Lemma take_lookup_snoc (l : str) j x :
  0 <= j → l !! Z.to_nat j = Some x →
  take (Z.to_nat (j + 1)) l = take (Z.to_nat j) l ++ [x].
Proof.
  intros ? Hx. rewrite <- (take_S_r _ _ _ Hx). f_equal. lia.
Qed.

(** The forward scan started at [(k, j)] stops at the least end [k']
    with [t[j:]] inside [s[k:k'+1]], or runs off [s] when there is none. *)
Lemma forward_scan_spec fuel k j :
  0 <= k <= len s → 0 <= j < len t → len s - k < Z.of_nat fuel →
  ∃ k' j', forward_scan fuel s t k j = Ok (k', j') ∧
    ((j' = len t ∧ k <= k' < len s ∧
      drop (Z.to_nat j) t `sublist_of` seg s k (k' + 1) ∧
      ¬ drop (Z.to_nat j) t `sublist_of` seg s k k')
     ∨ (j' ≠ len t ∧ ¬ drop (Z.to_nat j) t `sublist_of` seg s k (len s))).
Proof.
  revert k j. induction fuel as [|fuel IH]; intros k j Hk Hj Hfuel; [lia|].
  simpl. destruct (Z.ltb_spec k (len s)) as [Hlt|Hge].
  - destruct (getitem_Ok s k) as (sk & -> & Hsk); [lia|].
    destruct (getitem_Ok t j) as (tj & -> & Htj); [lia|].
    simpl. rewrite (drop_lookup_cons t j tj) by (lia || done).
    destruct (N.eqb_spec sk tj) as [->|Hne].
    + destruct (Z.eqb_spec (j + 1) (len t)) as [Hn|Hn].
      * exists k, (j + 1). split; [done|]. left.
        rewrite (seg_cons s k (k + 1) tj), !seg_nil by (lia || done).
        replace (drop (Z.to_nat (j + 1)) t) with (@nil char)
          by (symmetry; apply drop_ge; unfold len in *; lia).
        repeat split; try lia; [done|]. by intros ?%sublist_nil_r.
      * destruct (IH (k + 1) (j + 1)) as (k' & j' & -> & Hspec); [lia..|].
        exists k', j'. split; [done|].
        destruct Hspec as [(-> & Hk' & Hin & Hmin)|[Hj' Hno]]; [left|right].
        -- rewrite (seg_cons s k (k' + 1) tj) by (lia || done).
           repeat split; try lia; [by constructor|].
           rewrite (seg_cons s k k' tj) by (lia || done).
           intros [?%sublist_cons_weaken|(l' & [= <-] & ?)]%sublist_cons_r; done.
        -- split; [done|]. rewrite (seg_cons s k (len s) tj) by (lia || done).
           intros [?%sublist_cons_weaken|(l' & [= <-] & ?)]%sublist_cons_r; done.
    + destruct (IH (k + 1) j) as (k' & j' & -> & Hspec); [lia..|].
      rewrite (drop_lookup_cons t j tj) in Hspec by (lia || done).
      exists k', j'. split; [done|].
      destruct Hspec as [(-> & Hk' & Hin & Hmin)|[Hj' Hno]]; [left|right].
      * rewrite (seg_cons s k (k' + 1) sk) by (lia || done).
        repeat split; try lia; [by constructor|].
        rewrite (seg_cons s k k' sk) by (lia || done).
        intros [?|(l' & [= <- <-] & ?)]%sublist_cons_r; done.
      * split; [done|]. rewrite (seg_cons s k (len s) sk) by (lia || done).
        intros [?|(l' & [= <- <-] & ?)]%sublist_cons_r; done.
  - exists k, j. split; [done|]. right. split; [lia|].
    rewrite seg_nil by lia. intros Hnil%sublist_nil_r.
    apply (f_equal length) in Hnil. rewrite length_drop in Hnil.
    unfold len in *. simpl in Hnil. lia.
Qed.

(** The backward scan started at [(k, j)], with [t[:j+1]] known to lie
    inside [s[i:k+1]], stops at the greatest start [k'] with [t[:j+1]]
    inside [s[k':k+1]]; it always leaves through the [break]. *)
Lemma backward_scan_spec fuel i k j :
  0 <= i → k < len s → 0 <= j < len t → k - i + 1 < Z.of_nat fuel →
  take (Z.to_nat (j + 1)) t `sublist_of` seg s i (k + 1) →
  ∃ k', backward_scan fuel s t i k j = Ok (k', -1) ∧ i <= k' <= k ∧
    take (Z.to_nat (j + 1)) t `sublist_of` seg s k' (k + 1) ∧
    ¬ take (Z.to_nat (j + 1)) t `sublist_of` seg s (k' + 1) (k + 1).
Proof.
  revert k j. induction fuel as [|fuel IH]; intros k j Hi Hk Hj Hfuel Hin;
    destruct (getitem_Ok t j) as (tj & Hgt & Htj); try lia;
    rewrite (take_lookup_snoc t j tj) in * by (lia || done);
    (assert (i <= k) as Hle
       by (destruct (decide (i <= k)); [done|];
           rewrite seg_nil in Hin by lia; apply sublist_nil_r in Hin;
           by destruct (take (Z.to_nat j) t))); [lia|].
  simpl. assert ((i <=? k) = true) as -> by lia.
  - destruct (getitem_Ok s k) as (sk & -> & Hsk); [lia|].
    rewrite Hgt. simpl.
    rewrite (seg_snoc s i k sk) in Hin by (lia || done).
    destruct (N.eqb_spec sk tj) as [->|Hne].
    + apply sublist_app_inv_r in Hin.
      destruct (Z.ltb_spec (j - 1) 0) as [Hj0|Hj0].
      * exists k. replace (j - 1) with (-1) by lia. split; [done|].
        replace (Z.to_nat j) with 0%nat by lia. simpl.
        rewrite (seg_cons s k (k + 1) tj), !seg_nil by (lia || done).
        repeat split; try lia; [done|]. by intros ?%sublist_nil_r.
      * replace (Z.to_nat j) with (Z.to_nat (j - 1 + 1)) in * by lia.
        destruct (IH (k - 1) (j - 1)) as (k' & -> & Hk' & Hsub & Hmax);
          [lia..| by replace (k - 1 + 1) with k by lia |].
        replace (k - 1 + 1) with k in * by lia.
        exists k'. split; [done|].
        rewrite (seg_snoc s k' k tj), (seg_snoc s (k' + 1) k tj) by (lia || done).
        repeat split; try lia; [by apply sublist_app|].
        by intros ?%sublist_app_inv_r.
    + apply sublist_snoc_ne in Hin; [|done].
      rewrite <- (take_lookup_snoc t j tj) in * by (lia || done).
      destruct (IH (k - 1) j) as (k' & -> & Hk' & Hsub & Hmax);
        [lia..| by replace (k - 1 + 1) with k by lia |].
      replace (k - 1 + 1) with k in * by lia.
      exists k'. split; [done|].
      rewrite (seg_snoc s k' k sk), (seg_snoc s (k' + 1) k sk) by (lia || done).
      repeat split; try lia; [by apply sublist_inserts_r|].
      rewrite (take_lookup_snoc t j tj) in * by (lia || done).
      by intros ?%sublist_snoc_ne.
Qed.

Lemma is_window_shift i e x y :
  s !! Z.to_nat i = Some x → t !! 0%nat = Some y → x ≠ y →
  is_window s t i e → is_window s t (i + 1) e.
Proof.
  unfold is_window. intros Hx Hy Hne (Hi & Hie & He & Hsub).
  rewrite (seg_cons s i (e + 1) x) in Hsub by (lia || done).
  destruct t as [|y' t']; simplify_eq/=.
  apply sublist_cons_r in Hsub as [Hsub|(l' & [= <-] & ?)]; [|done].
  assert (i + 1 <= e); [|repeat split; (lia || done)].
  destruct (decide (i + 1 <= e)); [done|].
  rewrite seg_nil in Hsub by lia. by apply sublist_nil_r in Hsub.
Qed.

Lemma is_window_widen i b e e' :
  0 <= i <= b → e < e' → is_window s t b e → t `sublist_of` seg s i e'.
Proof.
  intros ?? (Hi & Hie & He & Hsub).
  etrans; [done|]. etrans; [by apply (seg_sublist_l s i b)|].
  apply seg_sublist_r. lia.
Qed.

Lemma outer_loop_spec fuel i min_len start_idx :
  0 < len t → 0 <= i <= len s → len s - i < Z.of_nat fuel →
  outer_inv s t i min_len start_idx →
  ∃ min_len' start_idx',
    outer_loop fuel s t i min_len start_idx = Ok (min_len', start_idx') ∧
    best_ok s t min_len' start_idx' ∧
    ∀ b e, is_window s t b e → covered min_len' start_idx' b e.
Proof.
  intros Ht. revert i min_len start_idx.
  induction fuel as [|fuel IH]; intros i ml si Hi Hfuel (Hbest & Hlt & Hinv); [lia|].
  cbn -[forward_scan backward_scan getitem]. destruct (Z.ltb_spec i (len s)) as [Him|Him].
  2:{ exists ml, si. split; [done|split; [done|]]. intros b e Hw.
      destruct (Hinv b e Hw) as [?|(b' & ? & Hw')]; [unfold is_window in *; lia|done|].
      unfold is_window in *; lia. }
  destruct (getitem_Ok s i) as (x & -> & Hx); [lia|].
  destruct (getitem_Ok t 0) as (y & -> & Hy); [lia|].
  cbn -[forward_scan backward_scan getitem]. destruct (N.eqb_spec x y) as [->|Hne].
  2:{ apply IH; [lia..|]. split; [done|split; [intros l ?%Hlt; lia|]].
      intros b e Hw Hb.
      assert (is_window s t i e → ∃ b', i + 1 <= b' ∧ is_window s t b' e) as Hshift.
      { intros Hw'. exists (i + 1). split; [lia|]. by eapply is_window_shift. }
      destruct (decide (b = i)) as [->|]; [by right; apply Hshift|].
      destruct (Hinv b e Hw) as [?|(b' & ? & Hw')]; [lia|by left|right].
      destruct (decide (b' = i)) as [->|]; [by apply Hshift|].
      exists b'. split; [lia|done]. }
  destruct (forward_scan_spec (S (length s)) i 0) as (k1 & j1 & -> & Hfwd);
    [unfold len in *; lia..|].
  cbn -[forward_scan backward_scan getitem]. destruct Hfwd as [(-> & Hk1 & Hin & Hmin)|[Hj1 Hno]].
  2:{ assert ((j1 =? len t) = false) as -> by lia.
      assert (∀ b e, i <= b → ¬ is_window s t b e) as Hnone.
      { intros b e ? Hw. apply Hno. apply (is_window_widen i b e); [lia| |done].
        unfold is_window in *; lia. }
      apply IH; [lia..|]. split; [done|split; [intros l ?%Hlt; lia|]].
      intros b e Hw Hb. destruct (decide (b = i)) as [->|]; [by destruct (Hnone i e)|].
      destruct (Hinv b e Hw) as [?|(b' & ? & Hw')]; [lia|by left|].
      by destruct (Hnone b' e). }
  rewrite Z.eqb_refl. simpl in Hin, Hmin.
  destruct (backward_scan_spec (S (length s)) i k1 (len t - 1))
    as (k2 & -> & Hk2 & Hin2 & Hmax); [unfold len in *; lia..| |].
  { replace (Z.to_nat (len t - 1 + 1)) with (length t) by (unfold len; lia).
    by rewrite firstn_all. }
  replace (Z.to_nat (len t - 1 + 1)) with (length t) in * by (unfold len; lia).
  rewrite firstn_all in *. cbn -[forward_scan backward_scan getitem].
  assert (∀ b e, is_window s t b e → i <= b → k1 <= e) as Hend.
  { intros b e Hw ?. destruct (decide (k1 <= e)); [done|]. destruct Hmin.
    apply (is_window_widen i b e); [unfold is_window in *; lia|lia|done]. }
  assert (is_window s t k2 k1) as Hcand by (unfold is_window; repeat split; (lia || done)).
  set (st := if lt_inf (k1 - k2) ml then (Some (k1 - k2), k2 + 1) else (ml, si)).
  assert (outer_inv s t (k2 + 1) st.1 st.2) as Hinv'.
  { subst st. destruct ml as [l|]; simpl in *.
    - specialize (Hlt l eq_refl).
      destruct (Z.ltb_spec (k1 - k2) l); simpl.
      + split; [|split].
        * unfold best_ok. replace (k2 + 1 - 1) with k2 by lia.
          by replace (k2 + (k1 - k2)) with k1 by lia.
        * intros; lia.
        * intros b e Hw Hb. destruct (decide (i <= b)).
          { left. specialize (Hend b e Hw). unfold covered in *. lia. }
          destruct (Hinv b e Hw) as [?|(b' & ? & Hw')]; [lia|left; unfold covered in *; lia|].
          destruct (decide (b' <= k2)); [|right; exists b'; split; [lia|done]].
          left. specialize (Hend b' e Hw'). unfold covered in *. lia.
      + split; [done|split; [intros; simplify_eq; lia|]].
        intros b e Hw Hb. destruct (decide (i <= b)).
        { left. specialize (Hend b e Hw). unfold covered in *. lia. }
        destruct (Hinv b e Hw) as [?|(b' & ? & Hw')]; [lia|by left|].
        destruct (decide (b' <= k2)); [|right; exists b'; split; [lia|done]].
        left. specialize (Hend b' e Hw'). unfold covered in *. lia.
    - split; [|split].
      + unfold best_ok. replace (k2 + 1 - 1) with k2 by lia.
        by replace (k2 + (k1 - k2)) with k1 by lia.
      + intros; lia.
      + intros b e Hw Hb. destruct (decide (i <= b)).
        { left. specialize (Hend b e Hw). unfold covered in *. lia. }
        destruct (Hinv b e Hw) as [?|(b' & ? & Hw')]; [lia|done|].
        destruct (decide (b' <= k2)); [|right; exists b'; split; [lia|done]].
        left. specialize (Hend b' e Hw'). unfold covered in *. lia. }
  destruct st as [ml' si']. apply IH; [lia..|done].
Qed.
End window_aligner.

Lemma is_window_of_app (t l1 w l2 : str) :
  t ≠ [] → t `sublist_of` w →
  is_window (l1 ++ w ++ l2) t (len l1) (len l1 + len w - 1).
Proof.
  intros Hne Hsub. pose proof (sublist_length _ _ Hsub) as Hlen.
  assert (0 < length t)%nat by (destruct t; simpl; [done|lia]).
  unfold is_window. replace (len l1 + len w - 1 + 1) with (len l1 + len w) by lia.
  rewrite seg_of_app. unfold len. rewrite !length_app. repeat split; (lia || done).
Qed.

(** C1. For every raw string [s] and non-empty target [t] such that some
    contiguous substring of [s] contains [t] as an ordered subsequence,
    [min_window_subsequence s t] returns a contiguous substring [w] of [s]
    that contains [t] as an ordered subsequence and is the shortest such
    substring; among the substrings of that minimal length it is the one
    that starts earliest. *)
Theorem min_window_subsequence_shortest (s t : str) :
  t ≠ [] →
  (∃ l1 w l2, s = l1 ++ w ++ l2 ∧ t `sublist_of` w) →
  ∃ l1 w l2,
    utils.min_window_subsequence s t = Ok w ∧
    s = l1 ++ w ++ l2 ∧ t `sublist_of` w ∧
    ∀ l1' w' l2', s = l1' ++ w' ++ l2' → t `sublist_of` w' →
      (length w ≤ length w')%nat ∧
      (length w' = length w → (length l1 ≤ length l1')%nat).
Proof.
  intros Hne (l1 & w & l2 & Hs & Hsub).
  assert (0 < len t) by (unfold len; destruct t; simpl; [done|lia]).
  destruct (outer_loop_spec s t (S (length s)) 0 None (-1))
    as (ml & si & Hrun & Hbest & Hcov); [done|unfold len; lia..| |].
  { split; [done|split; [done|]]. intros b e (? & _) ?. lia. }
  pose proof (is_window_of_app t l1 w l2 Hne Hsub) as Hw. rewrite <- Hs in Hw.
  destruct ml as [l|]; [|by destruct (Hcov _ _ Hw)].
  destruct Hbest as (Hb0 & Hl & He0 & Hsub0).
  set (b0 := si - 1) in *.
  exists (seg s 0 b0), (seg s b0 (b0 + l + 1)), (seg s (b0 + l + 1) (len s)).
  split; [|split; [apply seg_split; lia|split; [done|]]].
  - unfold utils.min_window_subsequence. rewrite Hrun. simpl.
    assert ((si =? -1) = false) as -> by lia.
    rewrite slice_seg by lia. by replace (si + l) with (b0 + l + 1) by lia.
  - intros l1' w' l2' Hs' Hsub'.
    pose proof (is_window_of_app t l1' w' l2' Hne Hsub') as Hw'.
    rewrite <- Hs' in Hw'. destruct (Hcov _ _ Hw') as [Hle Htie].
    pose proof (seg_length s 0 b0). pose proof (seg_length s b0 (b0 + l + 1)).
    unfold len in *. lia.
Qed.

Lemma min_window_subsequence_shortest_witness :
  ∃ l1 w l2,
    utils.min_window_subsequence (py "xxaxbxcxx") (py "abc") = Ok w ∧
    py "xxaxbxcxx" = l1 ++ w ++ l2 ∧ py "abc" `sublist_of` w ∧
    ∀ l1' w' l2', py "xxaxbxcxx" = l1' ++ w' ++ l2' → py "abc" `sublist_of` w' →
      (length w ≤ length w')%nat ∧
      (length w' = length w → (length l1 ≤ length l1')%nat).
Proof.
  apply (min_window_subsequence_shortest (py "xxaxbxcxx") (py "abc")).
  - vm_compute. discriminate.
  - exists (py "xx"), (py "axbxc"), (py "xx"). split; [reflexivity|].
    vm_compute. repeat constructor.
Defined.

(** The two examples of the specification. *)
Example min_window_subsequence_abc :
  utils.min_window_subsequence (py "xxaxbxcxx") (py "abc") = Ok (py "axbxc").
Proof. reflexivity. Qed.

Example min_window_subsequence_answer :
  utils.min_window_subsequence (py "a<b>nswer is here") (py "answerishere")
  = Ok (py "a<b>nswer is here").
Proof. reflexivity. Qed.

(** The aligner never raises on a non-empty target, whether or not a window
    exists. *)
Lemma min_window_subsequence_total (s t : str) :
  t ≠ [] → ∃ w, utils.min_window_subsequence s t = Ok w.
Proof.
  intros Hne.
  assert (0 < len t) by (unfold len; destruct t; simpl; [done|lia]).
  destruct (outer_loop_spec s t (S (length s)) 0 None (-1))
    as (ml & si & Hrun & Hbest & _); [done|unfold len; lia..| |].
  { split; [done|split; [done|]]. intros b e (? & _) ?. lia. }
  unfold utils.min_window_subsequence. rewrite Hrun. simpl.
  destruct ml as [l|]; simpl in Hbest.
  - destruct Hbest as (? & _). assert ((si =? -1) = false) as -> by lia. eauto.
  - subst si. eauto.
Qed.

Lemma min_window_subsequence_nil_nil :
  utils.min_window_subsequence [] [] = Ok [].
Proof. reflexivity. Qed.

(** * The text normalizer ([normalize_str], [normalize_whitespace]) *)

Section normalizer.
Import utils.

Lemma sub_spaces_ws_sim x y :
  ws_sim isspace x y → ∀ in_run, sub_spaces in_run x = sub_spaces in_run y.
Proof.
  induction 1 as [|c x y Hc _ IH|c d x y Hc Hd _ IH|c d x y Hc Hd _ IH
                  |c d x y Hc Hd _ IH]; intros in_run.
  - done.
  - simpl. by rewrite Hc, IH.
  - simpl. rewrite Hc, Hd, (IH true). done.
  - rewrite <- IH. simpl. rewrite Hc, Hd. by destruct in_run.
  - rewrite IH. simpl. rewrite Hc, Hd. by destruct in_run.
Qed.

Lemma sub_spaces_collapsed in_run x :
  collapsed (sub_spaces in_run x) ∧
  (in_run = true → starts_clean (sub_spaces in_run x)).
Proof.
  revert in_run. induction x as [|c x IH]; intros in_run; [done|].
  simpl. destruct (isspace c) eqn:Hc.
  - destruct in_run; [apply IH|]. split; [|done]. simpl.
    split; [|apply IH]. intros _. split; [done|]. by apply IH.
  - simpl. split; [|done]. split; [|apply IH]. by rewrite Hc.
Qed.

Lemma sub_spaces_fixed in_run z :
  collapsed z → (in_run = true → starts_clean z) → sub_spaces in_run z = z.
Proof.
  revert in_run. induction z as [|c z IH]; intros in_run Hcz Hstart; [done|].
  destruct Hcz as [Hc Hz]. simpl. destruct (isspace c) eqn:Hws.
  - destruct (Hc eq_refl) as [-> Hnext].
    destruct in_run; [by specialize (Hstart eq_refl); simpl in *; congruence|].
    by rewrite IH.
  - by rewrite IH.
Qed.

Lemma lstrip_collapsed z : collapsed z → collapsed (lstrip z).
Proof.
  induction z as [|c z IH]; [done|]. intros [Hc Hz]. simpl.
  destruct (isspace c) eqn:Hws; [by apply IH|].
  split; [intros ?; congruence|done].
Qed.

Lemma lstrip_starts_clean z : starts_clean (lstrip z).
Proof.
  induction z as [|c z IH]; [done|]. simpl. by destruct (isspace c) eqn:Hc.
Qed.

Lemma lstrip_fixed z : starts_clean z → lstrip z = z.
Proof. destruct z as [|c z]; [done|]. simpl. by intros ->. Qed.

Lemma rstrip_cons_clean c z :
  isspace c = false → ∃ r, rstrip (c :: z) = c :: r.
Proof. intros Hc. simpl. destruct (rstrip z); rewrite ?Hc; eauto. Qed.

Lemma rstrip_starts_clean z : starts_clean z → starts_clean (rstrip z).
Proof.
  destruct z as [|c z]; [done|]. intros Hc.
  by destruct (rstrip_cons_clean c z Hc) as [r ->].
Qed.

Lemma rstrip_ends_clean z : ends_clean (rstrip z).
Proof.
  induction z as [|c z IH]; [done|]. simpl.
  destruct (rstrip z) as [|d r] eqn:Hr.
  - by destruct (isspace c) eqn:Hc.
  - done.
Qed.

Lemma rstrip_fixed z : ends_clean z → rstrip z = z.
Proof.
  induction z as [|c z IH]; [done|]. destruct z as [|d z].
  - unfold ends_clean. simpl. by intros ->.
  - intros Hend. simpl in *. by rewrite IH.
Qed.

Lemma rstrip_collapsed z : collapsed z → collapsed (rstrip z).
Proof.
  induction z as [|c z IH]; [done|]. intros [Hc Hz]. simpl.
  specialize (IH Hz). destruct (rstrip z) as [|d r] eqn:Hr.
  - destruct (isspace c) eqn:Hws; [done|]. simpl. by rewrite Hws.
  - split; [|done]. intros Hws. destruct (Hc Hws) as [-> Hnext].
    split; [done|]. apply rstrip_starts_clean in Hnext. by rewrite Hr in Hnext.
Qed.

(** The output of [normalize_str] is in normal form. *)
Lemma normalize_str_normal x :
  collapsed (normalize_str x) ∧ starts_clean (normalize_str x) ∧
  ends_clean (normalize_str x).
Proof.
  unfold normalize_str, strip. split_and!.
  - apply rstrip_collapsed, lstrip_collapsed, sub_spaces_collapsed.
  - apply rstrip_starts_clean, lstrip_starts_clean.
  - apply rstrip_ends_clean.
Qed.

Lemma normalize_str_fixed z :
  collapsed z → starts_clean z → ends_clean z → normalize_str z = z.
Proof.
  intros. unfold normalize_str, strip.
  rewrite sub_spaces_fixed, lstrip_fixed, rstrip_fixed; done.
Qed.

(** [isspace] leaves the byte order mark and the Mongolian vowel separator
    out, and [normalize_whitespace] maps them to a space. *)
Example isspace_BOM :
  isspace BOM = false ∧ isspace 0x180e%N = false ∧
  normalize_whitespace [BOM; 0x180e%N] = [SPACE; SPACE].
Proof. done. Qed.

(** C6, as stated, fails: the strings [a<BOM>b] and [a b] differ only in
    the class of one whitespace character of the class the specification
    names, and [normalize_str] keeps them apart; [normalize_whitespace]
    keeps a run of two spaces apart from a single one. *)
Lemma normalizer_not_blind_to_BOM :
  ws_sim spec_whitespace (py "a" ++ [BOM] ++ py "b") (py "a b") ∧
  normalize_str (py "a" ++ [BOM] ++ py "b") = py "a" ++ [BOM] ++ py "b" ∧
  normalize_str (py "a b") = py "a b" ∧
  normalize_str (py "a" ++ [BOM] ++ py "b") ≠ normalize_str (py "a b") ∧
  ws_sim spec_whitespace (py "a  b") (py "a b") ∧
  normalize_whitespace (py "a  b") ≠ normalize_whitespace (py "a b").
Proof.
  split_and!; try done.
  - apply ws_sim_char; [done|]. apply ws_sim_class; [done..|].
    apply ws_sim_char; [done|]. constructor.
  - apply ws_sim_char; [done|]. apply ws_sim_longer_l; [done..|].
    apply ws_sim_class; [done..|]. apply ws_sim_char; [done|]. constructor.
Qed.

(** The words of a text and the gaps between them. *)
Lemma words_and_gaps x :
  blank x ∨
  ∃ lead w0 rest trail,
    blank lead ∧ blank trail ∧ is_word w0 ∧
    Forall (λ p, is_gap p.1 ∧ is_word p.2) rest ∧
    x = lead ++ spelled w0 rest ++ trail.
Proof.
  induction x as [|c x IH]; [left; constructor|].
  destruct (isspace c) eqn:Hc.
  - destruct IH as [Hx|(lead & w0 & rest & trail & Hl & Ht & Hw & Hr & ->)].
    + left. by constructor.
    + right. exists (c :: lead), w0, rest, trail.
      split_and!; [by constructor|done..].
  - right. destruct IH as [Hx|(lead & w0 & rest & trail & Hl & Ht & Hw & Hr & ->)].
    + exists [], [c], [], x. split_and!; [constructor|done| |constructor|done].
      split; [done|]. by constructor.
    + destruct lead as [|d lead].
      * exists [], (c :: w0), rest, trail.
        split_and!; [constructor|done| |done|done].
        destruct Hw as [_ Hw]. split; [done|]. by constructor.
      * exists [], [c], ((d :: lead, w0) :: rest), trail.
        split_and!; [constructor|done| | |].
        -- split; [done|]. by constructor.
        -- constructor; [|done]. by split.
        -- unfold spelled. cbn [map concat fst snd app].
           by rewrite <- !app_assoc.
Qed.

Lemma sub_spaces_blank in_run g : blank g → blank (sub_spaces in_run g).
Proof.
  intros Hg. revert in_run. induction Hg as [|c g Hc _ IH]; intros in_run.
  { constructor. }
  simpl. rewrite Hc. destruct in_run; [apply IH|]. constructor; [done|apply IH].
Qed.

Lemma sub_spaces_gap g : is_gap g → sub_spaces false g = [SPACE].
Proof.
  intros [Hne Hg]. destruct Hg as [|c g Hc Hg]; [done|]. simpl. rewrite Hc.
  f_equal. clear Hne Hc. induction Hg as [|d g Hd _ IH]; [done|].
  simpl. by rewrite Hd.
Qed.

Lemma sub_spaces_word in_run w s :
  is_word w → sub_spaces in_run (w ++ s) = w ++ sub_spaces false s.
Proof.
  intros [Hne Hw]. destruct Hw as [|c w Hc Hw]; [done|]. simpl. rewrite Hc.
  f_equal. clear Hne Hc. induction Hw as [|d w Hd _ IH]; [done|].
  simpl. by rewrite Hd, IH.
Qed.

Lemma sub_spaces_blank_word in_run g w s :
  blank g → is_word w →
  sub_spaces in_run (g ++ w ++ s) = sub_spaces in_run g ++ w ++ sub_spaces false s.
Proof.
  intros Hg Hw. revert in_run. induction Hg as [|c g Hc _ IH]; intros in_run.
  { exact (sub_spaces_word in_run w s Hw). }
  simpl. rewrite Hc. destruct in_run; [apply IH|]. by rewrite IH.
Qed.

Lemma sub_spaces_rest rest trail :
  Forall (λ p, is_gap p.1 ∧ is_word p.2) rest →
  sub_spaces false (concat (map (λ p, p.1 ++ p.2) rest) ++ trail)
  = concat (map (λ p, SPACE :: p.2) rest) ++ sub_spaces false trail.
Proof.
  induction 1 as [|[g w] rest [Hg Hw] _ IH]; [done|].
  cbn [map concat fst snd] in *. rewrite <- !app_assoc.
  rewrite sub_spaces_blank_word by (done || apply Hg).
  rewrite sub_spaces_gap by done. by rewrite IH.
Qed.

Lemma lstrip_blank_app g z : blank g → lstrip (g ++ z) = lstrip z.
Proof. induction 1 as [|c g Hc _ IH]; [done|]. simpl. by rewrite Hc. Qed.

Lemma rstrip_blank g : blank g → rstrip g = [].
Proof.
  induction 1 as [|c g Hc _ IH]; [done|]. simpl. by rewrite IH, Hc.
Qed.

Lemma rstrip_app_blank z g : blank g → rstrip (z ++ g) = rstrip z.
Proof.
  intros Hg. induction z as [|c z IH]; [by apply rstrip_blank|].
  simpl. by rewrite IH.
Qed.

Lemma ends_clean_app a z : z ≠ [] → ends_clean z → ends_clean (a ++ z).
Proof.
  intros Hne. unfold ends_clean. rewrite last_app.
  destruct (last z) eqn:Hlast; [done|]. by apply last_None in Hlast.
Qed.

Lemma is_word_ends_clean w : is_word w → ends_clean w.
Proof.
  intros [_ Hw]. unfold ends_clean. destruct (last w) as [c|] eqn:Hlast; [|done].
  rewrite Forall_forall in Hw. apply Hw.
  rewrite last_lookup in Hlast. by eapply list_elem_of_lookup_2.
Qed.

Lemma spaced_normal w0 rest :
  is_word w0 → Forall (λ p, is_gap p.1 ∧ is_word p.2) rest →
  starts_clean (spaced w0 rest) ∧ ends_clean (spaced w0 rest).
Proof.
  intros Hw0 Hrest. split.
  - destruct Hw0 as [Hne Hw]. unfold spaced.
    destruct Hw as [|c w Hc _]; [done|]. done.
  - revert w0 Hw0. induction Hrest as [|[g w] rest [_ Hw] _ IH]; intros w0 Hw0.
    + unfold spaced. cbn [map concat]. rewrite app_nil_r.
      by apply is_word_ends_clean.
    + unfold spaced. cbn [map concat snd].
      change (w0 ++ (SPACE :: w) ++ ?r) with (w0 ++ [SPACE] ++ w ++ r).
      rewrite (app_assoc w0 [SPACE]). apply ends_clean_app; [|by apply IH].
      destruct Hw as [Hne _]. by destruct w.
Qed.

(** What [normalize_str] makes of a text, from its words and gaps. *)
Lemma normalize_str_spaced lead w0 rest trail :
  blank lead → blank trail → is_word w0 →
  Forall (λ p, is_gap p.1 ∧ is_word p.2) rest →
  normalize_str (lead ++ spelled w0 rest ++ trail) = spaced w0 rest.
Proof.
  intros Hl Ht Hw Hr. unfold normalize_str, strip, spelled.
  rewrite <- !app_assoc. rewrite sub_spaces_blank_word by done.
  rewrite sub_spaces_rest by done.
  rewrite lstrip_blank_app by by apply sub_spaces_blank.
  destruct (spaced_normal w0 rest Hw Hr) as [Hstart Hend].
  rewrite (app_assoc w0).
  change (w0 ++ concat (map (λ p : str * str, SPACE :: p.2) rest))
    with (spaced w0 rest).
  rewrite lstrip_fixed.
  - rewrite rstrip_app_blank by by apply sub_spaces_blank.
    by apply rstrip_fixed.
  - destruct (spaced w0 rest) as [|c z] eqn:Hs; [|exact Hstart].
    unfold spaced in Hs. destruct Hw as [Hne _]. by destruct w0.
Qed.

Lemma normalize_str_blank x : blank x → normalize_str x = [].
Proof.
  intros Hx. unfold normalize_str, strip.
  pose proof (sub_spaces_blank false x Hx) as Hb.
  rewrite <- (app_nil_r (sub_spaces false x)).
  by rewrite lstrip_blank_app.
Qed.

Lemma normalize_whitespace_listed x :
  normalize_whitespace x
  = map (λ c, if bool_decide (c ∈ unicode_whitespace) then SPACE else c) x.
Proof.
  unfold normalize_whitespace. apply map_ext. intros c.
  case_bool_decide as Hc.
  - destruct (existsb (N.eqb c) unicode_whitespace) eqn:He; [done|].
    apply list_elem_of_In in Hc.
    assert (existsb (N.eqb c) unicode_whitespace = true); [|congruence].
    apply existsb_exists. exists c. split; [done|apply N.eqb_refl].
  - destruct (existsb (N.eqb c) unicode_whitespace) eqn:He; [|done].
    apply existsb_exists in He as (d & Hd & ->%N.eqb_eq).
    by apply list_elem_of_In in Hd.
Qed.

(** C6, amended. [normalize_str] is idempotent. It maps two inputs that
    differ only in the run-length or the class of their whitespace
    characters, for the class of [\s] (which leaves out the byte order
    mark and the zero-width characters), to the same output. Its output is
    the text with each whitespace run replaced by a single ASCII space and
    trimmed: a text without a word gives the empty string, and a text made
    of words, gaps between them and whitespace around them gives the same
    words with one space for each gap; so every whitespace character of the
    output is a single space between two other characters. As a function it
    is total. The byte order mark and the Mongolian vowel separator are text
    for [normalize_str]; [normalize_whitespace] turns each listed character,
    these two among them, into one space and keeps every other character,
    so it keeps the length, runs included. *)
Theorem normalize_str_idempotent_whitespace_blind :
  (∀ x, normalize_str (normalize_str x) = normalize_str x) ∧
  (∀ x y, ws_sim isspace x y → normalize_str x = normalize_str y) ∧
  (∀ x, collapsed (normalize_str x) ∧ starts_clean (normalize_str x) ∧
        ends_clean (normalize_str x)) ∧
  (∀ x, (blank x ∧ normalize_str x = []) ∨
        ∃ lead w0 rest trail,
          blank lead ∧ blank trail ∧ is_word w0 ∧
          Forall (λ p, is_gap p.1 ∧ is_word p.2) rest ∧
          x = lead ++ spelled w0 rest ++ trail ∧
          normalize_str x = spaced w0 rest) ∧
  Forall (λ c, isspace c = false ∧ c ∈ unicode_whitespace ∧
               normalize_str [c] = [c] ∧ normalize_whitespace [c] = [SPACE])
    [BOM; 0x180e%N] ∧
  (∀ x, normalize_whitespace x
        = map (λ c, if bool_decide (c ∈ unicode_whitespace) then SPACE else c) x
        ∧ length (normalize_whitespace x) = length x).
Proof.
  split_and!.
  - intros x. destruct (normalize_str_normal x) as (? & ? & ?).
    by apply normalize_str_fixed.
  - intros x y Hsim. unfold normalize_str.
    by rewrite (sub_spaces_ws_sim x y Hsim).
  - apply normalize_str_normal.
  - intros x.
    destruct (words_and_gaps x)
      as [Hx|(lead & w0 & rest & trail & Hl & Ht & Hw & Hr & Hx)].
    + left. split; [done|by apply normalize_str_blank].
    + right. exists lead, w0, rest, trail. split_and!; [done..|].
      rewrite Hx. by apply normalize_str_spaced.
  - repeat constructor; by apply (bool_decide_unpack _).
  - intros x. split; [apply normalize_whitespace_listed|].
    unfold normalize_whitespace. by rewrite length_map.
Qed.

Lemma normalize_str_idempotent_whitespace_blind_witness :
  normalize_str (py "a " ++ [9; 0xa0]%N ++ py "b") = normalize_str (py "a b").
Proof.
  apply (proj1 (proj2 normalize_str_idempotent_whitespace_blind)).
  apply ws_sim_char; [reflexivity|].
  apply ws_sim_longer_l; [reflexivity..|].
  apply ws_sim_longer_l; [reflexivity..|].
  apply ws_sim_class; [reflexivity..|].
  apply ws_sim_char; [reflexivity|]. apply ws_sim_nil.
Defined.

(** A text with whitespace of several kinds around and between its words. *)
Example normalize_str_example :
  normalize_str ([9; 32]%N ++ py "the" ++ [0xa0; 10; 0x3000]%N ++ py "quick"
                 ++ [32]%N ++ py "fox" ++ [13; 10]%N)
  = py "the quick fox".
Proof. reflexivity. Qed.
End normalizer.

(** * The tag injector ([create_highlighted_tags]) and its call *)

Section tag_injector.
Import utils re_kindle.

Lemma head_count_app l1 l2 :
  head_count (l1 ++ l2) = head_count l1 + head_count l2.
Proof. unfold head_count. rewrite filter_app. len_lia. Qed.

Lemma tail_count_app l1 l2 :
  tail_count (l1 ++ l2) = tail_count l1 + tail_count l2.
Proof. unfold tail_count. rewrite filter_app. len_lia. Qed.

Lemma is_content_not_closing part :
  is_content part → startswith part (py "</p>") = false.
Proof.
  intros [_ Hc]. destruct (startswith part (py "</p>")) eqn:Hs; [|done].
  apply startswith_prefix in Hs as [r ->]. done.
Qed.

Lemma is_opening_not_closing part :
  is_opening part → startswith part (py "</p>") = false.
Proof.
  unfold is_opening. intros [r ->]%startswith_prefix. done.
Qed.

(** The insertions recorded for the parts of the blocks after the first
    chunk: one tail before each closing delimiter and one head after each
    opening delimiter. *)
Lemma insertions_of_blocks pre blocks :
  pre ≠ [] →
  Forall (λ b, is_opening b.1 ∧ is_content b.2) blocks →
  let to_insert :=
    concat (imap (λ j, insertion_at (pre ++ block_parts blocks) (length pre + j))
              (block_parts blocks)) in
  head_count to_insert = len blocks ∧ tail_count to_insert = len blocks.
Proof.
  intros Hpre Hblocks. revert pre Hpre.
  induction Hblocks as [|[o c] blocks [Ho Hc] _ IH]; intros pre Hpre; [done|].
  simpl in Ho, Hc. cbn [block_parts]. cbn zeta.
  rewrite !imap_cons. unfold compose. cbn beta. cbn [concat].
  rewrite !head_count_app, !tail_count_app.
  assert (∀ k, (length pre + k =? 0)%nat = false) as Hnz
    by (intros k; destruct pre; [done|]; simpl; lia).
  assert (insertion_at (pre ++ py "</p>" :: o :: c :: block_parts blocks)
            (length pre + 0) (py "</p>")
          = [(Z.of_nat (length pre + 0), HIGHLIGHT_TAIL)]) as ->.
  { unfold insertion_at. by rewrite Hnz. }
  assert (insertion_at (pre ++ py "</p>" :: o :: c :: block_parts blocks)
            (length pre + 1) o
          = [(Z.of_nat (length pre + 1) + 1, HIGHLIGHT_HEAD)]) as ->.
  { unfold insertion_at. rewrite Hnz, (is_opening_not_closing o Ho), Ho.
    replace (length pre + 1 - 1)%nat with (length pre) by lia.
    by rewrite list_lookup_middle. }
  assert (insertion_at (pre ++ py "</p>" :: o :: c :: block_parts blocks)
            (length pre + 2) c = []) as ->.
  { unfold insertion_at. rewrite Hnz, (is_content_not_closing c Hc).
    by rewrite (proj1 Hc). }
  specialize (IH (pre ++ [py "</p>"; o; c])).
  rewrite <- app_assoc in IH. cbn [app] in IH.
  destruct IH as [IHh IHt]; [by destruct pre|].
  rewrite (imap_ext _ (λ j, insertion_at
                              (pre ++ py "</p>" :: o :: c :: block_parts blocks)
                              (length (pre ++ [py "</p>"; o; c]) + j)))
    by (intros j x _; simpl; f_equal; rewrite length_app; simpl; lia).
  rewrite IHh, IHt. unfold head_count, tail_count, len. simpl. lia.
Qed.

Lemma block_parts_last chunk blocks :
  is_content chunk →
  Forall (λ b, is_opening b.1 ∧ is_content b.2) blocks →
  ∃ last_part, last (chunk :: block_parts blocks) = Some last_part ∧
               is_content last_part.
Proof.
  intros Hc Hblocks. revert chunk Hc.
  induction Hblocks as [|[o c] blocks [_ Hc'] _ IH]; intros chunk Hc; [by eexists|].
  cbn [block_parts]. rewrite !last_cons_cons. by apply IH.
Qed.

(** For a window that begins and ends in the text of a block, as many heads
    as tails are recorded: one pair for each block the window touches. *)
Lemma highlight_insertions_balanced chunk blocks :
  is_content chunk →
  Forall (λ b, is_opening b.1 ∧ is_content b.2) blocks →
  ∃ to_insert,
    highlight_insertions (chunk :: block_parts blocks) = Ok to_insert ∧
    head_count to_insert = 1 + len blocks ∧
    tail_count to_insert = 1 + len blocks.
Proof.
  intros Hc Hblocks. unfold highlight_insertions.
  destruct (block_parts_last chunk blocks Hc Hblocks) as (last_part & Hlast & Hl).
  assert (getitem (chunk :: block_parts blocks) (-1) = Ok last_part) as ->.
  { unfold getitem. cbn zeta.
    assert ((-1 <? 0) = true) as -> by done.
    assert ((-1 + len (chunk :: block_parts blocks) <? 0) = false) as ->
      by (apply Z.ltb_ge; len_lia).
    rewrite last_lookup in Hlast.
    replace (Z.to_nat (-1 + len (chunk :: block_parts blocks)))
      with (pred (length (chunk :: block_parts blocks))) by len_lia.
    by rewrite Hlast. }
  cbn [mbind res_bind]. rewrite (proj1 Hl), (proj2 Hl). cbn [orb negb].
  eexists. split; [done|].
  rewrite imap_cons. unfold compose. cbn [concat].
  rewrite !head_count_app, !tail_count_app.
  assert (insertion_at (chunk :: block_parts blocks) 0 chunk
          = [(0, HIGHLIGHT_HEAD)]) as ->.
  { unfold insertion_at. cbn [Nat.eqb].
    by rewrite (proj1 Hc), (is_content_not_closing chunk Hc). }
  destruct (insertions_of_blocks [chunk] blocks) as [Hh Ht]; [done..|].
  cbn zeta in Hh, Ht. cbn [app length] in Hh, Ht.
  rewrite (imap_ext _ (λ j, insertion_at (chunk :: block_parts blocks) (1 + j)))
    by done.
  rewrite Hh, Ht. unfold head_count, tail_count, len. simpl. lia.
Qed.

(** The end-to-end example of the specification: the window spans two
    blocks, and each block gets its own pair of markers. *)
Example create_highlighted_tags_two_blocks :
  create_highlighted_tags
    (mkMatch quick_fox 0 [0; 1] (py "<p>The quick</p><p> fox jumps</p>")
       (py "quick</p><p> fox"))
  = Ok (py "<p>The " ++ HIGHLIGHT_HEAD ++ py "quick" ++ HIGHLIGHT_TAIL
        ++ py "</p><p>" ++ HIGHLIGHT_HEAD ++ py " fox" ++ HIGHLIGHT_TAIL
        ++ py " jumps</p>").
Proof. reflexivity. Qed.

(** C2. The counts of inserted marker-open and marker-close tokens are
    asserted equal by [create_highlighted_tags]; on the match that the
    orchestrator builds for the annotation "quick fox" in a document whose
    second paragraph carries a class attribute, the window ends inside the
    opening tag, two heads and one tail are recorded, and the assertion
    fails. *)
Theorem create_highlighted_tags_unbalanced :
  find_clip_in_spine quick_fox [fox_doc] 0 = Ok (Some quick_fox_match) ∧
  (to_insert ← highlight_insertions
                 (split_raw_html_on_pars (pre_highlight quick_fox_match));
   Ok (head_count to_insert, tail_count to_insert)) = Ok (2, 1) ∧
  create_highlighted_tags quick_fox_match = Raise AssertionError.
Proof. vm_compute. done. Qed.

(** C3. [process_book] calls the tag injector with the keyword argument
    [highlight_color], which [create_highlighted_tags(match)] does not
    accept: the call raises [TypeError] for every match, so the loop over
    a non-empty list of matches raises before any block is replaced. *)
Theorem highlight_call_raises_TypeError :
  (∀ m highlight_color,
     call_create_highlighted_tags m highlight_color = Raise TypeError) ∧
  (∀ replace_with m rest highlight_color,
     apply_highlights (λ m, call_create_highlighted_tags m highlight_color)
       replace_with (m :: rest) = Raise TypeError) ∧
  (∀ replace_with,
     process_book replace_with [jumps] [fox_doc] (py "yellow")
     = Raise TypeError).
Proof. split; [done|split; [done|]]. intros replace_with. vm_compute. done. Qed.
End tag_injector.

(** * Note attachment ([parse_txt_clippings], [parse_html_clippings]) *)

Section note_attachment.
Import utils clip_utils.

Lemma attach_first_none nt rev_clips :
  Forall (λ c, qualifies c nt = false) rev_clips →
  attach_first nt rev_clips = rev_clips.
Proof.
  induction 1 as [|c l Hc _ IH]; simpl; [done|]. by rewrite Hc, IH.
Qed.

Lemma attach_first_app nt l2 c l1 :
  Forall (λ c', qualifies c' nt = false) l2 → qualifies c nt = true →
  attach_first nt (l2 ++ c :: l1) = l2 ++ set_note c (content nt) :: l1.
Proof.
  intros Hl2 Hc. induction Hl2 as [|c' l Hc' _ IH]; simpl.
  - by rewrite Hc.
  - by rewrite Hc', IH.
Qed.

Lemma attach_note_app nt l1 c l2 :
  Forall (λ c', qualifies c' nt = false) l2 → qualifies c nt = true →
  attach_note (l1 ++ c :: l2) nt = l1 ++ set_note c (content nt) :: l2.
Proof.
  intros Hl2 Hc. unfold attach_note.
  rewrite reverse_app, reverse_cons, <- app_assoc. simpl.
  rewrite attach_first_app; [|by apply Forall_reverse|done].
  by rewrite reverse_app, reverse_cons, !reverse_involutive, <- app_assoc.
Qed.

Lemma attach_note_none nt parsed_clips :
  Forall (λ c, qualifies c nt = false) parsed_clips →
  attach_note parsed_clips nt = parsed_clips.
Proof.
  intros. unfold attach_note.
  rewrite attach_first_none by by apply Forall_reverse.
  apply reverse_involutive.
Qed.

Lemma attach_notes_fst parsed_clips log parsed_notes :
  (attach_notes parsed_clips log parsed_notes).1
  = foldl attach_note parsed_clips parsed_notes.
Proof.
  revert parsed_clips log.
  induction parsed_notes as [|nt rest IH]; intros; simpl; [done|apply IH].
Qed.

Lemma attach_notes_snd parsed_clips log parsed_notes :
  (attach_notes parsed_clips log parsed_notes).2
  = log ++ map (λ nt, NoteNotMatched (content nt) (location nt)) parsed_notes.
Proof.
  revert parsed_clips log.
  induction parsed_notes as [|nt rest IH]; intros; simpl.
  - by rewrite app_nil_r.
  - by rewrite IH, <- app_assoc.
Qed.

(** The last element of a list that satisfies a boolean test. *)
Lemma last_such_that {A} (p : A → bool) (l : list A) :
  Exists (λ z, p z = true) l →
  ∃ l1 y l2, l = l1 ++ y :: l2 ∧ p y = true ∧ Forall (λ z, p z = false) l2.
Proof.
  induction l as [|a l IH]; intros Hex; [by apply Exists_nil in Hex|].
  destruct (decide (Exists (λ z, p z = true) l)) as [Hl|Hno].
  - destruct (IH Hl) as (l1 & y & l2 & -> & ? & ?). by exists (a :: l1), y, l2.
  - exists [], a, l. apply Exists_cons in Hex as [Ha|Hl]; [|done].
    split; [done|split; [done|]].
    apply not_Exists_Forall in Hno; [|intros; apply _].
    eapply Forall_impl; [exact Hno|]. simpl. intros z ?. by destruct (p z).
Qed.

(** Attaching a note changes the [note] field of one highlight only, so
    it keeps the list sorted and keeps what qualifies for another note. *)
Lemma attach_note_cases parsed_clips nt :
  attach_note parsed_clips nt = parsed_clips ∨
  ∃ l1 c l2, parsed_clips = l1 ++ c :: l2 ∧
             attach_note parsed_clips nt = l1 ++ set_note c (content nt) :: l2.
Proof.
  destruct (decide (Exists (λ c, qualifies c nt = true) parsed_clips)) as [Hex|Hno].
  - right. destruct (last_such_that (λ c, qualifies c nt) parsed_clips Hex)
      as (l1 & c & l2 & -> & Hc & Hl2).
    exists l1, c, l2. split; [done|]. by apply attach_note_app.
  - left. apply attach_note_none.
    apply not_Exists_Forall in Hno; [|intros; apply _].
    eapply Forall_impl; [exact Hno|]. simpl. intros c ?.
    by destruct (qualifies c nt).
Qed.

Lemma attach_note_sorted parsed_clips nt :
  StronglySorted date_le parsed_clips →
  StronglySorted date_le (attach_note parsed_clips nt).
Proof.
  destruct (attach_note_cases parsed_clips nt) as [->|(l1 & c & l2 & -> & ->)];
    [done|].
  rewrite !StronglySorted_app, !StronglySorted_cons.
  intros (Hcross & Hl1 & Hc & Hl2). split_and!; try done.
  intros x1 x2 Hx1 [->|Hx2]%elem_of_cons.
  - apply (Hcross x1 c Hx1). by left.
  - apply (Hcross x1 x2 Hx1). by right.
Qed.

Lemma attach_note_qualifies parsed_clips nt' nt :
  Exists (λ c, qualifies c nt = true) parsed_clips →
  Exists (λ c, qualifies c nt = true) (attach_note parsed_clips nt').
Proof.
  destruct (attach_note_cases parsed_clips nt') as [->|(l1 & c & l2 & -> & ->)];
    [done|].
  rewrite !Exists_app, !Exists_cons. intros [?|[?|?]]; auto.
Qed.

Lemma foldl_attach_note_invariant parsed_clips notes nt :
  StronglySorted date_le parsed_clips →
  Exists (λ c, qualifies c nt = true) parsed_clips →
  StronglySorted date_le (foldl attach_note parsed_clips notes) ∧
  Exists (λ c, qualifies c nt = true) (foldl attach_note parsed_clips notes).
Proof.
  revert parsed_clips. induction notes as [|nt' rest IH]; intros clips Hs Hq; [done|].
  simpl. apply IH; [by apply attach_note_sorted|by apply attach_note_qualifies].
Qed.

(** C7. The notes are taken in list order, oldest first. When the turn of
    a note comes, and some highlight of the timestamp-ascending list
    qualifies for it (same title, location end equal to the note's
    location), the note is attached to the last qualifying highlight of the
    list: no later highlight qualifies and every earlier one is at most as
    recent. After the turn that highlight has the content of the note as
    its note and is otherwise as before, and the other highlights are as
    they were. *)
Theorem note_attaches_to_most_recent
    (parsed_clips parsed_notes pre post : list Clipping) (nt c0 : Clipping) :
  StronglySorted date_le parsed_clips →
  parsed_notes = pre ++ nt :: post →
  c0 ∈ parsed_clips → qualifies c0 nt = true →
  ∃ l1 c c' l2,
    foldl attach_note parsed_clips pre = l1 ++ c :: l2 ∧
    title c = title nt ∧
    location_last (location c) = location_first (location nt) ∧
    Forall (λ x, qualifies x nt = false) l2 ∧
    Forall (λ x, date_le x c) l1 ∧
    note c' = Some (content nt) ∧
    annotated c' c (content nt) ∧
    (attach_notes parsed_clips [] (pre ++ [nt])).1 = l1 ++ c' :: l2 ∧
    (attach_notes parsed_clips [] parsed_notes).1
    = foldl attach_note (l1 ++ c' :: l2) post.
Proof.
  intros Hsorted -> Hin Hq.
  destruct (foldl_attach_note_invariant parsed_clips pre nt Hsorted)
    as [Hsorted' Hex]; [apply Exists_exists; eauto|].
  destruct (last_such_that (λ c, qualifies c nt) _ Hex)
    as (l1 & c & l2 & Heq & Hc & Hl2).
  exists l1, c, (set_note c (content nt)), l2.
  pose proof Hc as Hc'. unfold qualifies in Hc'.
  apply andb_true_iff in Hc' as [Htitle Hloc]. rewrite Heq in Hsorted'.
  assert (foldl attach_note parsed_clips (pre ++ [nt])
          = l1 ++ set_note c (content nt) :: l2) as Hstep.
  { rewrite foldl_app. simpl. rewrite Heq. by apply attach_note_app. }
  split_and!; [done|by apply str_eqb_eq|lia|done| |done|done| |].
  - apply Forall_forall. intros c' Hc'.
    eapply StronglySorted_app_1_elem_of; [done..|]. by left.
  - by rewrite attach_notes_fst.
  - rewrite attach_notes_fst, <- Hstep, <- foldl_app, <- app_assoc. done.
Qed.

Lemma note_attaches_to_most_recent_witness :
  ∃ l1 c c' l2,
    foldl attach_note [hl_t1; hl_t2] [] = l1 ++ c :: l2 ∧
    title c = title note_t3 ∧
    location_last (location c) = location_first (location note_t3) ∧
    Forall (λ x, qualifies x note_t3 = false) l2 ∧
    Forall (λ x, date_le x c) l1 ∧
    note c' = Some (content note_t3) ∧
    annotated c' c (content note_t3) ∧
    (attach_notes [hl_t1; hl_t2] [] ([] ++ [note_t3])).1 = l1 ++ c' :: l2 ∧
    (attach_notes [hl_t1; hl_t2] [] [note_t3]).1
    = foldl attach_note (l1 ++ c' :: l2) [].
Proof.
  apply (note_attaches_to_most_recent [hl_t1; hl_t2] [note_t3] [] []
           note_t3 hl_t1).
  - repeat constructor; vm_compute; discriminate.
  - reflexivity.
  - by left.
  - reflexivity.
Defined.

(** The example of the specification: the note goes to the highlight with
    timestamp 2 and the one with timestamp 1 is left alone. *)
Example note_attachment_example :
  (attach_notes [hl_t1; hl_t2] [] [note_t3]).1
  = [hl_t1;
     mkClipping (py "Book") highlight (Range 1 5) (Some 2) None
       (Some (py "remember this")) (py "second pass")] ∧
  map note (attach_notes [hl_t1; hl_t2] [] [note_t3]).1
  = [None; Some (py "remember this")] ∧
  map date (attach_notes [hl_t1; hl_t2] [] [note_t3]).1 = [Some 1; Some 2].
Proof. done. Qed.

(** C8. The line that reports a note as unmatched is appended to the log
    once per note, after the inner loop and whatever its outcome: the log
    is the list of all notes, and a note that was attached (here the note of
    the example, attached to the second highlight) is reported as unmatched
    all the same. *)
Theorem attached_note_logged_as_unmatched :
  (∀ parsed_clips log parsed_notes,
     (attach_notes parsed_clips log parsed_notes).2
     = log ++ map (λ nt, NoteNotMatched (content nt) (location nt)) parsed_notes) ∧
  attach_notes [hl_t1; hl_t2] [] [note_t3]
  = ([hl_t1; set_note hl_t2 (content note_t3)],
     [NoteNotMatched (content note_t3) (location note_t3)]).
Proof. split; [apply attach_notes_snd|reflexivity]. Qed.
End note_attachment.

Section html_notes.
Import utils clip_utils.

Lemma type_not_note c : type c ≠ note_ → type c = highlight.
Proof. by destruct (type c). Qed.

Lemma check_ordered_cons a b rest :
  check_ordered (a :: b :: rest)
  = if location_first (location a) <=? location_first (location b)
    then check_ordered (b :: rest) else Raise AssertionError.
Proof. done. Qed.

Lemma check_ordered_spec all_clips :
  (has_decreasing_pair all_clips ∧ check_ordered all_clips = Raise AssertionError)
  ∨ (¬ has_decreasing_pair all_clips ∧ check_ordered all_clips = Ok tt).
Proof.
  induction all_clips as [|a l IH].
  { right. split; [|done]. by intros (i & ? & ? & ? & _). }
  destruct l as [|b rest].
  { right. split; [|done]. intros (i & x & y & _ & Hy & _). by destruct i. }
  rewrite check_ordered_cons.
  destruct (Z.leb_spec (location_first (location a)) (location_first (location b))).
  - destruct IH as [[(i & x & y & ? & ? & ?) ->]|[Hno ->]]; [left|right].
    + split; [|done]. by exists (S i), x, y.
    + split; [|done]. intros ([|i] & x & y & Hx & Hy & Hlt).
      * simplify_eq/=. lia.
      * apply Hno. by exists i, x, y.
  - left. split; [|done]. by exists 0%nat, a, b.
Qed.

Lemma attach_to_previous_middle pre c d suf :
  attach_to_previous (pre ++ c :: d :: suf) (S (length pre))
  = (pre ++ [set_note c (content d)]) ++ d :: suf.
Proof.
  unfold attach_to_previous.
  replace (S (length pre) - 1)%nat with (length pre) by lia.
  rewrite (lookup_app_r pre) by lia.
  replace (S (length pre) - length pre)%nat with 1%nat by lia. simpl.
  rewrite list_lookup_middle by done.
  rewrite insert_app_r_alt, Nat.sub_diag by lia. simpl. by rewrite <- app_assoc.
Qed.

(** The loop over [note_indices], started on the clipping [c] at the end of
    the part already passed, gives every clipping the content of the note
    that follows it. *)
Lemma attach_to_previous_fold suf pre c :
  foldl attach_to_previous (pre ++ c :: suf)
    (note_indices_from (S (length pre)) suf)
  = pre ++ with_following_notes (c :: suf).
Proof.
  revert pre c. induction suf as [|d suf IH]; intros pre c; [done|].
  cbn [note_indices_from with_following_notes].
  destruct (decide (type d = note_)) as [Hd|Hd].
  - cbn [foldl]. rewrite attach_to_previous_middle.
    specialize (IH (pre ++ [set_note c (content d)]) d).
    rewrite length_app, Nat.add_1_r in IH. rewrite IH.
    by rewrite <- app_assoc.
  - specialize (IH (pre ++ [c]) d).
    rewrite length_app, Nat.add_1_r, <- !app_assoc in IH. apply IH.
Qed.

Lemma note_indices_from_ge ix all_clips i :
  i ∈ note_indices_from ix all_clips → (ix ≤ i)%nat.
Proof.
  revert ix. induction all_clips as [|c l IH]; intros ix; simpl.
  { by intros ?%elem_of_nil. }
  destruct (decide (type c = note_)).
  - intros [->|?%IH]%elem_of_cons; lia.
  - intros ?%IH. lia.
Qed.

Lemma filter_all {A} (P : A → Prop) `{!∀ x, Decision (P x)} (l : list A) :
  Forall P l → filter P l = l.
Proof.
  induction 1 as [|x l Hx _ IH]; [done|]. by rewrite filter_cons_True, IH.
Qed.

Lemma note_indices_from_nil ix all_clips :
  note_indices_from ix all_clips = [] →
  Forall (λ c, type c = highlight) all_clips.
Proof.
  revert ix. induction all_clips as [|c l IH]; intros ix; simpl; [done|].
  destruct (decide (type c = note_)); [done|]. intros Hnil.
  constructor; [by apply type_not_note|by eapply IH].
Qed.

Lemma with_following_notes_highlights all_clips :
  Forall (λ c, type c = highlight) all_clips →
  with_following_notes all_clips = all_clips.
Proof.
  induction 1 as [|c l Hc Hl IH]; [done|]. simpl. rewrite IH.
  destruct Hl as [|d l' Hd _]; [done|].
  destruct (decide (type d = note_)); [congruence|done].
Qed.

Lemma with_following_notes_lookup all_clips i c :
  all_clips !! i = Some c →
  ∃ c', with_following_notes all_clips !! i = Some c' ∧
        takes_next_note (all_clips !! S i) c c'.
Proof.
  revert i. induction all_clips as [|a l IH]; intros i Hi; [done|].
  destruct i as [|i].
  - simpl in Hi. injection Hi as ->. cbn [with_following_notes lookup list_lookup].
    destruct l as [|d l]; [by exists c|]. cbn [lookup list_lookup].
    unfold takes_next_note. destruct (decide (type d = note_)); eauto.
    eexists. split; [done|]. by repeat split.
  - destruct (IH i Hi) as (c' & Hc' & Hnext). exists c'. split; [|done].
    by destruct l.
Qed.

Lemma with_following_notes_length all_clips :
  length (with_following_notes all_clips) = length all_clips.
Proof. induction all_clips as [|a l IH]; [done|]. simpl. by rewrite IH. Qed.

(** C10. [parse_html_clippings] rejects with an assertion failure a
    sequence with a consecutive pair of decreasing starting locations and
    a sequence whose first clipping is a note. Otherwise it works on the
    clippings in place: a clipping with a note next to it in document order
    gets the content of that note as its note, whatever the two are, and
    nothing else changes; the highlights of the list so obtained are
    returned, in order. So every highlight that a note follows comes back
    with the content of that note as its note. *)
Theorem parse_html_clippings_spec (all_clips : list Clipping) :
  (has_decreasing_pair all_clips →
   parse_html_clippings all_clips = Raise AssertionError) ∧
  ((∃ c rest, all_clips = c :: rest ∧ type c = note_) →
   parse_html_clippings all_clips = Raise AssertionError) ∧
  (¬ has_decreasing_pair all_clips →
   ¬ (∃ c rest, all_clips = c :: rest ∧ type c = note_) →
   ∃ attached parsed_clips,
     parse_html_clippings all_clips = Ok parsed_clips ∧
     length attached = length all_clips ∧
     (∀ i c, all_clips !! i = Some c →
        ∃ c', attached !! i = Some c' ∧
              takes_next_note (all_clips !! S i) c c') ∧
     parsed_clips = filter (λ c, type c = highlight) attached ∧
     Forall (λ c, type c = highlight) parsed_clips ∧
     (∀ i c d, all_clips !! i = Some c → all_clips !! S i = Some d →
        type c = highlight → type d = note_ →
        ∃ c', c' ∈ parsed_clips ∧ note c' = Some (content d) ∧
              annotated c' c (content d))).
Proof.
  unfold parse_html_clippings.
  destruct (check_ordered_spec all_clips) as [[Hdec ->]|[Hord ->]].
  { split_and!; done. }
  split; [done|]. cbn [mbind res_bind]. split.
  - intros (c & rest & -> & Hc). simpl. by rewrite decide_True by done.
  - intros _ Hfirst.
    assert (parse_html_result :
      match note_indices_from 0 all_clips with
      | [] => Ok all_clips
      | first :: _ =>
          if (0 <? first)%nat
          then Ok (filter (λ c, type c = highlight)
                     (foldl attach_to_previous all_clips
                        (note_indices_from 0 all_clips)))
          else Raise AssertionError
      end = Ok (filter (λ c, type c = highlight)
                  (with_following_notes all_clips))).
    { destruct all_clips as [|c rest]; [done|].
      assert (type c ≠ note_) as Hc by (intros ?; apply Hfirst; eauto).
      cbn [note_indices_from]. rewrite decide_False by done.
      pose proof (attach_to_previous_fold rest [] c) as Hfold. simpl in Hfold.
      destruct (note_indices_from 1 rest) as [|first others] eqn:Hidx.
      - apply note_indices_from_nil in Hidx.
        assert (Forall (λ c, type c = highlight) (c :: rest)) as Hall
          by (constructor; [by apply type_not_note|done]).
        rewrite with_following_notes_highlights by done.
        f_equal. symmetry. by apply filter_all.
      - assert (0 < first)%nat as Hpos.
        { apply (note_indices_from_ge 1 rest). rewrite Hidx. by left. }
        assert ((0 <? first)%nat = true) as -> by by apply Nat.ltb_lt.
        by rewrite Hfold. }
    rewrite parse_html_result.
    exists (with_following_notes all_clips). eexists.
    split; [done|]. split; [apply with_following_notes_length|].
    split; [apply with_following_notes_lookup|]. split; [done|]. split.
    + apply Forall_forall. by intros c [? _]%list_elem_of_filter.
    + intros i c d Hc Hd Hty Hnote.
      destruct (with_following_notes_lookup all_clips i c Hc) as (c' & Hc' & Hnext).
      rewrite Hd in Hnext. unfold takes_next_note in Hnext.
      rewrite decide_True in Hnext by done.
      exists c'. split; [|split; [apply Hnext|done]].
      apply list_elem_of_filter. split.
      * destruct Hnext as (_ & _ & Htype & _). congruence.
      * by eapply list_elem_of_lookup_2.
Qed.

Lemma parse_html_clippings_spec_witness :
  parse_html_clippings [hl_t2; note_t3; hl_t1] = Raise AssertionError ∧
  parse_html_clippings [note_t3; hl_t1] = Raise AssertionError ∧
  ∃ attached parsed_clips,
    parse_html_clippings [hl_t1; hl_t2; note_t3] = Ok parsed_clips ∧
    length attached = 3%nat ∧
    (∀ i c, [hl_t1; hl_t2; note_t3] !! i = Some c →
       ∃ c', attached !! i = Some c' ∧
             takes_next_note ([hl_t1; hl_t2; note_t3] !! S i) c c') ∧
    parsed_clips = filter (λ c, type c = highlight) attached ∧
    Forall (λ c, type c = highlight) parsed_clips ∧
    (∀ i c d, [hl_t1; hl_t2; note_t3] !! i = Some c →
       [hl_t1; hl_t2; note_t3] !! S i = Some d →
       type c = highlight → type d = note_ →
       ∃ c', c' ∈ parsed_clips ∧ note c' = Some (content d) ∧
             annotated c' c (content d)).
Proof.
  split; [|split].
  - apply (proj1 (parse_html_clippings_spec [hl_t2; note_t3; hl_t1])).
    exists 1%nat, note_t3, hl_t1. split; [reflexivity|]. split; [reflexivity|].
    vm_compute. reflexivity.
  - apply (proj1 (proj2 (parse_html_clippings_spec [note_t3; hl_t1]))).
    exists note_t3, [hl_t1]. split; reflexivity.
  - apply (proj2 (proj2 (parse_html_clippings_spec [hl_t1; hl_t2; note_t3]))).
    + intros (i & a & b & Ha & Hb & Hlt).
      destruct i as [|[|[|i]]]; simpl in Ha, Hb; simplify_eq; vm_compute in Hlt;
        discriminate.
    + intros (c & rest & Heq & Hc). by simplify_eq.
Defined.

(** In document order the note lands on the clipping just before it. *)
Example parse_html_clippings_example :
  parse_html_clippings [hl_t1; hl_t2; note_t3]
  = Ok [hl_t1;
        mkClipping (py "Book") highlight (Range 1 5) (Some 2) None
          (Some (py "remember this")) (py "second pass")] ∧
  map note <$> parse_html_clippings [hl_t1; hl_t2; note_t3]
  = Ok [None; Some (py "remember this")].
Proof. done. Qed.
End html_notes.

(** * The span locator ([find_text_spans]) *)

Section span_locator.
Import utils re_kindle.
Implicit Types (combined text q : str) (full_texts : list str).
Implicit Types (spans : list (Z * Z)).

(** ** [str.find] *)

Lemma find_from_spec s sub pos :
  0 <= pos →
  (find_from s sub pos = -1 ∧ ¬ is_infix sub s) ∨
  (∃ l1 l2, s = l1 ++ sub ++ l2 ∧ find_from s sub pos = pos + len l1).
Proof.
  revert pos. induction s as [|c s IH]; intros pos Hpos.
  - cbn [find_from]. destruct (startswith [] sub) eqn:Hstart.
    + apply startswith_prefix in Hstart as [r Hr]. right. exists [], r.
      split; [done|]. unfold len. simpl. lia.
    + left. split; [done|]. intros (l1 & l2 & Heq).
      symmetry in Heq. apply app_eq_nil in Heq as [-> [-> ->]%app_eq_nil].
      done.
  - cbn [find_from]. destruct (startswith (c :: s) sub) eqn:Hstart.
    + apply startswith_prefix in Hstart as [r Hr]. right. exists [], r.
      split; [done|]. unfold len. simpl. lia.
    + destruct (IH (pos + 1)) as [[-> Hno]|(l1 & l2 & -> & ->)]; [lia|left|right].
      * split; [done|]. intros ([|c' l1] & l2 & Heq).
        -- assert (startswith (c :: s) sub = true); [|congruence].
           apply startswith_prefix. by exists l2.
        -- apply Hno. exists l1, l2. by simplify_eq/=.
      * exists (c :: l1), l2. split; [done|]. unfold len. simpl. lia.
Qed.

Lemma find_spec s sub :
  (find s sub = -1 ∧ ¬ is_infix sub s) ∨
  (∃ l1 l2, s = l1 ++ sub ++ l2 ∧ find s sub = len l1).
Proof.
  unfold find. destruct (find_from_spec s sub 0) as [?|(l1 & l2 & ? & ->)];
    [done|by left|right; eauto].
Qed.

(** ** The layout computed by [build_spans] *)

Lemma build_spans_layout full_texts combined spans :
  build_spans full_texts combined spans
  = (glue combined full_texts, spans ++ layout (len combined) full_texts).
Proof.
  revert combined spans.
  induction full_texts as [|text rest IH]; intros combined spans.
  { simpl. by rewrite app_nil_r. }
  cbn [build_spans glue layout]. rewrite IH, <- app_assoc. f_equal.
  - destruct combined; [done|]. by rewrite <- app_assoc.
  - f_equal. destruct combined as [|c combined]; [done|].
    assert ((len (c :: combined) =? 0) = false) as ->
      by (unfold len; simpl; lia).
    unfold len. rewrite !length_app. simpl.
    replace (Z.of_nat (S (length combined + 1)))
      with (Z.of_nat (S (length combined)) + 1) by lia.
    replace (Z.of_nat (S (length combined + 1 + length text)))
      with (Z.of_nat (S (length combined)) + 1 + Z.of_nat (length text)) by lia.
    done.
Qed.

Lemma glue_one_length combined text :
  len (glue_one combined text) = start_after combined + len text.
Proof.
  unfold start_after, len. destruct combined; simpl; [lia|].
  rewrite length_app. simpl. lia.
Qed.

Lemma layout_cons combined text rest :
  layout (len combined) (text :: rest)
  = (start_after combined, len (glue_one combined text))
    :: layout (len (glue_one combined text)) rest.
Proof. cbn [layout]. by rewrite glue_one_length. Qed.

Lemma glue_one_split combined text :
  ∃ sep, glue_one combined text = combined ++ sep ++ text ∧
         len (combined ++ sep) = start_after combined ∧
         (sep = [] ∨ (sep = [SPACE] ∧ combined ≠ [])).
Proof.
  destruct combined as [|c combined].
  - exists []. by split_and!; [|unfold start_after|left].
  - exists [SPACE]. split_and!; [done| |by right].
    unfold start_after, len. rewrite length_app. simpl. lia.
Qed.

Lemma glue_prefix combined full_texts :
  ∃ rest, glue combined full_texts = combined ++ rest.
Proof.
  revert combined. induction full_texts as [|text texts IH]; intros combined.
  { exists []. by rewrite app_nil_r. }
  simpl. destruct (IH (glue_one combined text)) as [r ->].
  destruct (glue_one_split combined text) as (sep & -> & _).
  rewrite <- !app_assoc. eauto.
Qed.

Lemma start_after_ge combined : len combined <= start_after combined.
Proof. unfold start_after. destruct (Z.eqb_spec (len combined) 0); lia. Qed.

Lemma layout_chain combined full_texts :
  chain (len combined) (layout (len combined) full_texts).
Proof.
  revert combined. induction full_texts as [|text rest IH]; intros combined.
  { done. }
  rewrite layout_cons. cbn [chain]. split_and!; [apply start_after_ge| |done].
  rewrite glue_one_length. unfold len. lia.
Qed.

Lemma chain_weaken lb lb' spans : lb' <= lb → chain lb spans → chain lb' spans.
Proof. destruct spans as [|[a b] rest]; [done|]. simpl. intros ? (? & ? & ?). split_and!; (lia || done). Qed.

Lemma chain_lookup lb spans j a b :
  chain lb spans → spans !! j = Some (a, b) → lb <= a ∧ a <= b.
Proof.
  revert lb j. induction spans as [|[a0 b0] rest IH]; intros lb j Hc Hj; [done|].
  destruct Hc as (? & ? & Hrest). destruct j as [|j]; simplify_eq/=; [lia|].
  destruct (IH b0 j Hrest Hj). lia.
Qed.

Lemma chain_mono lb spans j k a b a' b' :
  chain lb spans → (j < k)%nat →
  spans !! j = Some (a, b) → spans !! k = Some (a', b') → b <= a'.
Proof.
  revert lb j k. induction spans as [|[a0 b0] rest IH]; intros lb j k Hc Hjk Hj Hk; [done|].
  destruct Hc as (? & ? & Hrest). destruct k as [|k]; [lia|].
  destruct j as [|j]; simplify_eq/=.
  - by destruct (chain_lookup _ _ _ _ _ Hrest Hk).
  - eapply (IH b0 j k); [done|lia|done..].
Qed.

Lemma layout_le combined full_texts j a b :
  layout (len combined) full_texts !! j = Some (a, b) →
  b <= len (glue combined full_texts).
Proof.
  revert combined j. induction full_texts as [|text rest IH]; intros combined j; [done|].
  rewrite layout_cons. destruct j as [|j]; simpl.
  - intros [= <- <-]. destruct (glue_prefix (glue_one combined text) rest) as [r ->].
    unfold len. rewrite length_app. lia.
  - apply IH.
Qed.

(** Each range holds the text of its block. *)
Lemma layout_text combined full_texts j a b :
  layout (len combined) full_texts !! j = Some (a, b) →
  full_texts !! j = Some (seg (glue combined full_texts) a b).
Proof.
  revert combined j. induction full_texts as [|text rest IH]; intros combined j; [done|].
  rewrite layout_cons. destruct j as [|j]; simpl; [|apply IH].
  intros [= <- <-]. f_equal.
  destruct (glue_prefix (glue_one combined text) rest) as [r ->].
  rewrite glue_one_length.
  destruct (glue_one_split combined text) as (sep & -> & <- & _).
  rewrite !app_assoc, <- (app_assoc _ text r). by rewrite seg_of_app.
Qed.

Lemma lookup_Z_app_l {A} (l r : list A) (p : Z) :
  0 <= p < len l → (l ++ r) !! Z.to_nat p = l !! Z.to_nat p.
Proof. intros. apply lookup_app_l. unfold len in *. lia. Qed.

Lemma lookup_Z_app_r {A} (l r : list A) (p : Z) :
  len l <= p → (l ++ r) !! Z.to_nat p = r !! Z.to_nat (p - len l).
Proof.
  intros. unfold len in *. rewrite lookup_app_r by lia. f_equal. lia.
Qed.

(** A position of the combined text that does not hold a space lies in
    the range of some block. *)
Lemma layout_covers combined full_texts p x :
  len combined <= p →
  glue combined full_texts !! Z.to_nat p = Some x → x ≠ SPACE →
  ∃ j a b, layout (len combined) full_texts !! j = Some (a, b) ∧ a <= p < b.
Proof.
  revert combined. induction full_texts as [|text rest IH]; intros combined Hp Hx Hne.
  { simpl in Hx. apply lookup_lt_Some in Hx. unfold len in *. lia. }
  rewrite layout_cons. cbn [glue] in Hx.
  destruct (decide (p < len (glue_one combined text))) as [Hlt|Hge].
  - exists 0%nat, (start_after combined), (len (glue_one combined text)).
    split; [done|]. split; [|done].
    destruct (decide (start_after combined <= p)); [done|]. exfalso.
    destruct (glue_prefix (glue_one combined text) rest) as [r Hr].
    rewrite Hr, lookup_Z_app_l in Hx by len_lia.
    destruct (glue_one_split combined text) as (sep & Heq & Hlen & [->|[-> _]]).
    { rewrite app_nil_r in Hlen. lia. }
    rewrite Heq in Hx. rewrite lookup_Z_app_r in Hx by done.
    unfold len in Hlen. rewrite length_app in Hlen. simpl in Hlen.
    replace (Z.to_nat (p - len combined)) with 0%nat in Hx by (unfold len; lia).
    simpl in Hx. congruence.
  - destruct (IH (glue_one combined text)) as (j & a & b & Hj & Hab); [lia|done..|].
    by exists (S j), a, b.
Qed.

(** An empty range strictly inside the combined text has a separating
    space on each side. *)
Lemma layout_empty_block combined full_texts j a :
  layout (len combined) full_texts !! j = Some (a, a) →
  0 < a < len (glue combined full_texts) →
  glue combined full_texts !! Z.to_nat (a - 1) = Some SPACE ∧
  glue combined full_texts !! Z.to_nat a = Some SPACE.
Proof.
  revert combined j. induction full_texts as [|text rest IH]; intros combined j; [done|].
  rewrite layout_cons. destruct j as [|j]; cbn [glue]; [|apply IH].
  intros [= Hstart Hend] Ha. rewrite <- Hstart in Hend.
  destruct (glue_one_split combined text) as (sep & Heq & Hlen & Hsep).
  destruct Hsep as [->|[-> Hne]].
  { rewrite app_nil_r in Hlen. unfold start_after in *.
    destruct (Z.eqb_spec (len combined) 0); lia. }
  assert (text = []) as ->.
  { apply (f_equal len) in Heq. unfold len in *. rewrite !length_app in *.
    destruct text; [done|]. simpl in *. lia. }
  rewrite app_nil_r in Heq.
  destruct rest as [|text' rest]; [cbn [glue] in Ha; lia|].
  cbn [glue]. destruct (glue_prefix (glue_one (glue_one combined []) text') rest) as [r ->].
  rewrite Heq. assert (glue_one (combined ++ [SPACE]) text' = (combined ++ [SPACE]) ++ [SPACE] ++ text') as ->.
  { unfold glue_one. by destruct combined. }
  unfold len in *. rewrite length_app in Hlen. simpl in Hlen.
  split.
  - rewrite <- !app_assoc. rewrite lookup_app_r by lia.
    by replace (Z.to_nat (a - 1) - length combined)%nat with 0%nat by lia.
  - rewrite <- (app_assoc _ _ r), lookup_app_r by (rewrite length_app; simpl; lia).
    rewrite length_app. simpl.
    by replace (Z.to_nat a - (length combined + 1))%nat with 0%nat by lia.
Qed.

Lemma collapsed_no_double_space q i :
  collapsed q → q !! i = Some SPACE → q !! S i = Some SPACE → False.
Proof.
  revert i. induction q as [|c q IH]; intros i Hq Hi HSi; [done|].
  destruct Hq as [Hc Hq]. destruct i as [|i]; simpl in *; [|by apply (IH i)].
  simplify_eq. destruct (Hc eq_refl) as [_ Hnext].
  destruct q; simplify_eq/=.
Qed.

Lemma glue_one_nonempty combined text :
  combined ≠ [] → glue_one combined text = combined ++ [SPACE] ++ text.
Proof. by destruct combined. Qed.

(** From a block that ends at a positive position on, consecutive blocks
    are joined by single spaces. *)
Lemma layout_join_from full_texts (c1 u : str) k a' b' :
  c1 ++ u ≠ [] →
  layout (len (c1 ++ u)) full_texts !! k = Some (a', b') →
  seg (glue (c1 ++ u) full_texts) (len c1) b'
  = join [SPACE] (u :: take (S k) full_texts).
Proof.
  revert u k. induction full_texts as [|text rest IH]; intros u k Hne; [done|].
  rewrite layout_cons. cbn [glue]. rewrite glue_one_nonempty by done.
  rewrite <- (app_assoc c1 u). destruct k as [|k]; simpl lookup.
  - intros [= _ <-].
    destruct (glue_prefix (c1 ++ u ++ [SPACE] ++ text) rest) as [r ->].
    rewrite <- (app_assoc c1). cbn [take join].
    apply seg_of_app_eq; [done|len_lia].
  - intros Hk. rewrite (IH (u ++ [SPACE] ++ text) k); [|by destruct c1, u|done].
    destruct rest as [|text' rest]; [done|].
    cbn [take join]. by rewrite <- !app_assoc.
Qed.

Lemma layout_join combined full_texts j k a b a' b' :
  layout (len combined) full_texts !! j = Some (a, b) →
  layout (len combined) full_texts !! (j + k)%nat = Some (a', b') →
  0 < b →
  seg (glue combined full_texts) a b'
  = join [SPACE] (take (S k) (drop j full_texts)).
Proof.
  revert combined j. induction full_texts as [|text rest IH]; intros combined j; [done|].
  destruct j as [|j]; [|rewrite layout_cons; apply IH].
  intros Hj Hk Hb. destruct k as [|k].
  - change (0 + 0)%nat with 0%nat in Hk. rewrite Hj in Hk. injection Hk as <- <-.
    apply layout_text in Hj. simpl in Hj. injection Hj as Hj. simpl. by rewrite <- Hj.
  - rewrite layout_cons in Hj, Hk. simpl in Hj, Hk. injection Hj as <- <-.
    destruct (glue_one_split combined text) as (sep & Heq & Hlen & _).
    cbn [glue drop]. rewrite Heq, app_assoc in *. rewrite <- Hlen.
    apply (layout_join_from rest (combined ++ sep) text k a' b'); [|done].
    intros Hnil. rewrite Hnil in Hb. done.
Qed.

(** ** The loop that collects the matched indices *)

Lemma map_seq_shift (i : Z) lo n :
  map (λ j, i + Z.of_nat j) (seq (S lo) n)
  = map (λ j, i + 1 + Z.of_nat j) (seq lo n).
Proof.
  rewrite <- List.seq_shift, List.map_map. apply List.map_ext. intros; lia.
Qed.

(** Once past the blocks that end before the match, the loop takes blocks
    until the first one that starts after it. *)
Lemma matched_take_phase spans lb i sp ep :
  chain lb spans → sp < lb →
  ∃ n, matched_indices_from spans i sp ep
       = map (λ j, i + Z.of_nat j) (seq 0 n) ∧
       (n ≤ length spans)%nat ∧
       ∀ j a b, spans !! j = Some (a, b) → ((j < n)%nat ↔ a < ep).
Proof.
  revert lb i. induction spans as [|[a b] rest IH]; intros lb i Hc Hsp.
  { exists 0%nat. by split. }
  destruct Hc as (? & ? & Hrest). cbn [matched_indices_from].
  assert ((b <=? sp) = false) as -> by lia.
  destruct (Z.leb_spec ep a).
  - exists 0%nat. split; [done|]. split; [lia|]. intros j a' b' Hj. split; [lia|].
    destruct j as [|j]; simplify_eq/=; [lia|].
    destruct (chain_lookup _ _ _ _ _ Hrest Hj). lia.
  - destruct (IH b (i + 1) Hrest) as (n & -> & Hle & Hn); [lia|].
    exists (S n). split; [|split; [simpl; lia|]].
    + cbn [seq map]. rewrite map_seq_shift. f_equal. lia.
    + intros j a' b' Hj. destruct j as [|j]; simplify_eq/=; [lia|].
      rewrite <- (Hn j a' b' Hj). lia.
Qed.

Lemma matched_indices_spec spans lb i sp ep :
  chain lb spans →
  ∃ lo n, matched_indices_from spans i sp ep
          = map (λ j, i + Z.of_nat j) (seq lo n) ∧
          (lo + n ≤ length spans)%nat ∧
          ∀ j a b, spans !! j = Some (a, b) →
            ((lo ≤ j < lo + n)%nat ↔ sp < b ∧ a < ep).
Proof.
  revert lb i. induction spans as [|[a b] rest IH]; intros lb i Hc.
  { exists 0%nat, 0%nat. by split. }
  destruct Hc as (? & ? & Hrest). cbn [matched_indices_from].
  destruct (Z.leb_spec b sp).
  { destruct (IH b (i + 1) Hrest) as (lo & n & -> & Hle & Hn).
    exists (S lo), n. split; [by rewrite map_seq_shift|]. split; [simpl; lia|].
    intros j a' b' Hj. destruct j as [|j]; simplify_eq/=; [lia|].
    rewrite <- (Hn j a' b' Hj). lia. }
  destruct (Z.leb_spec ep a).
  { exists 0%nat, 0%nat. split; [done|]. split; [simpl; lia|].
    intros j a' b' Hj. split; [lia|].
    destruct j as [|j]; simplify_eq/=; [lia|].
    destruct (chain_lookup _ _ _ _ _ Hrest Hj). lia. }
  destruct (matched_take_phase rest b (i + 1) sp ep Hrest) as (n & -> & Hle & Hn); [lia|].
  exists 0%nat, (S n). split; [|split; [simpl; lia|]].
  - cbn [seq map]. rewrite map_seq_shift. f_equal. lia.
  - intros j a' b' Hj. destruct j as [|j]; simplify_eq/=; [lia|].
    destruct (chain_lookup _ _ _ _ _ Hrest Hj).
    pose proof (Hn j a' b' Hj). lia.
Qed.

(** ** The combined text and the texts joined by single spaces *)

Lemma glue_nonempty combined full_texts :
  combined ≠ [] →
  glue combined full_texts
  = combined ++ concat (map (cons SPACE) full_texts).
Proof.
  revert combined. induction full_texts as [|text rest IH]; intros combined Hne.
  { simpl. by rewrite app_nil_r. }
  cbn [glue]. rewrite glue_one_nonempty by done.
  rewrite IH by (by destruct combined). simpl. by rewrite <- !app_assoc.
Qed.

Lemma join_cons text full_texts :
  join [SPACE] (text :: full_texts)
  = text ++ concat (map (cons SPACE) full_texts).
Proof.
  revert text. induction full_texts as [|text' rest IH]; intros text.
  { simpl. by rewrite app_nil_r. }
  change (join [SPACE] (text :: text' :: rest))
    with (text ++ [SPACE] ++ join [SPACE] (text' :: rest)).
  by rewrite IH.
Qed.

(** The combined text is the joined text without the spaces that the
    leading empty blocks would bring. *)
Lemma join_glue full_texts :
  ∃ k, join [SPACE] full_texts = replicate k SPACE ++ glue [] full_texts.
Proof.
  induction full_texts as [|text rest IH]; [by exists 0%nat|].
  destruct text as [|c text].
  - rewrite join_cons. cbn [glue glue_one app].
    destruct rest as [|text' rest']; [by exists 0%nat|].
    destruct IH as [k IH]. exists (S k).
    cbn [map concat replicate app]. by rewrite <- join_cons, IH.
  - exists 0%nat. rewrite join_cons. cbn [glue glue_one].
    by rewrite glue_nonempty.
Qed.

Lemma is_infix_skip_spaces q k s :
  q ≠ [] → starts_clean q →
  is_infix q (replicate k SPACE ++ s) ↔ is_infix q s.
Proof.
  intros Hne Hq. split.
  - induction k as [|k IH]; [done|]. intros ([|c l1] & l2 & Heq); simpl in Heq.
    + destruct q as [|c q]; [done|]. simplify_eq/=.
    + apply IH. exists l1, l2. by simplify_eq/=.
  - intros (l1 & l2 & ->). exists (replicate k SPACE ++ l1), l2.
    by rewrite <- app_assoc.
Qed.

Lemma seg_app {A} (s : list A) a c b :
  0 <= a <= c → c <= b → seg s a b = seg s a c ++ seg s c b.
Proof.
  intros. unfold seg.
  replace (Z.to_nat c) with (Z.to_nat a + Z.to_nat (c - a))%nat by lia.
  rewrite <- drop_drop, take_take_drop. f_equal; lia.
Qed.

Lemma is_infix_seg (s : str) a b c d :
  0 <= a <= c → c <= d → d <= b →
  is_infix (seg s c d) (seg s a b).
Proof.
  intros. exists (seg s a c), (seg s d b).
  rewrite (seg_app s a c b), (seg_app s c d b) by lia. done.
Qed.

Lemma length_layout pos full_texts :
  length (layout pos full_texts) = length full_texts.
Proof.
  revert pos. induction full_texts as [|text rest IH]; intros pos; [done|].
  simpl. by rewrite IH.
Qed.

Lemma lookup_infix (l1 q l2 : str) p :
  len l1 <= p < len l1 + len q →
  (l1 ++ q ++ l2) !! Z.to_nat p = q !! Z.to_nat (p - len l1).
Proof.
  intros. rewrite lookup_Z_app_r by lia. apply lookup_Z_app_l. lia.
Qed.

Lemma starts_clean_head q :
  q ≠ [] → starts_clean q → ∃ x, q !! 0%nat = Some x ∧ x ≠ SPACE.
Proof.
  destruct q as [|x q]; [done|]. intros _ Hx. exists x. split; [done|].
  intros ->. done.
Qed.

Lemma ends_clean_last q :
  q ≠ [] → ends_clean q →
  ∃ x, q !! Z.to_nat (len q - 1) = Some x ∧ x ≠ SPACE.
Proof.
  intros Hne Hq. unfold ends_clean in Hq. rewrite last_lookup in Hq.
  replace (Z.to_nat (len q - 1)) with (pred (length q)) by (unfold len; lia).
  destruct (q !! pred (length q)) as [x|] eqn:Hx.
  - exists x. split; [done|]. intros ->. done.
  - apply lookup_ge_None in Hx. destruct q; [done|]. simpl in Hx. lia.
Qed.

(** C5, amended. For a query whose normalized text [q] is not empty:
    when [q] does not occur in the blocks' normalized texts joined by single
    spaces, [find_text_spans] returns not-found; when it occurs, the result
    is a non-empty run of consecutive block indices in ascending order,
    made of exactly the blocks whose ranges share a position with the
    interval of the first occurrence of [q] in the combined text, and [q]
    occurs in the texts of these blocks joined by single spaces. *)
Theorem find_text_spans_spec (elements : list Tag) (query : str) :
  let q := normalize_str query in
  let full_texts := map (λ el, normalize_str (tag_text el)) elements in
  let combined := (build_spans full_texts [] []).1 in
  let spans := (build_spans full_texts [] []).2 in
  q ≠ [] →
  (¬ is_infix q (join [SPACE] full_texts) →
   find_text_spans elements query = None) ∧
  (is_infix q (join [SPACE] full_texts) →
   ∃ (lo n : nat) (start_pos : Z),
     find_text_spans elements query = Some (map Z.of_nat (seq lo (S n))) ∧
     (lo + S n ≤ length elements)%nat ∧
     start_pos = find combined q ∧ 0 <= start_pos ∧
     seg combined start_pos (start_pos + len q) = q ∧
     length spans = length elements ∧
     (∀ j a b, spans !! j = Some (a, b) →
        full_texts !! j = Some (seg combined a b) ∧
        ((lo ≤ j ≤ lo + n)%nat ↔
         overlap a b start_pos (start_pos + len q))) ∧
     is_infix q (join [SPACE] (take (S n) (drop lo full_texts)))).
Proof.
  intros q full_texts combined spans Hne.
  destruct (normalize_str_normal query) as (Hcol & Hstart & Hend).
  fold q in Hcol, Hstart, Hend.
  assert (is_infix q (join [SPACE] full_texts) ↔ is_infix q combined) as Hinfix.
  { destruct (join_glue full_texts) as [k ->]. subst combined.
    rewrite build_spans_layout. by apply is_infix_skip_spaces. }
  unfold find_text_spans. fold q full_texts.
  subst combined spans. rewrite build_spans_layout in *. cbn [fst snd app] in *.
  change (len (@nil char)) with 0 in *.
  set (combined := glue [] full_texts) in *.
  set (spans := layout 0 full_texts) in *.
  destruct (find_spec combined q) as [[-> Hno]|(l1 & l2 & Hcomb & Hfind)].
  { split; [done|]. by intros ?%Hinfix. }
  split; [intros Hnot; destruct Hnot; apply Hinfix; by exists l1, l2|]. intros _.
  rewrite Hfind. set (sp := len l1) in *. set (ep := sp + len q).
  assert (0 <= sp) by (subst sp; unfold len; lia).
  assert (0 < len q) by (unfold len; destruct q; simpl; [done|lia]).
  assert (ep <= len combined) by (rewrite Hcomb; subst ep sp; len_lia).
  assert ((sp =? -1) = false) as -> by lia.
  assert (chain 0 spans) as Hchain by apply (layout_chain [] full_texts).
  assert (seg combined sp ep = q) as Hseg
    by (rewrite Hcomb; by apply seg_of_app_eq).
  assert (∀ p, sp <= p < ep →
            combined !! Z.to_nat p = q !! Z.to_nat (p - sp)) as Hlook.
  { intros p Hp. rewrite Hcomb. by apply lookup_infix. }
  destruct (matched_indices_spec spans 0 0 sp ep Hchain)
    as (lo & n0 & Hm & Hle & Hchar).
  (* the block that holds the first character, and the one that holds the last *)
  destruct (starts_clean_head q Hne Hstart) as (x & Hx & Hxne).
  destruct (layout_covers [] full_texts sp x) as (j1 & a1 & b1 & Hj1 & Hab1);
    [unfold len; simpl; lia| |done|].
  { fold combined. rewrite Hlook by lia. by rewrite Z.sub_diag. }
  destruct (ends_clean_last q Hne Hend) as (y & Hy & Hyne).
  destruct (layout_covers [] full_texts (ep - 1) y) as (j2 & a2 & b2 & Hj2 & Hab2);
    [unfold len; simpl; lia| |done|].
  { fold combined. rewrite Hlook by lia. rewrite <- Hy. f_equal. lia. }
  change (len (@nil char)) with 0 in *. fold spans in Hj1, Hj2.
  pose proof (proj2 (Hchar j1 a1 b1 Hj1)) as Hin1.
  pose proof (proj2 (Hchar j2 a2 b2 Hj2)) as Hin2.
  destruct n0 as [|n]; [lia|].
  exists lo, n, sp.
  assert (length spans = length elements) as Hlen.
  { subst spans full_texts. by rewrite length_layout, length_map. }
  destruct (lookup_lt_is_Some_2 spans lo) as [[alo blo] Hlo]; [lia|].
  destruct (lookup_lt_is_Some_2 spans (lo + n)%nat) as [[ahi bhi] Hhi]; [lia|].
  pose proof (proj1 (Hchar lo alo blo Hlo)) as Hclo.
  pose proof (proj1 (Hchar (lo + n)%nat ahi bhi Hhi)) as Hchi.
  assert (j1 = lo) as ->.
  { destruct (decide (j1 = lo)); [done|].
    pose proof (λ H, chain_mono 0 spans lo j1 alo blo a1 b1 Hchain H Hlo Hj1). lia. }
  assert (j2 = (lo + n)%nat) as ->.
  { destruct (decide (j2 = (lo + n)%nat)); [done|].
    pose proof (λ H, chain_mono 0 spans j2 (lo + n) a2 b2 ahi bhi Hchain H Hj2 Hhi). lia. }
  assert (alo = a1 ∧ blo = b1) as [-> ->]
    by (rewrite Hlo in Hj1; by injection Hj1).
  assert (ahi = a2 ∧ bhi = b2) as [-> ->]
    by (rewrite Hhi in Hj2; by injection Hj2).
  split_and!; try done.
  - by rewrite Hm.
  - lia.
  - intros j a b Hj. split; [by apply (layout_text [] full_texts)|].
    destruct (chain_lookup _ _ _ _ _ Hchain Hj) as [Ha Hab].
    pose proof (Hchar j a b Hj) as Hjchar. unfold overlap. split.
    + intros Hin. assert (sp < b ∧ a < ep) as [? ?] by (apply Hjchar; lia).
      destruct (decide (a < b)); [exists (Z.max a sp); lia|].
      assert (b = a) as -> by lia. exfalso.
      destruct (layout_empty_block [] full_texts j a Hj) as [Hs1 Hs2];
        [fold combined; lia|]. fold combined in Hs1, Hs2.
      rewrite Hlook in Hs1, Hs2 by lia.
      apply (collapsed_no_double_space q (Z.to_nat (a - 1 - sp))); [done..|].
      by replace (S (Z.to_nat (a - 1 - sp))) with (Z.to_nat (a - sp)) by lia.
    + intros (p & ? & ?). assert (lo ≤ j < lo + S n)%nat; [|lia].
      apply Hjchar. subst ep. lia.
  - destruct (chain_lookup _ _ _ _ _ Hchain Hj1) as [? ?].
    rewrite <- (layout_join [] full_texts lo n a1 b1 a2 b2); [|done..|lia].
    fold combined. rewrite <- Hseg. apply is_infix_seg; lia.
Qed.

Lemma find_text_spans_spec_witness :
  let elements := [fox_par_1; fox_par_2] in
  let q := normalize_str (py "quick  fox ") in
  let full_texts := map (λ el, normalize_str (tag_text el)) elements in
  let combined := (build_spans full_texts [] []).1 in
  let spans := (build_spans full_texts [] []).2 in
  find_text_spans elements (py "slow fox") = None ∧
  ∃ (lo n : nat) (start_pos : Z),
    find_text_spans elements (py "quick  fox ")
    = Some (map Z.of_nat (seq lo (S n))) ∧
    (lo + S n ≤ length elements)%nat ∧
    start_pos = find combined q ∧ 0 <= start_pos ∧
    seg combined start_pos (start_pos + len q) = q ∧
    length spans = length elements ∧
    (∀ j a b, spans !! j = Some (a, b) →
       full_texts !! j = Some (seg combined a b) ∧
       ((lo ≤ j ≤ lo + n)%nat ↔
        overlap a b start_pos (start_pos + len q))) ∧
    is_infix q (join [SPACE] (take (S n) (drop lo full_texts))).
Proof.
  intros elements q full_texts combined spans. split.
  - apply (find_text_spans_spec elements (py "slow fox")).
    + vm_compute. discriminate.
    + destruct (find_spec
                  (join [SPACE] (map (λ el, normalize_str (tag_text el)) elements))
                  (normalize_str (py "slow fox")))
        as [[_ Hno]|(l1 & l2 & _ & Hfind)]; [exact Hno|].
      assert (find (join [SPACE]
                      (map (λ el, normalize_str (tag_text el)) elements))
                (normalize_str (py "slow fox")) = -1) as Hnone by reflexivity.
      rewrite Hnone in Hfind. unfold len in Hfind. lia.
  - apply (find_text_spans_spec elements (py "quick  fox ")).
    + vm_compute. discriminate.
    + exists (py "The "), (py " jumps"). reflexivity.
Defined.

(** On the two-paragraph document the query spans both blocks. *)
Example find_text_spans_quick_fox :
  find_text_spans [fox_par_1; fox_par_2] (py "quick fox") = Some [0; 1].
Proof. reflexivity. Qed.

(** C5, as stated, fails on the empty query: it is a normalized string
    and occurs in every text, and the result is the empty list of blocks
    (a clipping with empty content can come from the markup export, whose
    parser does not filter it out). *)
Lemma find_text_spans_empty_query :
  normalize_str [] = [] ∧
  is_infix [] (join [SPACE]
                 (map (λ el, normalize_str (tag_text el)) [fox_par_1; fox_par_2])) ∧
  find_text_spans [fox_par_1; fox_par_2] [] = Some [].
Proof.
  split; [done|]. split; [|done]. eexists [], _. reflexivity.
Qed.
End span_locator.

(** * The orchestrator ([find_clip_in_spine], [find_matches], [process_book]) *)

Section orchestrator.
Import utils re_kindle.
Implicit Types (c : Clipping) (spine items : list Item) (s q : str).

Lemma split_go_space_concat s acc :
  concat (split_go [SPACE] s 0 acc)
  = reverse acc ++ filter (λ x, x ≠ SPACE) s.
Proof.
  revert acc. induction s as [|x s IH]; intros acc.
  { simpl. by rewrite !app_nil_r. }
  cbn [split_go startswith length]. destruct (N.eqb_spec SPACE x) as [<-|Hne].
  - cbn [andb Nat.sub concat]. rewrite IH. simpl.
    by rewrite filter_cons_False by (by intros ?).
  - cbn [andb]. rewrite IH, reverse_cons, <- app_assoc.
    by rewrite filter_cons_True by done.
Qed.

Lemma remove_spaces_filter s : remove_spaces s = filter (λ x, x ≠ SPACE) s.
Proof. unfold remove_spaces. by rewrite split_go_space_concat. Qed.

Lemma sub_spaces_run_all_space s :
  Forall (λ x, x = SPACE) s → sub_spaces true s = [].
Proof. induction 1 as [|x l -> _ IH]; [done|]. simpl. apply IH. Qed.

Lemma normalize_str_all_space s :
  Forall (λ x, x = SPACE) s → normalize_str s = [].
Proof.
  intros Hs. unfold normalize_str. destruct Hs as [|x s -> Hs]; [done|].
  simpl. by rewrite sub_spaces_run_all_space.
Qed.

Lemma remove_spaces_nil s : remove_spaces s = [] → normalize_str s = [].
Proof.
  rewrite remove_spaces_filter. intros Hnil. apply normalize_str_all_space.
  apply Forall_forall. intros x Hx.
  destruct (decide (x = SPACE)) as [|Hne]; [done|].
  assert (x ∈ filter (λ x, x ≠ SPACE) s) as Hin by by apply list_elem_of_filter.
  rewrite Hnil in Hin. by apply elem_of_nil in Hin.
Qed.

Lemma find_nil s : find s [] = 0.
Proof. unfold find. by destruct s. Qed.

(** The indices returned by the span locator are consecutive positions of
    the block list, and there are none for an empty normalized query. *)
Lemma find_text_spans_range (elements : list Tag) (query : str) matched :
  find_text_spans elements query = Some matched →
  ∃ lo n, matched = map Z.of_nat (seq lo n) ∧
          (lo + n ≤ length elements)%nat ∧
          (normalize_str query = [] → n = 0%nat).
Proof.
  unfold find_text_spans. rewrite build_spans_layout. cbn [app].
  change (len (@nil char)) with 0.
  set (full_texts := map _ elements). set (q := normalize_str query).
  set (combined := glue [] full_texts). set (spans := layout 0 full_texts).
  destruct (Z.eqb_spec (find combined q) (-1)) as [|Hfound]; [done|].
  intros [= <-].
  assert (chain 0 spans) as Hchain by apply (layout_chain [] full_texts).
  destruct (matched_indices_spec spans 0 0 (find combined q)
              (find combined q + len q) Hchain) as (lo & n & Hm & Hle & Hchar).
  assert (length spans = length elements) as Hlen
    by (subst spans full_texts; by rewrite length_layout, length_map).
  exists lo, n. split_and!; [by rewrite Hm|lia|].
  intros Hq. rewrite Hq, find_nil in Hchar.
  destruct n as [|n]; [done|].
  destruct (lookup_lt_is_Some_2 spans lo) as [[a b] Hlo]; [lia|].
  destruct (chain_lookup _ _ _ _ _ Hchain Hlo).
  assert (0 < b ∧ a < 0 + len (@nil char)) as [_ ?] by (apply (Hchar lo); [done|lia]).
  unfold len in *. simpl in *. lia.
Qed.

Lemma mapM_getitem_range (pars : list Tag) lo n :
  (lo + n ≤ length pars)%nat →
  mapM (λ i, tag_str <$> getitem pars i) (map Z.of_nat (seq lo n))
  = Ok (map tag_str (take n (drop lo pars))).
Proof.
  revert lo. induction n as [|n IH]; intros lo Hle; [done|].
  cbn [seq map mapM]. rewrite IH by lia.
  destruct (getitem_Ok pars (Z.of_nat lo)) as (x & -> & Hx); [unfold len; lia|].
  rewrite Nat2Z.id in Hx. cbn.
  rewrite (drop_S _ _ _ Hx). done.
Qed.

(** The body of the loop of [find_clip_in_spine] on a document that passes
    the test: it never raises, it gives nothing exactly when the span
    locator does, and otherwise it builds the match from the located blocks
    and the window of the aligner. *)
Lemma find_clip_loop_hit c item post offset start_from :
  passes c item →
  ∃ r, find_clip_loop c (remove_spaces (content c)) (item :: post) offset start_from
       = Ok r ∧
    match find_text_spans (find_all_p item) (content c) with
    | None => r = None
    | Some matched =>
        ∃ lo n all_tag pre,
          r = Some (mkMatch c (start_from + offset) matched all_tag pre) ∧
          matched = map Z.of_nat (seq lo n) ∧
          (lo + n ≤ length (find_all_p item))%nat ∧
          all_tag = normalize_whitespace
                      (concat (map tag_str (take n (drop lo (find_all_p item))))) ∧
          min_window_subsequence all_tag (remove_spaces (content c)) = Ok pre
    end.
Proof.
  unfold passes. intros Hpass. cbn [find_clip_loop]. rewrite Hpass.
  destruct (find_text_spans (find_all_p item) (content c)) as [matched|] eqn:Hspans;
    [|by exists None].
  destruct (find_text_spans_range _ _ _ Hspans) as (lo & n & -> & Hle & Hempty).
  rewrite mapM_getitem_range by done. cbn [mbind res_bind].
  set (all_tag := normalize_whitespace _).
  assert (∃ pre, min_window_subsequence all_tag (remove_spaces (content c)) = Ok pre)
    as [pre Hpre].
  { destruct (remove_spaces (content c)) as [|x t] eqn:Hns.
    - pose proof (Hempty (remove_spaces_nil _ Hns)) as Hn. subst all_tag.
      rewrite Hn. by exists [].
    - by apply min_window_subsequence_total. }
  rewrite Hpre. eexists. split; [done|]. by exists lo, n, all_tag, pre.
Qed.

Lemma find_clip_loop_skip c nospace_clip pre rest offset start_from :
  Forall (λ item, ¬ passes c item) pre → nospace_clip = remove_spaces (content c) →
  find_clip_loop c nospace_clip (pre ++ rest) offset start_from
  = find_clip_loop c nospace_clip rest (offset + len pre) start_from.
Proof.
  intros Hpre ->. revert offset. induction Hpre as [|item pre Hitem _ IH]; intros offset.
  { simpl. f_equal. unfold len. simpl. lia. }
  cbn [app find_clip_loop]. unfold passes in Hitem.
  destruct (contains _ _); [done|]. rewrite IH. f_equal. len_lia.
Qed.

Lemma slice_all {A} (l : list A) : slice l 0 (len l) = l.
Proof.
  unfold slice, clamp_index, len. simpl.
  destruct (Z.ltb_spec (Z.of_nat (length l)) 0); [lia|].
  replace (0 `max` (Z.of_nat (length l) `min` 0)) with 0 by lia.
  replace (0 `max` (Z.of_nat (length l) `min` Z.of_nat (length l)))
    with (Z.of_nat (length l)) by lia.
  rewrite Z.sub_0_r, Nat2Z.id. simpl. apply firstn_all.
Qed.





(** When the aligner finds no window the match is built all the same,
    with an empty window, on which the tag injector raises. *)
Example find_matches_empty_window :
  find_matches [clip_lt] [doc_lt]
  = Ok ([mkMatch clip_lt 0 [0] (py "<p>a &lt; b</p>") []],
        [Found (py "a < b") (py "ch1.xhtml")]) ∧
  create_highlighted_tags (mkMatch clip_lt 0 [0] (py "<p>a &lt; b</p>") [])
  = Raise ValueError.
Proof. vm_compute. done. Qed.



(** ** The batch ([process_book]) *)





End orchestrator.

(** * Further properties of utils.py *)

Section whitespace_table.
Import utils.

Lemma existsb_eqb_elem_of (c : char) (l : list char) :
  existsb (N.eqb c) l = true ↔ c ∈ l.
Proof.
  rewrite existsb_exists. split.
  - intros (x & Hx & ->%N.eqb_eq). by apply list_elem_of_In.
  - intros Hc. exists c. split; [by apply list_elem_of_In|apply N.eqb_refl].
Qed.

Lemma space_if_listed_not_listed c : space_if_listed c ∉ unicode_whitespace.
Proof.
  unfold space_if_listed.
  destruct (existsb (N.eqb c) unicode_whitespace) eqn:Hc.
  - intros Hin%existsb_eqb_elem_of. by vm_compute in Hin.
  - intros Hin%existsb_eqb_elem_of. congruence.
Qed.

Lemma spec_whitespace_isspace c : spec_whitespace c = isspace (space_if_listed c).
Proof.
  unfold spec_whitespace, space_if_listed.
  destruct (existsb (N.eqb c) unicode_whitespace).
  - by rewrite orb_true_r.
  - by rewrite orb_false_r.
Qed.

Lemma normalize_whitespace_map s :
  normalize_whitespace s = map space_if_listed s.
Proof. done. Qed.

Lemma normalize_whitespace_ws_sim x y :
  ws_sim spec_whitespace x y →
  ws_sim isspace (normalize_whitespace x) (normalize_whitespace y).
Proof.
  change (normalize_whitespace x) with (map space_if_listed x).
  change (normalize_whitespace y) with (map space_if_listed y).
  induction 1 as [|c x y Hc _ IH|c d x y Hc Hd _ IH|c d x y Hc Hd _ IH
                 |c d x y Hc Hd _ IH]; cbn [map] in *;
    rewrite ?spec_whitespace_isspace in *.
  - constructor.
  - assert (space_if_listed c = c) as Heq.
    { unfold space_if_listed in *.
      destruct (existsb (N.eqb c) unicode_whitespace); [done|done]. }
    rewrite Heq in *. by apply ws_sim_char.
  - by apply ws_sim_class.
  - by apply ws_sim_longer_l.
  - by apply ws_sim_longer_r.
Qed.

(** X1. [normalize_whitespace] works character by character: a listed
    character becomes one ASCII space and any other character stays, so the
    length is kept, no listed character is left, and a second pass changes
    nothing. *)
Theorem normalize_whitespace_pointwise (s : str) :
  length (normalize_whitespace s) = length s ∧
  (∀ i c, s !! i = Some c →
     normalize_whitespace s !! i
     = Some (if bool_decide (c ∈ unicode_whitespace) then SPACE else c)) ∧
  Forall (λ c, c ∉ unicode_whitespace) (normalize_whitespace s) ∧
  normalize_whitespace (normalize_whitespace s) = normalize_whitespace s.
Proof.
  change (normalize_whitespace (normalize_whitespace s))
    with (map space_if_listed (map space_if_listed s)).
  change (normalize_whitespace s) with (map space_if_listed s). split_and!.
  - by rewrite length_map.
  - intros i c Hi. rewrite list_lookup_fmap, Hi. cbn. f_equal.
    unfold space_if_listed. case_bool_decide as Hc.
    + apply existsb_eqb_elem_of in Hc. by rewrite Hc.
    + destruct (existsb (N.eqb c) unicode_whitespace) eqn:He; [|done].
      by apply existsb_eqb_elem_of in He.
  - apply Forall_forall. intros c (c' & -> & _)%list_elem_of_fmap.
    apply space_if_listed_not_listed.
  - rewrite <- list_fmap_compose. apply list_fmap_ext. intros _ c _. cbn.
    pose proof (space_if_listed_not_listed c) as Hc.
    unfold space_if_listed at 1.
    destruct (existsb (N.eqb (space_if_listed c)) unicode_whitespace) eqn:He; [|done].
    by apply existsb_eqb_elem_of in He.
Qed.

(** X2. Taken together the two normalizers are blind to the whole class of
    the characters either of them treats, the byte order mark and the
    Mongolian vowel separator included: two strings that differ only in the
    run-length or the class of such characters have the same image under
    [normalize_whitespace] followed by [normalize_str]. *)
Theorem normalizers_composed_whitespace_blind (x y : str) :
  ws_sim spec_whitespace x y →
  normalize_str (normalize_whitespace x) = normalize_str (normalize_whitespace y).
Proof.
  intros Hsim%normalize_whitespace_ws_sim. unfold normalize_str.
  by rewrite (sub_spaces_ws_sim _ _ Hsim).
Qed.

Lemma normalizers_composed_whitespace_blind_witness :
  normalize_str (normalize_whitespace (py "a" ++ [BOM; 0x180e%N; 9%N] ++ py "b"))
  = normalize_str (normalize_whitespace (py "a b")).
Proof.
  apply normalizers_composed_whitespace_blind.
  apply ws_sim_char; [done|].
  apply ws_sim_longer_l; [done..|]. apply ws_sim_longer_l; [done..|].
  apply ws_sim_class; [done..|]. apply ws_sim_char; [done|]. constructor.
Defined.
End whitespace_table.

Section aligner_edges.
Import utils.
Implicit Types (s t w : str).

Lemma seg_sublist_whole {A} (l : list A) a b : seg l a b `sublist_of` l.
Proof.
  unfold seg. etrans; [apply sublist_take|apply sublist_drop].
Qed.

Lemma is_window_whole s t :
  t ≠ [] → t `sublist_of` s → is_window s t 0 (len s - 1).
Proof.
  intros Hne Hsub. pose proof (sublist_length _ _ Hsub) as Hlen.
  assert (0 < length t)%nat by (destruct t; simpl; [done|lia]).
  unfold is_window. replace (len s - 1 + 1) with (len s) by lia.
  rewrite seg_full by lia. unfold len. split_and!; (lia || done).
Qed.

Lemma is_window_sublist s t b e : is_window s t b e → t `sublist_of` s.
Proof. intros (_ & _ & _ & Hsub). etrans; [done|apply seg_sublist_whole]. Qed.

(** The two outcomes of the aligner on a non-empty target: no window and
    the empty string, or a window of minimal length. *)
Lemma min_window_subsequence_cases s t :
  t ≠ [] →
  (min_window_subsequence s t = Ok [] ∧ ∀ b e, ¬ is_window s t b e) ∨
  (∃ b l, min_window_subsequence s t = Ok (seg s b (b + l + 1)) ∧
          is_window s t b (b + l) ∧
          ∀ b' e', is_window s t b' e' →
            l <= e' - b' ∧ (e' - b' = l → b <= b')).
Proof.
  intros Hne.
  assert (0 < len t) by (unfold len; destruct t; simpl; [done|lia]).
  destruct (outer_loop_spec s t (S (length s)) 0 None (-1))
    as (ml & si & Hrun & Hbest & Hcov); [done|unfold len; lia..| |].
  { split; [done|split; [done|]]. intros b e (? & _) ?. lia. }
  unfold min_window_subsequence. rewrite Hrun. cbn [mbind res_bind].
  destruct ml as [l|]; cbn [best_ok] in Hbest.
  - right. exists (si - 1), l. pose proof Hbest as (? & ? & ? & _).
    assert ((si =? -1) = false) as -> by lia.
    rewrite slice_seg by lia. replace (si - 1 + l + 1) with (si + l) by lia.
    split_and!; [done..|]. intros b' e' Hw. apply (Hcov _ _ Hw).
  - left. subst si. split; [done|]. intros b e Hw. apply (Hcov _ _ Hw).
Qed.

Lemma is_window_nonempty s t b e : is_window s t b e → seg s b (e + 1) ≠ [].
Proof.
  intros (? & ? & ? & _) Hnil. pose proof (seg_length s b (e + 1)) as Hlen.
  rewrite Hnil in Hlen. unfold len in *. simpl in *. lia.
Qed.

Lemma is_window_drop_last s t b e x y t' :
  s !! Z.to_nat e = Some x → t = t' ++ [y] → x ≠ y →
  is_window s t b e → is_window s t b (e - 1).
Proof.
  intros Hx -> Hne (Hb & Hbe & He & Hsub).
  rewrite (seg_snoc s b e x) in Hsub by (lia || done).
  apply sublist_snoc_ne in Hsub; [|done].
  assert (b < e).
  { destruct (decide (b < e)); [done|]. rewrite seg_nil in Hsub by lia.
    apply sublist_nil_r in Hsub. by destruct t'. }
  unfold is_window. replace (e - 1 + 1) with e by lia. split_and!; (lia || done).
Qed.

(** X3. On a non-empty target the aligner always returns, and it returns the
    empty string exactly when the text does not contain the target as an
    ordered subsequence. *)
Theorem min_window_subsequence_empty_iff s t :
  t ≠ [] →
  (∃ w, min_window_subsequence s t = Ok w) ∧
  (min_window_subsequence s t = Ok [] ↔ ¬ t `sublist_of` s).
Proof.
  intros Hne. destruct (min_window_subsequence_cases s t Hne)
    as [[Hrun Hnone]|(b & l & Hrun & Hw & _)]; rewrite Hrun.
  - split; [by eexists|]. split; [|done]. intros _ Hsub.
    by apply (Hnone 0 (len s - 1)), is_window_whole.
  - split; [by eexists|]. split.
    + intros [= Hnil]. by destruct (is_window_nonempty _ _ _ _ Hw).
    + intros []. by eapply is_window_sublist.
Qed.

Lemma min_window_subsequence_empty_iff_witness :
  (∃ w, min_window_subsequence (py "a &lt; b") (py "a<b") = Ok w) ∧
  (min_window_subsequence (py "a &lt; b") (py "a<b") = Ok []
   ↔ ¬ py "a<b" `sublist_of` py "a &lt; b").
Proof. by apply min_window_subsequence_empty_iff. Defined.

(** X4. An empty target with a non-empty text raises [IndexError] (the
    lookup [t[0]]); with an empty text the loop is not entered and the
    result is the empty string. *)
Theorem min_window_subsequence_empty_target s :
  min_window_subsequence s []
  = match s with [] => Ok [] | _ :: _ => Raise IndexError end ∧
  ∀ t, min_window_subsequence [] t = Ok [].
Proof. split; [by destruct s|done]. Qed.

(** X5. A window returned for a non-empty target begins with the first
    character of the target and ends with its last character. *)
Theorem min_window_subsequence_ends s t w :
  t ≠ [] → min_window_subsequence s t = Ok w → w ≠ [] →
  head w = head t ∧ last w = last t.
Proof.
  intros Hne Hrun Hw. destruct (min_window_subsequence_cases s t Hne)
    as [[Hrun' _]|(b & l & Hrun' & Hwin & Hmin)]; rewrite Hrun' in Hrun;
    simplify_eq.
  pose proof Hwin as (Hb & Hbl & Hl & Hsub). split.
  - destruct (lookup_lt_is_Some_2 s (Z.to_nat b)) as [x Hx]; [unfold len in *; lia|].
    rewrite (seg_cons s b (b + l + 1) x) by (lia || done).
    destruct t as [|y t']; [done|]. cbn [head]. f_equal.
    destruct (decide (x = y)) as [|Hxy]; [done|].
    assert (is_window s (y :: t') (b + 1) (b + l)) as Hshift
      by (by eapply is_window_shift).
    apply Hmin in Hshift. lia.
  - destruct (lookup_lt_is_Some_2 s (Z.to_nat (b + l))) as [x Hx];
      [unfold len in *; lia|].
    rewrite (seg_snoc s b (b + l) x) by (lia || done).
    destruct (exists_last Hne) as (t' & y & ->).
    rewrite !last_snoc. f_equal.
    destruct (decide (x = y)) as [|Hxy]; [done|].
    assert (is_window s (t' ++ [y]) b (b + l - 1)) as Hshift
      by (by eapply is_window_drop_last).
    apply Hmin in Hshift. lia.
Qed.

Lemma min_window_subsequence_ends_witness :
  head (py "axbxc") = head (py "abc") ∧ last (py "axbxc") = last (py "abc").
Proof.
  by apply (min_window_subsequence_ends (py "xxaxbxcxx") (py "abc") (py "axbxc")).
Defined.
End aligner_edges.

Section paragraph_splitter.
Import utils.
Implicit Types (s html acc text d : str).

Lemma index_gt_Some r k :
  index_gt r = Some k →
  ∃ attrs r', r = attrs ++ GT :: r' ∧ length attrs = k ∧ GT ∉ attrs.
Proof.
  revert k. induction r as [|c r IH]; intros k; [done|]. cbn [index_gt].
  destruct (N.eqb_spec c 62) as [->|Hc].
  - intros [= <-]. exists [], r. split_and!; [done..|]. apply not_elem_of_nil.
  - destruct (index_gt r) as [k'|]; [|done]. intros [= <-].
    destruct (IH k' eq_refl) as (attrs & r' & -> & <- & Hnot).
    exists (c :: attrs), r'. split_and!; [done..|].
    by intros [?|?]%elem_of_cons.
Qed.

Lemma index_gt_None r : index_gt r = None → GT ∉ r.
Proof.
  induction r as [|c r IH]; [intros _; apply not_elem_of_nil|]. cbn [index_gt].
  destruct (N.eqb_spec c 62) as [->|Hc]; [done|].
  destruct (index_gt r); [done|]. intros _ [?|?]%elem_of_cons; [done|by apply IH].
Qed.

Lemma match_par_tag_Some s n :
  match_par_tag s = Some n →
  is_par_delimiter (take n s) ∧ (1 ≤ n ≤ length s)%nat.
Proof.
  unfold match_par_tag. destruct (startswith s (py "</p>")) eqn:Hclose.
  - intros [= <-]. apply startswith_prefix in Hclose as [r ->].
    split; [by left|]. rewrite length_app. simpl. lia.
  - destruct (startswith s (py "<p")) eqn:Hopen; [|done].
    apply startswith_prefix in Hopen as [r ->].
    change (drop 2 (py "<p" ++ r)) with r.
    destruct (index_gt r) as [k|] eqn:Hgt; [|done]. intros [= <-].
    apply index_gt_Some in Hgt as (attrs & r' & -> & <- & Hnot). split.
    + right. exists attrs. split; [|done].
      replace (py "<p" ++ attrs ++ GT :: r') with ((py "<p" ++ attrs ++ [GT]) ++ r')
        by (by rewrite <- !app_assoc).
      apply take_app_length'. rewrite !length_app. simpl. lia.
    + rewrite !length_app. simpl. lia.
Qed.

Lemma match_par_tag_None s d v :
  match_par_tag s = None → s = d ++ v → ¬ is_par_delimiter d.
Proof.
  unfold match_par_tag. intros Hnone -> [->|(attrs & -> & Hnot)]; [done|].
  change (startswith ((py "<p" ++ attrs ++ [GT]) ++ v) (py "</p>")) with false in Hnone.
  change (startswith ((py "<p" ++ attrs ++ [GT]) ++ v) (py "<p")) with true in Hnone.
  change (drop 2 ((py "<p" ++ attrs ++ [GT]) ++ v)) with ((attrs ++ [GT]) ++ v) in Hnone.
  destruct (index_gt ((attrs ++ [GT]) ++ v)) eqn:Hgt; [done|].
  apply index_gt_None in Hgt. apply Hgt. rewrite !elem_of_app, list_elem_of_singleton.
  by left; right.
Qed.

Lemma re_split_pars_skip s k acc :
  re_split_pars s k acc = re_split_pars (drop k s) 0 acc.
Proof.
  revert k. induction s as [|c s IH]; intros [|k]; try done. cbn. apply IH.
Qed.

(** The splitter up to its first delimiter. *)
Lemma re_split_pars_first s acc :
  ((∀ u v, s = u ++ v → match_par_tag v = None) ∧
   re_split_pars s 0 acc = [reverse acc ++ s]) ∨
  (∃ u d v,
     s = u ++ d ++ v ∧ (length v < length s)%nat ∧
     (∀ u1 u2, u = u1 ++ u2 → u2 ≠ [] → match_par_tag (u2 ++ d ++ v) = None) ∧
     is_par_delimiter d ∧
     re_split_pars s 0 acc = (reverse acc ++ u) :: d :: re_split_pars v 0 []).
Proof.
  revert acc. induction s as [|c s IH]; intros acc.
  { left. split; [|by rewrite app_nil_r]. by intros [|??] [|??] ?. }
  cbn [re_split_pars]. destruct (match_par_tag (c :: s)) as [n|] eqn:Hm.
  - right. apply match_par_tag_Some in Hm as [Hd Hn].
    exists [], (take n (c :: s)), (drop n (c :: s)). split_and!.
    + by rewrite app_nil_l, take_drop.
    + rewrite length_drop. simpl in *. lia.
    + by intros [|??] [|??] ??.
    + done.
    + rewrite app_nil_r, re_split_pars_skip. do 3 f_equal.
      destruct n as [|n]; [lia|]. by rewrite Nat.sub_1_r.
  - destruct (IH (c :: acc)) as [[Hnone ->]|(u & d & v & -> & Hlen & Hnone & Hd & ->)].
    + left. split; [|by rewrite reverse_cons, <- app_assoc].
      intros [|x u] v Huv; simplify_eq/=; [done|]. by eapply Hnone.
    + right. exists (c :: u), d, v. split_and!; [done|simpl; lia| |done|].
      * intros [|x u1] u2 Hu Hne; simplify_eq/=; [done|]. by eapply Hnone.
      * by rewrite reverse_cons, <- app_assoc.
Qed.

Lemma delimiter_free_of_no_match text :
  (∀ u v, text = u ++ v → match_par_tag v = None) → delimiter_free text.
Proof.
  intros Hnone u d v -> Hd. by eapply match_par_tag_None; [eapply Hnone|..].
Qed.

Lemma match_par_tag_prefix s r : match_par_tag (s ++ r) = None → match_par_tag s = None.
Proof.
  intros Hnone. destruct (match_par_tag s) as [n|] eqn:Hm; [|done].
  apply match_par_tag_Some in Hm as [Hd Hn].
  destruct (match_par_tag_None (s ++ r) (take n s) (drop n s ++ r) Hnone); [|done].
  by rewrite app_assoc, take_drop.
Qed.

Lemma delimiter_free_before_match u d v :
  (∀ u1 u2, u = u1 ++ u2 → u2 ≠ [] → match_par_tag (u2 ++ d ++ v) = None) →
  delimiter_free u.
Proof.
  intros Hnone u1 d' u2 -> Hd'.
  destruct d' as [|x d'].
  { by destruct Hd' as [Hd'|(attrs & Hd' & _)]; vm_compute in Hd'. }
  eapply (match_par_tag_None ((x :: d') ++ u2 ++ d ++ v) (x :: d')); [|done..].
  rewrite (app_assoc _ u2). by apply (Hnone u1 ((x :: d') ++ u2)).
Qed.

Lemma re_split_pars_pieces_aux n s acc :
  (length s < n)%nat →
  ∃ text rest,
    re_split_pars s 0 acc = alternate (reverse acc ++ text) rest ∧
    delimiter_free text ∧
    Forall (λ p, is_par_delimiter p.1 ∧ delimiter_free p.2) rest ∧
    s = concat (alternate text rest).
Proof.
  revert s acc. induction n as [|n IH]; intros s acc Hlen; [lia|].
  destruct (re_split_pars_first s acc)
    as [[Hnone ->]|(u & d & v & -> & Hv & Hnone & Hd & ->)].
  - exists s, []. split_and!; [done| |done|].
    + by apply delimiter_free_of_no_match.
    + unfold alternate. simpl. by rewrite app_nil_r.
  - destruct (IH v []) as (text & rest & Hrun & Htext & Hrest & Hv'); [lia|].
    exists u, ((d, text) :: rest). split_and!.
    + rewrite Hrun. unfold alternate. by cbn.
    + by eapply delimiter_free_before_match.
    + by constructor.
    + unfold alternate in *. cbn. rewrite Hv' at 1. cbn. by rewrite !app_assoc.
Qed.

(** X6. [re.split] with the delimiters kept loses no character: the pieces
    concatenate to the input, and they alternate between text in which no
    delimiter occurs and one delimiter. *)
Theorem re_split_pars_alternate html :
  ∃ text rest,
    re_split_pars html 0 [] = alternate text rest ∧
    delimiter_free text ∧
    Forall (λ p, is_par_delimiter p.1 ∧ delimiter_free p.2) rest ∧
    concat (re_split_pars html 0 []) = html.
Proof.
  destruct (re_split_pars_pieces_aux (S (length html)) html [])
    as (text & rest & Hrun & Htext & Hrest & Hcat); [lia|].
  exists text, rest. split_and!; [done..|]. by rewrite Hrun.
Qed.

Lemma rstrip_nil_all_space s : rstrip s = [] → Forall (λ c, isspace c = true) s.
Proof.
  induction s as [|c s IH]; [done|]. cbn [rstrip].
  destruct (rstrip s) as [|x r]; [|done].
  destruct (isspace c) eqn:Hc; [|done]. intros _. constructor; [done|by apply IH].
Qed.

Lemma is_blank_all_space s :
  is_blank s = true ↔ Forall (λ c, isspace c = true) s.
Proof.
  unfold is_blank, strip. induction s as [|c s IH]; [done|]. cbn [lstrip].
  destruct (isspace c) eqn:Hc.
  - rewrite IH. split; [by constructor|by inversion 1].
  - destruct (rstrip_cons_clean c s Hc) as [r ->]. split; [done|].
    inversion 1; congruence.
Qed.

Lemma non_space_all_space s : Forall (λ c, isspace c = true) s → non_space s = [].
Proof.
  unfold non_space. induction 1 as [|c s Hc _ IH]; [done|].
  rewrite filter_cons_False by congruence. done.
Qed.

Lemma non_space_app s1 s2 : non_space (s1 ++ s2) = non_space s1 ++ non_space s2.
Proof. apply filter_app. Qed.

Lemma non_space_concat_filter (parts : list str) :
  non_space (concat (filter (λ part, is_blank part = false) parts))
  = non_space (concat parts).
Proof.
  induction parts as [|p parts IH]; [done|]. cbn [concat].
  rewrite non_space_app, <- IH. destruct (is_blank p) eqn:Hp.
  - rewrite filter_cons_False by congruence.
    by rewrite (non_space_all_space p) by by apply is_blank_all_space.
  - rewrite filter_cons_True by done. cbn [concat]. by rewrite non_space_app.
Qed.

Lemma alternate_parts text rest part :
  delimiter_free text →
  Forall (λ p, is_par_delimiter p.1 ∧ delimiter_free p.2) rest →
  part ∈ alternate text rest → is_par_delimiter part ∨ delimiter_free part.
Proof.
  intros Htext Hrest. unfold alternate. rewrite elem_of_cons.
  intros [->|Hin]; [by right|].
  apply list_elem_of_In, in_concat in Hin as (l & Hl & Hpart).
  apply list_elem_of_In in Hl, Hpart.
  apply list_elem_of_fmap in Hl as ([d t] & -> & Hp).
  rewrite Forall_forall in Hrest. destruct (Hrest _ Hp) as [Hd Ht].
  cbn in Hpart. apply elem_of_cons in Hpart as [->|Hpart]; [by left|].
  apply list_elem_of_singleton in Hpart as ->. by right.
Qed.

(** X7. [split_raw_html_on_pars]: only pieces made of whitespace alone are
    dropped. No part of the result is blank, each part is one delimiter or
    text without a delimiter, and the characters of the input that are not
    whitespace are all kept, in their order. *)
Theorem split_raw_html_on_pars_keeps_text html :
  let parts := split_raw_html_on_pars html in
  Forall (λ part, ∃ c, c ∈ part ∧ isspace c = false) parts ∧
  Forall (λ part, is_par_delimiter part ∨ delimiter_free part) parts ∧
  parts `sublist_of` re_split_pars html 0 [] ∧
  non_space (concat parts) = non_space html.
Proof.
  cbn zeta. unfold split_raw_html_on_pars.
  destruct (re_split_pars_pieces_aux (S (length html)) html [])
    as (text & rest & Hrun & Htext & Hrest & Hcat); [lia|].
  split_and!.
  - apply Forall_forall. intros part [Hblank _]%list_elem_of_filter.
    destruct (Exists_dec (λ c, isspace c = false) part) as [Hex|Hno].
    + apply Exists_exists in Hex. done.
    + destruct (is_blank part) eqn:Hb; [done|].
      assert (is_blank part = true); [|congruence].
      apply is_blank_all_space. apply Forall_forall. intros c Hc.
      destruct (isspace c) eqn:Hs; [done|]. destruct Hno.
      apply Exists_exists. eauto.
  - apply Forall_forall. intros part [_ Hin]%list_elem_of_filter.
    rewrite Hrun in Hin. by eapply alternate_parts.
  - apply sublist_filter.
  - rewrite non_space_concat_filter, Hrun. f_equal. symmetry. exact Hcat.
Qed.
End paragraph_splitter.

Section console.
Import utils.
Variable isdigit : str → bool.
Variable int : str → option Z.
Variables (num_options : Z) (has_default : bool) (default_choice : Z).

Lemma choice_loop_unfold inputs choice :
  choice_loop isdigit int num_options has_default default_choice inputs choice
  = let ask_again :=
      match inputs with
      | [] => EOFError
      | answer :: rest =>
          choice_loop isdigit int num_options has_default default_choice rest
            (or_default has_default default_choice answer)
      end in
    if isdigit choice then
      match int choice with
      | Some n =>
          if (0 <=? n) && (n <? num_options) then Chosen n inputs else ask_again
      | None => Failed ValueError
      end
    else ask_again.
Proof.
  destruct inputs; cbn [choice_loop]; destruct (isdigit choice); try done;
    destruct (int choice); done.
Qed.

Lemma choice_loop_in_range inputs choice n unread :
  choice_loop isdigit int num_options has_default default_choice inputs choice
  = Chosen n unread →
  (0 <= n ∧ n < num_options) ∧ unread `suffix_of` inputs.
Proof.
  revert choice. induction inputs as [|answer rest IH]; intros choice;
    rewrite choice_loop_unfold; cbv zeta.
  - destruct (isdigit choice); [|done]. destruct (int choice) as [k|]; [|done].
    destruct (Z.leb_spec 0 k), (Z.ltb_spec k num_options); cbn [andb]; try done.
    intros [= <- <-]. done.
  - assert (choice_loop isdigit int num_options has_default default_choice rest
              (or_default has_default default_choice answer)
            = Chosen n unread →
            (0 <= n ∧ n < num_options) ∧ unread `suffix_of` answer :: rest)
      as Hnext.
    { intros [Hn Hs]%IH. split; [done|]. by apply suffix_cons_r. }
    destruct (isdigit choice); [|done]. destruct (int choice) as [k|]; [|done].
    destruct (Z.leb_spec 0 k), (Z.ltb_spec k num_options); cbn [andb]; try done.
    intros [= <- <-]. done.
Qed.

Lemma choice_loop_rejected inputs choice :
  rejected_answer isdigit int num_options choice →
  choice_loop isdigit int num_options has_default default_choice inputs choice
  = match inputs with
    | [] => EOFError
    | answer :: rest =>
        choice_loop isdigit int num_options has_default default_choice rest
          (or_default has_default default_choice answer)
    end.
Proof.
  intros [Hd|(k & Hk & Hrange)]; rewrite choice_loop_unfold; cbv zeta.
  - by rewrite Hd.
  - rewrite Hk. destruct (isdigit choice); [|done].
    destruct (Z.leb_spec 0 k), (Z.ltb_spec k num_options); cbn [andb]; try done.
    lia.
Qed.

Lemma choice_loop_accepted inputs choice n :
  accepted_answer isdigit int num_options choice n →
  choice_loop isdigit int num_options has_default default_choice inputs choice
  = Chosen n inputs.
Proof.
  intros (Hd & Hn & ? & ?). rewrite choice_loop_unfold. cbv zeta.
  rewrite Hd, Hn.
  destruct (Z.leb_spec 0 n), (Z.ltb_spec n num_options); cbn [andb]; (done || lia).
Qed.

(** X12. [interactive_choice] only ever returns an index of the menu: a
    value from [0] up to [num_options - 1], whatever the user types and
    whatever the default is. The answers it has not read are left unread. *)
Theorem interactive_choice_in_range inputs n unread :
  interactive_choice isdigit int num_options has_default default_choice inputs
  = Chosen n unread →
  (0 <= n ∧ n < num_options) ∧ unread `suffix_of` inputs.
Proof.
  destruct inputs as [|answer rest]; [done|]. cbn [interactive_choice].
  intros [Hn Hs]%choice_loop_in_range. split; [done|]. by apply suffix_cons_r.
Qed.

(** X13. [interactive_choice] asks until it gets an answer it accepts: after
    any number of rejected answers, the first accepted one is returned, the
    default standing for an empty answer when there is one. *)
Theorem interactive_choice_first_accepted inputs rejected answer rest n :
  inputs = rejected ++ answer :: rest →
  Forall (λ a, rejected_answer isdigit int num_options
                 (or_default has_default default_choice a)) rejected →
  accepted_answer isdigit int num_options
    (or_default has_default default_choice answer) n →
  interactive_choice isdigit int num_options has_default default_choice inputs
  = Chosen n rest.
Proof.
  intros -> Hrej Hacc.
  assert (∀ l, choice_loop isdigit int num_options has_default default_choice l
                 (or_default has_default default_choice answer)
               = Chosen n l) as Hlast
    by (intros l; by apply choice_loop_accepted).
  destruct Hrej as [|a rejected Ha Hrej]; [apply Hlast|].
  cbn [app interactive_choice]. revert a Ha.
  induction Hrej as [|b rejected Hb _ IH]; intros a Ha.
  - rewrite choice_loop_rejected by done. apply Hlast.
  - rewrite choice_loop_rejected by done. cbn [app]. by apply IH.
Qed.
End console.

Lemma interactive_choice_in_range_witness :
  (0 <= 2 ∧ 2 < 3) ∧ [py "later"] `suffix_of` [py "7"; py "x"; []; py "later"].
Proof.
  by apply (interactive_choice_in_range ascii_isdigit ascii_int 3 true 2
              [py "7"; py "x"; []; py "later"] 2 [py "later"]).
Defined.

Lemma interactive_choice_first_accepted_witness :
  utils.interactive_choice ascii_isdigit ascii_int 3 true 2
    [py "7"; py "x"; []; py "later"]
  = utils.Chosen 2 [py "later"].
Proof.
  apply (interactive_choice_first_accepted ascii_isdigit ascii_int 3 true 2
           _ [py "7"; py "x"] [] [py "later"] 2); [done| |done].
  constructor; [right; exists 7; split; [done|lia]|].
  constructor; [by left|constructor].
Defined.

(** * Further properties of the tag injector *)

Section string_split.
Implicit Types (s sep acc : str).

Lemma split_go_skip sep s k acc :
  split_go sep s k acc = split_go sep (drop k s) 0 acc.
Proof.
  revert k. induction s as [|c s IH]; intros [|k]; try done. cbn. apply IH.
Qed.

Lemma split_go_nonempty sep s k acc : split_go sep s k acc ≠ [].
Proof.
  revert k acc. induction s as [|c s IH]; intros k acc; [done|].
  cbn [split_go]. destruct k; [|apply IH].
  destruct (startswith (c :: s) sep); [done|apply IH].
Qed.

(** [split] up to the first occurrence of the separator. *)
Lemma split_go_first sep s acc :
  sep ≠ [] →
  (¬ is_infix sep s ∧ split_go sep s 0 acc = [reverse acc ++ s]) ∨
  (∃ l1 l2,
     s = l1 ++ sep ++ l2 ∧
     (∀ l1' l2', s = l1' ++ sep ++ l2' → (length l1 ≤ length l1')%nat) ∧
     split_go sep s 0 acc = (reverse acc ++ l1) :: split_go sep l2 0 []).
Proof.
  intros Hsep. revert acc. induction s as [|c s IH]; intros acc.
  { left. split; [|by rewrite app_nil_r].
    intros (l1 & l2 & Heq). destruct l1, sep; simplify_eq/=. }
  cbn [split_go]. destruct (startswith (c :: s) sep) eqn:Hstart.
  - right. apply startswith_prefix in Hstart as [r Hr].
    exists [], r. split_and!; [done|intros; simpl; lia|].
    rewrite app_nil_r, split_go_skip. do 2 f_equal.
    destruct sep as [|x sep']; [done|]. simplify_eq/=.
    by rewrite Nat.sub_0_r, drop_app_length.
  - assert (∀ l1 l2, c :: s = l1 ++ sep ++ l2 → ∃ l1', l1 = c :: l1' ∧ s = l1' ++ sep ++ l2)
      as Hshift.
    { intros [|x l1] l2 Heq; simplify_eq/=; [|by eexists].
      assert (startswith (sep ++ l2) sep = true) as Hs
        by (apply startswith_prefix; by eexists).
      rewrite <- Heq in Hs. congruence. }
    destruct (IH (c :: acc)) as [[Hno ->]|(l1 & l2 & -> & Hmin & ->)].
    + left. split; [|by rewrite reverse_cons, <- app_assoc].
      intros (l1 & l2 & (l1' & -> & ->)%Hshift). apply Hno. by exists l1', l2.
    + right. exists (c :: l1), l2. split_and!; [done| |].
      * intros l1' l2' (l1'' & -> & Heq)%Hshift. apply Hmin in Heq. simpl. lia.
      * by rewrite reverse_cons, <- app_assoc.
Qed.

Lemma split_go_absent sep s :
  sep ≠ [] → ¬ is_infix sep s → split_go sep s 0 [] = [s].
Proof.
  intros Hsep Hno. by destruct (split_go_first sep s [] Hsep)
    as [[_ ->]|(l1 & l2 & -> & _)]; [|destruct Hno; eexists _, _].
Qed.

(** When the separator occurs twice without overlap, the split yields
    three pieces or more. *)
Lemma split_go_twice sep a b c :
  sep ≠ [] →
  ∃ p1 p2 p3 rest, split_go sep (a ++ sep ++ b ++ sep ++ c) 0 [] = p1 :: p2 :: p3 :: rest.
Proof.
  intros Hsep. set (s := a ++ sep ++ b ++ sep ++ c).
  destruct (split_go_first sep s [] Hsep) as [[Hno _]|(l1 & l2 & Hs & Hmin & ->)].
  { destruct Hno. by exists a, (b ++ sep ++ c). }
  assert (is_infix sep l2) as Hin.
  { pose proof (Hmin a (b ++ sep ++ c) eq_refl) as Hle.
    assert (l2 = drop (length l1 + length sep) s) as ->.
    { rewrite Hs, app_assoc, <- length_app. by rewrite drop_app_length. }
    subst s. rewrite (app_assoc a), (app_assoc (a ++ sep)).
    rewrite drop_app_le by (rewrite !length_app; lia). by eexists _, _. }
  destruct (split_go_first sep l2 [] Hsep) as [[Hno _]|(m1 & m2 & _ & _ & ->)]; [done|].
  destruct (split_go sep m2 0 []) as [|p3 rest] eqn:Hrest;
    [by destruct (split_go_nonempty sep m2 0 [])|].
  by eexists _, _, _, _.
Qed.

(** A split in two pieces: the separator occurs between them, and not
    again in the second. *)
Lemma split_go_two sep s a b :
  sep ≠ [] → split_go sep s 0 [] = [a; b] →
  s = a ++ sep ++ b ∧ ¬ is_infix sep b.
Proof.
  intros Hsep. destruct (split_go_first sep s [] Hsep)
    as [[_ ->]|(l1 & l2 & -> & _ & ->)]; [done|].
  destruct (split_go_first sep l2 [] Hsep)
    as [[Hno ->]|(m1 & m2 & _ & _ & ->)].
  - by intros [= <- <-].
  - intros [= _ _ Hnil]. by destruct (split_go_nonempty sep m2 0 []).
Qed.

Lemma split_go_three sep s p1 p2 p3 rest :
  sep ≠ [] → split_go sep s 0 [] = p1 :: p2 :: p3 :: rest →
  ∃ c, s = p1 ++ sep ++ p2 ++ sep ++ c.
Proof.
  intros Hsep. destruct (split_go_first sep s [] Hsep)
    as [[_ ->]|(l1 & l2 & -> & _ & ->)]; [done|].
  destruct (split_go_first sep l2 [] Hsep)
    as [[Hno ->]|(m1 & m2 & -> & _ & ->)]; [done|].
  intros [= <- <- _]. by eexists.
Qed.

(** The window occurs once: the first occurrence is the only one. *)
Lemma split_go_once sep prefix suffix :
  sep ≠ [] →
  (∀ a b, prefix ++ sep ++ suffix = a ++ sep ++ b → a = prefix) →
  split_go sep (prefix ++ sep ++ suffix) 0 [] = [prefix; suffix].
Proof.
  intros Hsep Honce. destruct (split_go_first sep (prefix ++ sep ++ suffix) [] Hsep)
    as [[Hno _]|(l1 & l2 & Heq & _ & ->)]; [destruct Hno; by eexists _, _|].
  pose proof (Honce _ _ Heq) as ->. apply app_inv_head, app_inv_head in Heq as <-.
  rewrite split_go_absent; [done..|]. intros (m1 & m2 & ->).
  specialize (Honce (prefix ++ sep ++ m1) m2).
  rewrite <- !app_assoc in Honce. specialize (Honce eq_refl).
  apply (f_equal length) in Honce. rewrite !length_app in Honce.
  destruct sep; [done|]. simpl in Honce. lia.
Qed.

Lemma contains_infix s sub : contains s sub = true ↔ is_infix sub s.
Proof.
  induction s as [|c s IH].
  - cbn [contains]. rewrite orb_false_r, startswith_prefix. split.
    + intros [r Heq]. by exists [], r.
    + intros (l1 & l2 & Heq). destruct l1; [by exists l2|done].
  - cbn [contains]. rewrite orb_true_iff, IH, startswith_prefix. split.
    + intros [[r Heq]|(l1 & l2 & ->)]; [by exists [], r|by exists (c :: l1), l2].
    + intros ([|x l1] & l2 & Heq); simplify_eq/=; [left; by eexists|].
      right. by eexists _, _.
Qed.

(** A check that [sep] occurs in [prefix ++ sep ++ suffix] only once: it
    does not occur in what precedes its last character there, and not in
    what follows its first character. *)
Lemma occurs_once_check sep prefix suffix :
  contains (take (length prefix + length sep - 1) (prefix ++ sep ++ suffix)) sep
  = false →
  contains (drop (S (length prefix)) (prefix ++ sep ++ suffix)) sep = false →
  ∀ a b, prefix ++ sep ++ suffix = a ++ sep ++ b → a = prefix.
Proof.
  intros Hbefore Hafter a b Heq. rewrite Heq in Hbefore, Hafter.
  destruct (Nat.lt_trichotomy (length a) (length prefix)) as [Hlt|[Hlen|Hgt]].
  - assert (contains (take (length prefix + length sep - 1) (a ++ sep ++ b)) sep
            = true); [|congruence].
    apply contains_infix. rewrite (app_assoc a).
    rewrite take_app_ge by (rewrite length_app; lia).
    rewrite <- app_assoc. by eexists _, _.
  - symmetry in Hlen. by destruct (app_inj_1 _ _ _ _ Hlen Heq).
  - assert (contains (drop (S (length prefix)) (a ++ sep ++ b)) sep = true);
      [|congruence].
    apply contains_infix. rewrite drop_app_le by lia. by eexists _, _.
Qed.
End string_split.

Section injector.
Import utils.
Implicit Types (m : Match) (html_tags parts : list str).
Implicit Types (to_insert : list (Z * str)).

Lemma getitem_cases {A} (l : list A) i :
  (∃ x, getitem l i = Ok x) ∨ getitem l i = Raise IndexError.
Proof.
  unfold getitem. cbv zeta. destruct (_ <? 0); [by right|].
  destruct (l !! _); [left; by eexists|by right].
Qed.

Lemma highlight_insertions_cases html_tags :
  (∃ to_insert, highlight_insertions html_tags = Ok to_insert) ∨
  highlight_insertions html_tags = Raise IndexError.
Proof.
  unfold highlight_insertions. cbv zeta.
  destruct (getitem_cases html_tags (-1)) as [[x ->]| ->]; [|by right].
  cbn [mbind res_bind]. left. destruct (negb _); by eexists.
Qed.

(** X8. The only [ValueError] of [create_highlighted_tags] is that of the
    unpacking of [all_tag_str.split(pre_highlight)]: it is raised exactly
    when the window is empty, does not occur in the markup of the matched
    blocks, or occurs there twice without overlap. *)
Theorem create_highlighted_tags_ValueError_iff m :
  create_highlighted_tags m = Raise ValueError ↔
  pre_highlight m = [] ∨
  ¬ is_infix (pre_highlight m) (all_tag_str m) ∨
  ∃ a b c, all_tag_str m = a ++ pre_highlight m ++ b ++ pre_highlight m ++ c.
Proof.
  unfold create_highlighted_tags. set (w := pre_highlight m).
  destruct (decide (w = [])) as [Hnil|Hne].
  { rewrite Hnil. split; [by left|done]. }
  assert (split (all_tag_str m) w = Ok (split_go w (all_tag_str m) 0 [])) as ->
    by (by destruct w).
  cbn [mbind res_bind]. split.
  - destruct (split_go w (all_tag_str m) 0 []) as [|p1 [|p2 [|p3 rest]]] eqn:Hsplit.
    + by destruct (split_go_nonempty w (all_tag_str m) 0 []).
    + intros _. right; left. intros (l1 & l2 & Heq).
      rewrite Heq in Hsplit. change (l1 ++ w ++ l2) with (l1 ++ w ++ [] ++ l2) in Hsplit.
      destruct (split_go_first w (l1 ++ w ++ [] ++ l2) [] Hne)
        as [[Hno _]|(m1 & m2 & _ & _ & Hrun)]; [destruct Hno; by eexists _, _|].
      rewrite Hrun in Hsplit. injection Hsplit as _ Hnil.
      by destruct (split_go_nonempty w m2 0 []).
    + cbn [mbind res_bind].
      destruct (highlight_insertions_cases (split_raw_html_on_pars w))
        as [[to_insert ->]| ->]; [|done].
      cbn [mbind res_bind]. by destruct (_ =? _).
    + intros _. right; right.
      apply split_go_three in Hsplit as [c ->]; [|done]. by eexists _, _, _.
  - intros [?|[Hno|(a & b & c & ->)]]; [done| |].
    + by rewrite split_go_absent.
    + by destruct (split_go_twice w a b c Hne) as (p1 & p2 & p3 & rest & ->).
Qed.

Lemma weave_length pos to_insert parts :
  length (weave pos to_insert parts) = (length parts + length to_insert)%nat.
Proof.
  revert pos parts. induction to_insert as [|[i tag] rest IH]; intros pos parts.
  { simpl. lia. }
  cbn [weave]. rewrite length_app. cbn [length]. rewrite IH.
  pose proof (take_drop (Z.to_nat (i - pos)) parts) as Hsplit.
  apply (f_equal length) in Hsplit. rewrite length_app in Hsplit. lia.
Qed.

Lemma weave_sublist pos to_insert parts :
  parts `sublist_of` weave pos to_insert parts.
Proof.
  revert pos parts. induction to_insert as [|[i tag] rest IH]; intros pos parts; [done|].
  cbn [weave]. rewrite <- (take_drop (Z.to_nat (i - pos)) parts) at 1.
  apply sublist_app; [done|]. by apply sublist_cons.
Qed.

(** The bookkeeping of [offset + i]: with positions that do not decrease,
    inserting the tokens one after another is weaving them in. *)
Lemma insert_tags_weave to_insert offset pos (done_ todo : list str) :
  0 <= offset → 0 <= pos → len done_ = offset + pos →
  positions_ok pos (pos + len todo) to_insert →
  insert_tags offset to_insert (done_ ++ todo) = done_ ++ weave pos to_insert todo.
Proof.
  revert offset pos done_ todo.
  induction to_insert as [|[i tag] rest IH]; intros offset pos done_ todo ?? Hlen Hok;
    [done|].
  cbn [insert_tags weave]. destruct Hok as [[Hlo Hhi] Hok]. unfold list_insert.
  assert (Z.to_nat (offset + i) = (length done_ + Z.to_nat (i - pos))%nat) as ->
    by (unfold len in *; lia).
  rewrite take_app_add, drop_app_add.
  replace ((done_ ++ take (Z.to_nat (i - pos)) todo)
           ++ tag :: drop (Z.to_nat (i - pos)) todo)
    with ((done_ ++ take (Z.to_nat (i - pos)) todo ++ [tag])
          ++ drop (Z.to_nat (i - pos)) todo)
    by (by rewrite <- !app_assoc).
  rewrite (IH (offset + 1) i); [by rewrite <- !app_assoc|lia|lia| |].
  - unfold len in *. rewrite !length_app, length_take. simpl. lia.
  - replace (i + len (drop (Z.to_nat (i - pos)) todo)) with (pos + len todo); [done|].
    unfold len in *. rewrite length_drop. lia.
Qed.

Lemma insertion_at_cases html_tags i part :
  insertion_at html_tags i part = [] ∨
  ∃ tag, insertion_at html_tags i part = [(Z.of_nat i, tag)] ∨
         insertion_at html_tags i part = [(Z.of_nat i + 1, tag)].
Proof.
  unfold insertion_at.
  repeat match goal with
         | |- context [if ?b then _ else _] => destruct b
         end; eauto.
Qed.

Lemma positions_ok_insertions html_tags n parts (k : nat) pos tail :
  pos <= Z.of_nat k → Z.of_nat k + len parts <= n →
  (∀ pos', pos' <= n → positions_ok pos' n tail) →
  positions_ok pos n
    (concat (imap (λ j, insertion_at html_tags (k + j)) parts) ++ tail).
Proof.
  intros Hpos Hn Htail. revert k pos Hpos Hn.
  induction parts as [|part parts IH]; intros k pos Hpos Hn.
  { apply Htail. unfold len in *. simpl in *. lia. }
  rewrite imap_cons. cbn [concat]. rewrite Nat.add_0_r, <- app_assoc.
  assert (∀ pos', pos' <= Z.of_nat (S k) →
            positions_ok pos' n
              (concat (imap ((λ j, insertion_at html_tags (k + j)) ∘ S) parts) ++ tail))
    as Hrest.
  { intros pos' Hpos'. rewrite (imap_ext _ (λ j, insertion_at html_tags (S k + j)));
      [|intros; unfold compose; f_equal; lia].
    apply IH; [done|]. unfold len in *. simpl in *. lia. }
  unfold len in *. cbn [length] in Hn.
  destruct (insertion_at_cases html_tags k part) as [->|(tag & [->| ->])]; cbn [app].
  - apply Hrest. lia.
  - cbn [positions_ok]. split; [lia|]. apply Hrest. lia.
  - cbn [positions_ok]. split; [lia|]. apply Hrest. lia.
Qed.

Lemma highlight_insertions_positions html_tags to_insert :
  highlight_insertions html_tags = Ok to_insert →
  positions_ok 0 (len html_tags) to_insert.
Proof.
  unfold highlight_insertions. cbv zeta.
  destruct (getitem html_tags (-1)) as [last_part| |]; [|done..].
  cbn [mbind res_bind].
  pose proof (positions_ok_insertions html_tags (len html_tags) html_tags 0 0) as Hok.
  cbn [Nat.add] in Hok. destruct (negb _); intros [= <-].
  - apply Hok; [lia..|]. intros pos' ?. cbn. lia.
  - rewrite <- (app_nil_r (concat _)). apply Hok; [lia..|]. done.
Qed.

(** X9. The tokens recorded by [create_highlighted_tags] end up where they
    were meant: inserting them one after another at [offset + i] puts each
    token [(i, tag)] immediately before the part that had index [i] (after
    the last part when [i] is the number of parts). The parts themselves
    stay, in their order, and nothing else is added. *)
Theorem insert_tags_in_place html_tags to_insert :
  highlight_insertions html_tags = Ok to_insert →
  insert_tags 0 to_insert html_tags = weave 0 to_insert html_tags ∧
  html_tags `sublist_of` insert_tags 0 to_insert html_tags ∧
  length (insert_tags 0 to_insert html_tags)
  = (length html_tags + length to_insert)%nat.
Proof.
  intros Hok%highlight_insertions_positions.
  pose proof (insert_tags_weave to_insert 0 0 [] html_tags) as Heq.
  cbn [app] in Heq. rewrite Heq by done.
  split_and!; [done|apply weave_sublist|apply weave_length].
Qed.

Lemma insert_tags_in_place_witness :
  let html_tags := [py "quick"; py "</p>"; py "<p>"; py " fox"] in
  let to_insert := [(0, HIGHLIGHT_HEAD); (1, HIGHLIGHT_TAIL);
                    (3, HIGHLIGHT_HEAD); (4, HIGHLIGHT_TAIL)] in
  insert_tags 0 to_insert html_tags = weave 0 to_insert html_tags ∧
  html_tags `sublist_of` insert_tags 0 to_insert html_tags ∧
  length (insert_tags 0 to_insert html_tags)
  = (length html_tags + length to_insert)%nat.
Proof. by apply insert_tags_in_place. Defined.

Lemma index_gt_app attrs r :
  GT ∉ attrs → index_gt (attrs ++ GT :: r) = Some (length attrs).
Proof.
  induction attrs as [|c attrs IH]; [done|].
  intros [Hc Hattrs]%not_elem_of_cons. cbn [app index_gt length].
  destruct (N.eqb_spec c 62) as [->|_]; [done|]. by rewrite IH.
Qed.

Lemma match_par_tag_opening d r :
  is_opening_tag d → match_par_tag (d ++ r) = Some (length d).
Proof.
  intros (attrs & -> & Hattrs). unfold match_par_tag.
  change (startswith ((py "<p" ++ attrs ++ [GT]) ++ r) (py "</p>")) with false.
  change (startswith ((py "<p" ++ attrs ++ [GT]) ++ r) (py "<p")) with true.
  change (drop 2 ((py "<p" ++ attrs ++ [GT]) ++ r)) with ((attrs ++ [GT]) ++ r).
  cbv iota. rewrite <- app_assoc. cbn [app]. rewrite index_gt_app by done.
  cbn. f_equal. rewrite length_app. simpl. lia.
Qed.

Lemma re_split_pars_match s n acc :
  match_par_tag s = Some n →
  re_split_pars s 0 acc = reverse acc :: take n s :: re_split_pars (drop n s) 0 [].
Proof.
  intros Hm. destruct s as [|c s]; [done|]. cbn [re_split_pars]. rewrite Hm.
  apply match_par_tag_Some in Hm as [_ Hn]. rewrite re_split_pars_skip.
  destruct n as [|n]; [lia|]. by rewrite Nat.sub_1_r.
Qed.

Lemma re_split_pars_chunk chunk r acc :
  LT ∉ chunk →
  re_split_pars (chunk ++ r) 0 acc = re_split_pars r 0 (reverse chunk ++ acc).
Proof.
  revert acc. induction chunk as [|c chunk IH]; intros acc; [done|].
  intros [Hc Hchunk]%not_elem_of_cons. cbn [app re_split_pars].
  assert (match_par_tag (c :: chunk ++ r) = None) as ->.
  { unfold match_par_tag. cbn [py map list_ascii_of_string startswith].
    change (N_of_ascii "<") with 60%N.
    destruct (N.eqb_spec 60 c) as [<-|_]; [done|]. done. }
  by rewrite IH, reverse_cons, <- app_assoc.
Qed.

Lemma re_split_pars_blocks chunk blocks acc :
  LT ∉ chunk →
  Forall (λ b, is_opening_tag b.1 ∧ LT ∉ b.2) blocks →
  re_split_pars (chunk ++ concat (block_parts blocks)) 0 acc
  = (reverse acc ++ chunk)
    :: concat (map (λ b, [py "</p>"; []; b.1; b.2]) blocks).
Proof.
  intros Hchunk Hblocks. revert chunk acc Hchunk.
  induction Hblocks as [|[o c] blocks [Ho Hc] _ IH]; intros chunk acc Hchunk.
  { cbn [block_parts concat map]. rewrite re_split_pars_chunk by done.
    cbn. by rewrite reverse_app, reverse_involutive. }
  cbn [block_parts concat map app fst snd] in *.
  rewrite re_split_pars_chunk by done.
  rewrite (re_split_pars_match _ 4) by done.
  change (take 4 (py "</p>" ++ ?r)) with (py "</p>").
  change (drop 4 (py "</p>" ++ ?r)) with r.
  rewrite (re_split_pars_match _ (length o)) by by apply match_par_tag_opening.
  rewrite take_app_length, drop_app_length, IH by done.
  by rewrite reverse_app, reverse_involutive.
Qed.

Lemma is_blank_false s :
  (∃ c, c ∈ s ∧ isspace c = false) → is_blank s = false.
Proof.
  intros (c & Hin & Hc). destruct (is_blank s) eqn:Hb; [|done].
  apply is_blank_all_space in Hb. rewrite Forall_forall in Hb.
  specialize (Hb c Hin). congruence.
Qed.

Lemma is_opening_tag_not_blank d : is_opening_tag d → is_blank d = false.
Proof.
  intros (attrs & -> & _). apply is_blank_false. exists LT. split; [|done].
  by left.
Qed.

Lemma split_raw_html_on_pars_blocks chunk blocks :
  is_chunk chunk →
  Forall (λ b, is_opening_tag b.1 ∧ is_chunk b.2) blocks →
  split_raw_html_on_pars (window_of chunk blocks) = chunk :: block_parts blocks.
Proof.
  intros [Hlt Hns] Hblocks. unfold split_raw_html_on_pars, window_of.
  cbn [concat]. rewrite re_split_pars_blocks;
    [|done|by eapply Forall_impl; [done|]; intros [??] [? [??]]].
  cbn [reverse app]. rewrite filter_cons_True by by apply is_blank_false.
  f_equal. induction Hblocks as [|[o c] blocks [Ho [_ Hc]] _ IH]; [done|].
  cbn [map concat app block_parts fst snd] in *.
  rewrite filter_cons_True by done.
  rewrite filter_cons_False by (by intros ?).
  rewrite filter_cons_True by by apply is_opening_tag_not_blank.
  rewrite filter_cons_True by by apply is_blank_false.
  by rewrite IH.
Qed.

Lemma is_chunk_content text : is_chunk text → is_content text.
Proof.
  intros [Hlt _]. split.
  - destruct (startswith text (py "<p")) eqn:Hs; [|done].
    apply startswith_prefix in Hs as [r ->]. destruct Hlt. by left.
  - destruct (startswith text (py "</p")) eqn:Hs; [|done].
    apply startswith_prefix in Hs as [r ->]. destruct Hlt. by left.
Qed.

Lemma is_opening_tag_opening d : is_opening_tag d → is_opening d.
Proof. by intros (attrs & -> & _). Qed.

Lemma blocks_content blocks :
  Forall (λ b, is_opening_tag b.1 ∧ is_chunk b.2) blocks →
  Forall (λ b, is_opening b.1 ∧ is_content b.2) blocks.
Proof.
  intros Hblocks. eapply Forall_impl; [done|]. intros [o c] [Ho Hc].
  split; [by apply is_opening_tag_opening|by apply is_chunk_content].
Qed.

Lemma insertions_of_blocks_tokens pre blocks :
  pre ≠ [] →
  Forall (λ b, is_opening b.1 ∧ is_content b.2) blocks →
  concat (imap (λ j, insertion_at (pre ++ block_parts blocks) (length pre + j))
            (block_parts blocks))
  = block_tokens (len pre) blocks.
Proof.
  intros Hpre Hblocks. revert pre Hpre.
  induction Hblocks as [|[o c] blocks [Ho Hc] _ IH]; intros pre Hpre; [done|].
  simpl in Ho, Hc. cbn [block_parts block_tokens].
  rewrite !imap_cons. unfold compose. cbn beta. cbn [concat].
  assert (∀ k, (length pre + k =? 0)%nat = false) as Hnz
    by (intros k; destruct pre; [done|]; simpl; lia).
  assert (insertion_at (pre ++ py "</p>" :: o :: c :: block_parts blocks)
            (length pre + 0) (py "</p>")
          = [(len pre, HIGHLIGHT_TAIL)]) as ->.
  { unfold insertion_at. rewrite Hnz. cbn. do 2 f_equal. unfold len. lia. }
  assert (insertion_at (pre ++ py "</p>" :: o :: c :: block_parts blocks)
            (length pre + 1) o
          = [(len pre + 2, HIGHLIGHT_HEAD)]) as ->.
  { unfold insertion_at. rewrite Hnz, (is_opening_not_closing o Ho), Ho.
    replace (length pre + 1 - 1)%nat with (length pre) by lia.
    rewrite list_lookup_middle by done. cbn. do 2 f_equal. unfold len. lia. }
  assert (insertion_at (pre ++ py "</p>" :: o :: c :: block_parts blocks)
            (length pre + 2) c = []) as ->.
  { unfold insertion_at. rewrite Hnz, (is_content_not_closing c Hc).
    by rewrite (proj1 Hc). }
  specialize (IH (pre ++ [py "</p>"; o; c])).
  rewrite <- app_assoc in IH. cbn [app] in IH.
  rewrite (imap_ext _ (λ j, insertion_at
                              (pre ++ py "</p>" :: o :: c :: block_parts blocks)
                              (length (pre ++ [py "</p>"; o; c]) + j)))
    by (intros j x _; simpl; f_equal; rewrite length_app; simpl; lia).
  rewrite IH by by destruct pre. cbn [app]. do 2 f_equal.
  f_equal. unfold len. rewrite length_app. simpl. lia.
Qed.

Lemma length_block_parts blocks :
  len (block_parts blocks) = 3 * len blocks.
Proof.
  induction blocks as [|[o c] blocks IH]; [done|]. cbn [block_parts].
  unfold len in *. simpl. lia.
Qed.

Lemma highlight_insertions_blocks chunk blocks :
  is_content chunk →
  Forall (λ b, is_opening b.1 ∧ is_content b.2) blocks →
  highlight_insertions (chunk :: block_parts blocks)
  = Ok ((0, HIGHLIGHT_HEAD) :: block_tokens 1 blocks
        ++ [(1 + 3 * len blocks, HIGHLIGHT_TAIL)]).
Proof.
  intros Hc Hblocks. unfold highlight_insertions.
  destruct (block_parts_last chunk blocks Hc Hblocks) as (last_part & Hlast & Hl).
  assert (getitem (chunk :: block_parts blocks) (-1) = Ok last_part) as ->.
  { unfold getitem. cbn zeta.
    assert ((-1 <? 0) = true) as -> by done.
    assert ((-1 + len (chunk :: block_parts blocks) <? 0) = false) as ->
      by (apply Z.ltb_ge; len_lia).
    rewrite last_lookup in Hlast.
    replace (Z.to_nat (-1 + len (chunk :: block_parts blocks)))
      with (pred (length (chunk :: block_parts blocks))) by len_lia.
    by rewrite Hlast. }
  cbn [mbind res_bind]. rewrite (proj1 Hl), (proj2 Hl). cbn [orb negb].
  rewrite imap_cons. unfold compose. cbn [concat].
  assert (insertion_at (chunk :: block_parts blocks) 0 chunk
          = [(0, HIGHLIGHT_HEAD)]) as ->.
  { unfold insertion_at. cbn [Nat.eqb].
    by rewrite (proj1 Hc), (is_content_not_closing chunk Hc). }
  pose proof (insertions_of_blocks_tokens [chunk] blocks) as Htok.
  cbn [app length] in Htok.
  rewrite (imap_ext _ (λ j, insertion_at (chunk :: block_parts blocks) (1 + j)))
    by done.
  rewrite Htok by done. cbn [app].
  assert (len (chunk :: block_parts blocks) = 1 + 3 * len blocks) as ->; [|done].
  pose proof (length_block_parts blocks). unfold len in *. cbn [length]. lia.
Qed.

Lemma block_tokens_counts p blocks :
  head_count (block_tokens p blocks) = len blocks ∧
  tail_count (block_tokens p blocks) = len blocks.
Proof.
  revert p. induction blocks as [|b blocks IH]; intros p; [done|].
  cbn [block_tokens]. destruct (IH (p + 3)) as [IHh IHt].
  change (?a :: ?b :: block_tokens (p + 3) blocks)
    with ([a; b] ++ block_tokens (p + 3) blocks).
  rewrite head_count_app, tail_count_app, IHh, IHt.
  assert (head_count [(p, HIGHLIGHT_TAIL); (p + 2, HIGHLIGHT_HEAD)] = 1) as ->
    by (by vm_compute).
  assert (tail_count [(p, HIGHLIGHT_TAIL); (p + 2, HIGHLIGHT_HEAD)] = 1) as ->
    by (by vm_compute).
  unfold len. cbn [length]. lia.
Qed.

Lemma weave_blocks p chunk blocks :
  weave (p - 1) (block_tokens p blocks ++ [(p + 3 * len blocks, HIGHLIGHT_TAIL)])
    (chunk :: block_parts blocks)
  = chunk :: HIGHLIGHT_TAIL
    :: concat (map (λ b, [py "</p>"; b.1; HIGHLIGHT_HEAD; b.2; HIGHLIGHT_TAIL])
                 blocks).
Proof.
  revert p chunk. induction blocks as [|[o c] blocks IH]; intros p chunk.
  { cbn [block_tokens app weave block_parts map concat].
    replace (Z.to_nat (p + 3 * len [] - (p - 1))) with 1%nat by (unfold len; simpl; lia).
    done. }
  cbn [block_tokens app weave block_parts map concat fst snd].
  replace (Z.to_nat (p - (p - 1))) with 1%nat by lia.
  replace (Z.to_nat (p + 2 - p)) with 2%nat by lia.
  cbn [take drop app]. do 5 f_equal.
  specialize (IH (p + 3) c).
  replace (p + 3 - 1) with (p + 2) in IH by lia.
  replace (p + 3 + 3 * len blocks) with (p + 3 * len ((o, c) :: blocks)) in IH
    by (unfold len; cbn [length]; lia).
  by rewrite IH.
Qed.

Lemma concat_marked_blocks blocks :
  concat (concat (map (λ b, [py "</p>"; b.1; HIGHLIGHT_HEAD; b.2; HIGHLIGHT_TAIL])
                    blocks))
  = concat (map (λ b, py "</p>" ++ b.1 ++ marked b.2) blocks).
Proof.
  induction blocks as [|[o c] blocks IH]; [done|].
  cbn [map concat fst snd]. rewrite concat_app, IH. unfold marked. cbn [concat].
  by rewrite app_nil_r, <- !app_assoc.
Qed.

(** X10. The injector at work. For a window that begins in the text of one
    block and ends in the text of the same or a later block, and that occurs
    once in the markup of the matched blocks, [create_highlighted_tags]
    returns that markup with every chunk of the window between its own pair
    of markers, the delimiters between the chunks untouched, and the note of
    the clipping, if any, appended after the last marker. *)
Theorem create_highlighted_tags_marks_blocks m prefix suffix chunk blocks :
  pre_highlight m = window_of chunk blocks →
  is_chunk chunk →
  Forall (λ b, is_opening_tag b.1 ∧ is_chunk b.2) blocks →
  all_tag_str m = prefix ++ pre_highlight m ++ suffix →
  (∀ a b, all_tag_str m = a ++ pre_highlight m ++ b → a = prefix) →
  create_highlighted_tags m
  = Ok (prefix ++ marked_window chunk blocks ++ note_markup (note (clip m))
        ++ suffix).
Proof.
  intros Hw Hchunk Hblocks Hs Honce. unfold create_highlighted_tags.
  assert (pre_highlight m ≠ []) as Hne.
  { rewrite Hw. unfold window_of. cbn [concat].
    destruct Hchunk as [_ (c & Hc & _)]. destruct chunk; [|done].
    by apply elem_of_nil in Hc. }
  assert (split (all_tag_str m) (pre_highlight m) = Ok [prefix; suffix]) as ->.
  { unfold split. destruct (pre_highlight m) as [|x w] eqn:Hx; [done|].
    rewrite Hs. f_equal. apply split_go_once; [done|]. by rewrite <- Hs. }
  cbn [mbind res_bind]. rewrite Hw.
  rewrite split_raw_html_on_pars_blocks by done.
  pose proof (blocks_content blocks Hblocks) as Hblocks'.
  pose proof (is_chunk_content chunk Hchunk) as Hchunk'.
  pose proof (highlight_insertions_blocks chunk blocks Hchunk' Hblocks') as Hins.
  pose proof (highlight_insertions_positions _ _ Hins) as Hpos.
  rewrite Hins. cbn [mbind res_bind].
  destruct (block_tokens_counts 1 blocks) as [Hh Ht].
  assert (head_count ((0, HIGHLIGHT_HEAD) :: block_tokens 1 blocks
                      ++ [(1 + 3 * len blocks, HIGHLIGHT_TAIL)])
          = tail_count ((0, HIGHLIGHT_HEAD) :: block_tokens 1 blocks
                        ++ [(1 + 3 * len blocks, HIGHLIGHT_TAIL)])) as Hcount.
  { change ((0, HIGHLIGHT_HEAD) :: ?l ++ ?r) with ([(0, HIGHLIGHT_HEAD)] ++ l ++ r).
    rewrite !head_count_app, !tail_count_app, Hh, Ht.
    assert (head_count [(0, HIGHLIGHT_HEAD)] = 1) as -> by (by vm_compute).
    assert (tail_count [(0, HIGHLIGHT_HEAD)] = 0) as -> by (by vm_compute).
    assert (head_count [(1 + 3 * len blocks, HIGHLIGHT_TAIL)] = 0) as ->
      by (by vm_compute).
    assert (tail_count [(1 + 3 * len blocks, HIGHLIGHT_TAIL)] = 1) as ->
      by (by vm_compute).
    lia. }
  rewrite Hcount, Z.eqb_refl.
  pose proof (insert_tags_weave _ 0 0 [] (chunk :: block_parts blocks)
                ltac:(done) ltac:(done) ltac:(done) Hpos) as Hweave.
  cbn [app] in Hweave. rewrite Hweave. cbn [weave].
  change (Z.to_nat (0 - 0)) with 0%nat. cbn [take drop app].
  pose proof (weave_blocks 1 chunk blocks) as Hwb.
  change (1 - 1) with 0 in Hwb. rewrite Hwb.
  f_equal. f_equal. unfold marked_window, marked, note_markup.
  destruct (note (clip m)) as [[|x text]|];
    cbn [nonempty concat app]; rewrite ?concat_app; cbn [concat];
    rewrite concat_marked_blocks, ?app_nil_r; by rewrite <- !app_assoc.
Qed.

Lemma create_highlighted_tags_marks_blocks_witness :
  create_highlighted_tags
    (mkMatch noted_fox 0 [0; 1]
       (py "<p>The quick</p><p> fox jumps</p>") (py "quick</p><p> fox"))
  = Ok (py "<p>The " ++ marked_window (py "quick") [(py "<p>", py " fox")]
        ++ note_markup (Some (py "remember this")) ++ py " jumps</p>").
Proof.
  refine (create_highlighted_tags_marks_blocks
            (mkMatch noted_fox 0 [0; 1]
               (py "<p>The quick</p><p> fox jumps</p>")
               (py "quick</p><p> fox"))
            (py "<p>The ") (py " jumps</p>") (py "quick") [(py "<p>", py " fox")]
            _ _ _ _ _).
  - reflexivity.
  - split; [by apply (bool_decide_unpack _)|]. exists 113%N. split; [by left|done].
  - repeat constructor.
    + exists []. split; [done|apply not_elem_of_nil].
    + by apply (bool_decide_unpack _).
    + exists 102%N. split; [by right; left|done].
  - reflexivity.
  - by apply (occurs_once_check (py "quick</p><p> fox") (py "<p>The ")
                (py " jumps</p>")).
Defined.

(** The note is written out whole, after the last marker. *)
Example create_highlighted_tags_note_whole :
  note_markup (Some (py "remember this"))
  = py "<span class=" ++ DQUOTE ++ py "note" ++ DQUOTE ++ py " style=" ++ DQUOTE
    ++ py "color: gray; font-style: italic; font-size: 90%;" ++ DQUOTE
    ++ py "> [R.N.: remember this] </span>" ∧
  note_markup (Some []) = [] ∧ note_markup None = [] ∧
  create_highlighted_tags
    (mkMatch noted_fox 0 [0]
       (py "<p>The quick</p>") (py "quick"))
  = Ok (py "<p>The " ++ HIGHLIGHT_HEAD ++ py "quick" ++ HIGHLIGHT_TAIL
        ++ py "<span class=" ++ DQUOTE ++ py "note" ++ DQUOTE ++ py " style="
        ++ DQUOTE ++ py "color: gray; font-style: italic; font-size: 90%;"
        ++ DQUOTE ++ py "> [R.N.: remember this] </span></p>").
Proof. split_and!; by vm_compute. Qed.

Lemma insertions_of_blocks_then pre blocks extra :
  pre ≠ [] →
  Forall (λ b, is_opening b.1 ∧ is_content b.2) blocks →
  concat (imap (λ j, insertion_at (pre ++ block_parts blocks ++ extra)
                       (length pre + j))
            (block_parts blocks))
  = block_tokens (len pre) blocks.
Proof.
  intros Hpre Hblocks. revert pre Hpre.
  induction Hblocks as [|[o c] blocks [Ho Hc] _ IH]; intros pre Hpre; [done|].
  simpl in Ho, Hc. cbn [block_parts block_tokens app].
  rewrite !imap_cons. unfold compose. cbn beta. cbn [concat].
  assert (∀ k, (length pre + k =? 0)%nat = false) as Hnz
    by (intros k; destruct pre; [done|]; simpl; lia).
  assert (insertion_at (pre ++ py "</p>" :: o :: c :: block_parts blocks ++ extra)
            (length pre + 0) (py "</p>")
          = [(len pre, HIGHLIGHT_TAIL)]) as ->.
  { unfold insertion_at. rewrite Hnz. cbn. do 2 f_equal. unfold len. lia. }
  assert (insertion_at (pre ++ py "</p>" :: o :: c :: block_parts blocks ++ extra)
            (length pre + 1) o
          = [(len pre + 2, HIGHLIGHT_HEAD)]) as ->.
  { unfold insertion_at. rewrite Hnz, (is_opening_not_closing o Ho), Ho.
    replace (length pre + 1 - 1)%nat with (length pre) by lia.
    rewrite list_lookup_middle by done. cbn. do 2 f_equal. unfold len. lia. }
  assert (insertion_at (pre ++ py "</p>" :: o :: c :: block_parts blocks ++ extra)
            (length pre + 2) c = []) as ->.
  { unfold insertion_at. rewrite Hnz, (is_content_not_closing c Hc).
    by rewrite (proj1 Hc). }
  specialize (IH (pre ++ [py "</p>"; o; c])).
  rewrite <- app_assoc in IH. cbn [app] in IH.
  rewrite (imap_ext _ (λ j, insertion_at
                              (pre ++ py "</p>" :: o :: c
                               :: block_parts blocks ++ extra)
                              (length (pre ++ [py "</p>"; o; c]) + j)))
    by (intros j x _; simpl; f_equal; rewrite length_app; simpl; lia).
  rewrite IH by by destruct pre. cbn [app]. do 2 f_equal.
  f_equal. unfold len. rewrite length_app. simpl. lia.
Qed.

Lemma is_cut_tag_no_match part u v : is_cut_tag part → part = u ++ v → match_par_tag v = None.
Proof.
  intros (attrs & -> & Hgt & Hlt) Heq.
  assert (GT ∉ v) as Hv.
  { intros Hin. assert (GT ∈ py "<p" ++ attrs) as Hin'
      by (rewrite Heq, elem_of_app; by right).
    apply elem_of_app in Hin' as [Hin'|Hin']; [|done].
    assert (GT ∉ py "<p") as Hp by (by apply (bool_decide_unpack _)). done. }
  unfold match_par_tag.
  destruct (startswith v (py "</p>")) eqn:Hc.
  { apply startswith_prefix in Hc as [r ->]. destruct Hv.
    rewrite elem_of_app. left. by apply (bool_decide_unpack _). }
  destruct (startswith v (py "<p")); [|done].
  destruct (index_gt (drop 2 v)) as [k|] eqn:Hk; [|done].
  apply index_gt_Some in Hk as (a & r & Hd & _). destruct Hv.
  rewrite <- (take_drop 2 v), Hd, !elem_of_app. right. right. by left.
Qed.

Lemma re_split_pars_no_match s acc :
  (∀ u v, s = u ++ v → match_par_tag v = None) →
  re_split_pars s 0 acc = [reverse acc ++ s].
Proof.
  intros Hno. destruct (re_split_pars_first s acc)
    as [[_ ->]|(u & d & v & -> & _ & _ & Hd & _)]; [done|].
  destruct (match_par_tag_None (d ++ v) d v); [by eapply Hno|done..].
Qed.

Lemma re_split_pars_blocks_then chunk blocks rest acc :
  LT ∉ chunk →
  Forall (λ b, is_opening_tag b.1 ∧ LT ∉ b.2) blocks →
  re_split_pars (chunk ++ concat (block_parts blocks) ++ py "</p>" ++ rest) 0 acc
  = (reverse acc ++ chunk)
    :: concat (map (λ b, [py "</p>"; []; b.1; b.2]) blocks)
    ++ py "</p>" :: re_split_pars rest 0 [].
Proof.
  intros Hchunk Hblocks. revert chunk acc Hchunk.
  induction Hblocks as [|[o c] blocks [Ho Hc] _ IH]; intros chunk acc Hchunk.
  { cbn [block_parts concat map app]. rewrite re_split_pars_chunk by done.
    rewrite (re_split_pars_match _ 4) by done.
    change (take 4 (py "</p>" ++ ?r)) with (py "</p>").
    change (drop 4 (py "</p>" ++ ?r)) with r.
    by rewrite reverse_app, reverse_involutive. }
  cbn [block_parts concat map app fst snd] in *.
  rewrite re_split_pars_chunk by done. rewrite <- !app_assoc.
  rewrite (re_split_pars_match _ 4) by done.
  change (take 4 (py "</p>" ++ ?r)) with (py "</p>").
  change (drop 4 (py "</p>" ++ ?r)) with r.
  rewrite (re_split_pars_match _ (length o)) by by apply match_par_tag_opening.
  rewrite take_app_length, drop_app_length, IH by done.
  by rewrite reverse_app, reverse_involutive.
Qed.

Lemma is_cut_tag_opening part : is_cut_tag part → is_opening part.
Proof. by intros (attrs & -> & _). Qed.

Lemma split_raw_html_on_pars_cut chunk blocks partial :
  is_chunk chunk →
  Forall (λ b, is_opening_tag b.1 ∧ is_chunk b.2) blocks →
  is_cut_tag partial →
  split_raw_html_on_pars (window_of chunk blocks ++ py "</p>" ++ partial)
  = chunk :: block_parts blocks ++ [py "</p>"; partial].
Proof.
  intros [Hlt Hns] Hblocks Hcut. unfold split_raw_html_on_pars, window_of.
  cbn [concat]. rewrite <- app_assoc. rewrite re_split_pars_blocks_then;
    [|done|by eapply Forall_impl; [done|]; intros [??] [? [??]]].
  rewrite (re_split_pars_no_match partial)
    by (intros u v Huv; by eapply is_cut_tag_no_match).
  cbn [reverse app]. rewrite filter_cons_True by by apply is_blank_false.
  f_equal. induction Hblocks as [|[o c] blocks [Ho [_ Hc]] _ IH].
  - cbn [map concat app block_parts].
    rewrite filter_cons_True by done. rewrite filter_cons_True; [done|].
    destruct Hcut as (attrs & -> & _). apply is_blank_false.
    exists LT. split; [by left|done].
  - cbn [map concat app block_parts fst snd] in *.
    rewrite filter_cons_True by done.
    rewrite filter_cons_False by (by intros ?).
    rewrite filter_cons_True by by apply is_opening_tag_not_blank.
    rewrite filter_cons_True by by apply is_blank_false.
    by rewrite IH.
Qed.

Lemma highlight_insertions_cut chunk blocks partial :
  is_content chunk →
  Forall (λ b, is_opening b.1 ∧ is_content b.2) blocks →
  is_opening partial →
  highlight_insertions (chunk :: block_parts blocks ++ [py "</p>"; partial])
  = Ok ((0, HIGHLIGHT_HEAD) :: block_tokens 1 blocks
        ++ [(1 + 3 * len blocks, HIGHLIGHT_TAIL);
            (1 + 3 * len blocks + 2, HIGHLIGHT_HEAD)]).
Proof.
  intros Hc Hblocks Hcut. unfold highlight_insertions.
  set (bp := block_parts blocks).
  set (html_tags := chunk :: bp ++ [py "</p>"; partial]).
  assert (length bp = (3 * length blocks)%nat) as Hlen
    by (pose proof (length_block_parts blocks) as Hl; unfold len in Hl; subst bp; lia).
  assert (last html_tags = Some partial) as Hlast.
  { subst html_tags.
    change (chunk :: bp ++ [py "</p>"; partial])
      with ((chunk :: bp) ++ [py "</p>"] ++ [partial]).
    rewrite app_assoc. apply last_snoc. }
  assert (getitem html_tags (-1) = Ok partial) as ->.
  { unfold getitem. cbn zeta.
    assert ((-1 <? 0) = true) as -> by done.
    assert ((-1 + len html_tags <? 0) = false) as ->
      by (apply Z.ltb_ge; subst html_tags; len_lia).
    rewrite last_lookup in Hlast.
    replace (Z.to_nat (-1 + len html_tags)) with (pred (length html_tags))
      by (subst html_tags; len_lia).
    by rewrite Hlast. }
  cbn [mbind res_bind]. unfold is_opening in Hcut. rewrite Hcut, orb_true_r.
  cbn [negb]. f_equal. subst html_tags.
  rewrite imap_cons, imap_app. cbn [concat]. rewrite concat_app.
  assert (insertion_at (chunk :: bp ++ [py "</p>"; partial]) 0 chunk
          = [(0, HIGHLIGHT_HEAD)]) as ->.
  { unfold insertion_at. cbn [Nat.eqb].
    by rewrite (proj1 Hc), (is_content_not_closing chunk Hc). }
  cbn [app]. f_equal. f_equal.
  - pose proof (insertions_of_blocks_then [chunk] blocks [py "</p>"; partial])
      as Htok.
    cbn [app length] in Htok. change (len [chunk]) with 1 in Htok.
    by rewrite <- Htok by done.
  - unfold compose. cbn [imap concat app]. rewrite Hlen.
    assert (insertion_at (chunk :: bp ++ [py "</p>"; partial])
              (S (3 * length blocks + 0)) (py "</p>")
            = [(1 + 3 * len blocks, HIGHLIGHT_TAIL)]) as ->.
    { unfold insertion_at. cbn [Nat.eqb]. cbn. do 2 f_equal. unfold len. lia. }
    unfold compose. cbn beta.
    assert (insertion_at (chunk :: bp ++ [py "</p>"; partial])
              (S (3 * length blocks + 1)) partial
            = [(1 + 3 * len blocks + 2, HIGHLIGHT_HEAD)]) as ->; [|done].
    unfold insertion_at. cbn [Nat.eqb].
    rewrite (is_opening_not_closing partial Hcut), Hcut.
    replace (S (3 * length blocks + 1) - 1)%nat with (S (length bp + 0)) by lia.
    assert ((chunk :: bp ++ [py "</p>"; partial]) !! S (length bp + 0)
            = Some (py "</p>")) as ->.
    { rewrite Nat.add_0_r.
      change ((bp ++ py "</p>" :: [partial]) !! length bp = Some (py "</p>")).
      by rewrite list_lookup_middle. }
    cbn. do 2 f_equal. unfold len. lia.
Qed.

(** X11. The failure of the count assertion is not one odd input. Whenever
    the window ends inside an opening tag - it begins in the text of a
    block, runs over any number of blocks and stops after the first
    characters of the next opening tag, before its closing angle bracket -
    one head more than tails is recorded and [create_highlighted_tags]
    raises [AssertionError]. *)
Theorem create_highlighted_tags_cut_tag m prefix suffix chunk blocks partial :
  pre_highlight m = window_of chunk blocks ++ py "</p>" ++ partial →
  is_chunk chunk →
  Forall (λ b, is_opening_tag b.1 ∧ is_chunk b.2) blocks →
  is_cut_tag partial →
  all_tag_str m = prefix ++ pre_highlight m ++ suffix →
  (∀ a b, all_tag_str m = a ++ pre_highlight m ++ b → a = prefix) →
  create_highlighted_tags m = Raise AssertionError.
Proof.
  intros Hw Hchunk Hblocks Hcut Hs Honce. unfold create_highlighted_tags.
  assert (pre_highlight m ≠ []) as Hne.
  { rewrite Hw. unfold window_of. cbn [concat].
    destruct Hchunk as [_ (c & Hc & _)]. destruct chunk; [|done].
    by apply elem_of_nil in Hc. }
  assert (split (all_tag_str m) (pre_highlight m) = Ok [prefix; suffix]) as ->.
  { unfold split. destruct (pre_highlight m) as [|x w] eqn:Hx; [done|].
    rewrite Hs. f_equal. apply split_go_once; [done|]. by rewrite <- Hs. }
  cbn [mbind res_bind]. rewrite Hw.
  rewrite split_raw_html_on_pars_cut by done.
  rewrite highlight_insertions_cut;
    [|by apply is_chunk_content|by apply blocks_content|by apply is_cut_tag_opening].
  cbn [mbind res_bind].
  destruct (block_tokens_counts 1 blocks) as [Hh Ht].
  change ((0, HIGHLIGHT_HEAD) :: ?l ++ ?r) with ([(0, HIGHLIGHT_HEAD)] ++ l ++ r).
  rewrite !head_count_app, !tail_count_app, Hh, Ht.
  assert (head_count [(0, HIGHLIGHT_HEAD)] = 1) as -> by (by vm_compute).
  assert (tail_count [(0, HIGHLIGHT_HEAD)] = 0) as -> by (by vm_compute).
  assert (head_count [(1 + 3 * len blocks, HIGHLIGHT_TAIL);
                      (1 + 3 * len blocks + 2, HIGHLIGHT_HEAD)] = 1) as ->
    by (by vm_compute).
  assert (tail_count [(1 + 3 * len blocks, HIGHLIGHT_TAIL);
                      (1 + 3 * len blocks + 2, HIGHLIGHT_HEAD)] = 1) as ->
    by (by vm_compute).
  by destruct (Z.eqb_spec (1 + (len blocks + 1)) (0 + (len blocks + 1))); [lia|].
Qed.

Lemma create_highlighted_tags_cut_tag_witness :
  create_highlighted_tags quick_fox_match = Raise AssertionError.
Proof.
  refine (create_highlighted_tags_cut_tag quick_fox_match
            (py "<p>The ") (DQUOTE ++ py ">fox jumps</p>") (py "quick") []
            (py "<p class=" ++ DQUOTE ++ py "fox") _ _ _ _ _ _).
  - reflexivity.
  - split; [by apply (bool_decide_unpack _)|]. exists 113%N. split; [by left|done].
  - constructor.
  - exists (py " class=" ++ DQUOTE ++ py "fox").
    split_and!; [done|by apply (bool_decide_unpack _)..].
  - reflexivity.
  - by apply (occurs_once_check (pre_highlight quick_fox_match) (py "<p>The ")
                (DQUOTE ++ py ">fox jumps</p>")).
Defined.
End injector.

(** * Further properties of clip_utils.py *)

Lemma forallb_Forall {A} (f : A → bool) (l : list A) :
  forallb f l = true ↔ Forall (λ x, f x = true) l.
Proof.
  induction l as [|x l IH]; [done|]. cbn [forallb].
  rewrite andb_true_iff, IH. split; [intros []; by constructor|by inversion 1].
Qed.

Section sorting.
Context {A : Type} (key : A → Z).

Lemma insert_by_perm (before : A → A → bool) x l :
  insert_by before x l ≡ₚ x :: l.
Proof.
  induction l as [|y l IH]; [done|]. cbn [insert_by].
  destruct (before x y); [done|]. by rewrite IH, Permutation_swap.
Qed.

Lemma sorted_perm reverse l : sorted key reverse l ≡ₚ l.
Proof.
  unfold sorted. induction l as [|x l IH]; [done|]. cbn [foldr].
  by rewrite insert_by_perm, IH.
Qed.

Lemma insert_by_sorted x l :
  StronglySorted (λ a b, key a <= key b) l →
  StronglySorted (λ a b, key a <= key b)
    (insert_by (λ a b, key a <=? key b) x l).
Proof.
  induction 1 as [|y l Hl IH Hy]; [by repeat constructor|]. cbn [insert_by].
  destruct (Z.leb_spec (key x) (key y)).
  - constructor; [by constructor|]. constructor; [done|].
    eapply Forall_impl; [done|]. intros z ?. cbn in *. lia.
  - constructor; [done|]. rewrite insert_by_perm. constructor; [lia|done].
Qed.

Lemma sorted_ascending l :
  StronglySorted (λ a b, key a <= key b) (sorted key false l).
Proof.
  unfold sorted. induction l as [|x l IH]; [constructor|]. cbn [foldr].
  by apply insert_by_sorted.
Qed.

(** A list whose keys strictly decrease is already sorted for
    [reverse=True], and it is turned around by the ascending sort. *)
Lemma sorted_descending_fixed l :
  StronglySorted (λ a b, key b < key a) l → sorted key true l = l.
Proof.
  unfold sorted. induction 1 as [|x l Hl IH Hx]; [done|]. cbn [foldr].
  rewrite IH. destruct l as [|y l]; [done|]. cbn [insert_by].
  inversion Hx as [|?? Hy _]; subst. by destruct (Z.leb_spec (key y) (key x)); [|lia].
Qed.

Lemma insert_by_last x l :
  Forall (λ y, key y < key x) l →
  insert_by (λ a b, key a <=? key b) x l = l ++ [x].
Proof.
  induction 1 as [|y l Hy _ IH]; [done|]. cbn [insert_by].
  destruct (Z.leb_spec (key x) (key y)); [lia|]. by rewrite IH.
Qed.

Lemma sorted_ascending_reverse l :
  StronglySorted (λ a b, key b < key a) l → sorted key false l = reverse l.
Proof.
  unfold sorted. induction 1 as [|x l Hl IH Hx]; [done|]. cbn [foldr].
  rewrite IH, reverse_cons. apply insert_by_last.
  by rewrite Forall_reverse.
Qed.

Lemma insert_by_last_reverse x l :
  Forall (λ y, key x < key y) l →
  insert_by (λ a b, key b <=? key a) x l = l ++ [x].
Proof.
  induction 1 as [|y l Hy _ IH]; [done|]. cbn [insert_by].
  destruct (Z.leb_spec (key y) (key x)); [lia|]. by rewrite IH.
Qed.

Lemma sorted_descending_reverse l :
  StronglySorted (λ a b, key a < key b) l → sorted key true l = reverse l.
Proof.
  unfold sorted. induction 1 as [|x l Hl IH Hx]; [done|]. cbn [foldr].
  rewrite IH, reverse_cons. apply insert_by_last_reverse.
  by rewrite Forall_reverse.
Qed.

Lemma StronglySorted_reverse (R : A → A → Prop) l :
  StronglySorted R l → StronglySorted (λ a b, R b a) (reverse l).
Proof.
  induction 1 as [|x l Hl IH Hx]; [constructor|]. rewrite reverse_cons.
  apply StronglySorted_app_2; [|done|by repeat constructor].
  intros a b Ha ->%list_elem_of_singleton. rewrite elem_of_reverse in Ha.
  rewrite Forall_forall in Hx. exact (Hx a Ha).
Qed.
End sorting.

Lemma StronglySorted_zip {A B} (R : A → A → Prop) (keys : list A) (l : list B) :
  StronglySorted R keys →
  StronglySorted (λ a b, R a.1 b.1) (zip keys l).
Proof.
  intros Hkeys. revert l. induction Hkeys as [|k keys Hs IH Hk]; intros l.
  { destruct l; constructor. }
  destruct l as [|x l]; [constructor|]. cbn [zip zip_with]. constructor; [apply IH|].
  apply Forall_forall. intros [k' x'] Hin%elem_of_zip_l. cbn.
  rewrite Forall_forall in Hk. by apply Hk.
Qed.

Section txt_export.
Import utils clip_utils.
Implicit Types (c nt : Clipping) (clips all_clips : list Clipping).

Lemma sorted_by_date_sorted clips sorted_clips :
  sorted_by_date clips = Ok sorted_clips →
  StronglySorted date_le sorted_clips ∧ sorted_clips ≡ₚ clips.
Proof.
  unfold sorted_by_date. destruct clips as [|a [|b clips]].
  - intros [= <-]. split; [constructor|done].
  - intros [= <-]. split; [by repeat constructor|done].
  - set (l := a :: b :: clips). destruct (forallb has_date l) eqn:Hdates; [|done].
    intros Heq. assert (sorted_clips = sorted date_key false l) as -> by congruence.
    clear Heq. split; [|apply sorted_perm].
    assert (Forall (λ c, has_date c = true) (sorted date_key false l)) as Hall.
    { rewrite sorted_perm. by apply forallb_Forall in Hdates. }
    pose proof (sorted_ascending date_key l) as Hsorted.
    induction Hsorted as [|x s Hs IH Hx]; [constructor|].
    inversion Hall as [|?? Hdx Hds]; subst. constructor; [by apply IH|].
    rewrite Forall_forall in Hx, Hds. apply Forall_forall. intros y Hy.
    specialize (Hx y Hy). specialize (Hds y Hy).
    unfold date_le, date_key, has_date in *.
    by destruct (date x), (date y).
Qed.

Lemma attach_note_without_note clips nt :
  map without_note (attach_note clips nt) = map without_note clips.
Proof.
  destruct (attach_note_cases clips nt) as [->|(l1 & c & l2 & -> & ->)]; [done|].
  by rewrite !map_app.
Qed.

Lemma foldl_attach_note_without_note notes clips :
  map without_note (foldl attach_note clips notes) = map without_note clips.
Proof.
  revert clips. induction notes as [|nt notes IH]; intros clips; [done|].
  cbn [foldl]. by rewrite IH, attach_note_without_note.
Qed.

Lemma foldl_attach_note_sorted notes clips :
  StronglySorted date_le clips →
  StronglySorted date_le (foldl attach_note clips notes).
Proof.
  revert clips. induction notes as [|nt notes IH]; intros clips Hs; [done|].
  cbn [foldl]. by apply IH, attach_note_sorted.
Qed.

(** X19. [parse_txt_clippings] on the clippings read from an export. What it
    returns is in timestamp order, so the scan for the most recent highlight
    is over an ascending list; it is the highlights of the export, each one
    once, with nothing but the note changed; the notes themselves are not
    returned; and the log has one line for every note. *)
Theorem parse_txt_clippings_sorted all_clips parsed_clips log :
  parse_txt_clippings all_clips = Ok (parsed_clips, log) →
  StronglySorted date_le parsed_clips ∧
  map without_note parsed_clips
  ≡ₚ map without_note (filter (λ c, type c = highlight) all_clips) ∧
  Forall (λ c, type c = highlight) parsed_clips ∧
  length log = length (filter (λ c, type c = note_) all_clips).
Proof.
  unfold parse_txt_clippings.
  destruct (sorted_by_date (filter (λ c, type c = highlight) all_clips))
    as [hl| |] eqn:Hhl; cbn [mbind res_bind]; [|done..].
  destruct (sorted_by_date (filter (λ c, type c = note_) all_clips))
    as [nts| |] eqn:Hnts; cbn [mbind res_bind]; [|done..].
  intros [= Heq].
  apply sorted_by_date_sorted in Hhl as [Hsorted Hperm].
  apply sorted_by_date_sorted in Hnts as [_ Hperm'].
  pose proof (attach_notes_fst hl [] nts) as Hfst.
  pose proof (attach_notes_snd hl [] nts) as Hsnd.
  rewrite Heq in Hfst, Hsnd. cbn [fst snd app] in Hfst, Hsnd. subst.
  assert (map without_note (foldl attach_note hl nts)
          ≡ₚ map without_note (filter (λ c, type c = highlight) all_clips)) as Hmap
    by (by rewrite foldl_attach_note_without_note, Hperm).
  split_and!.
  - by apply foldl_attach_note_sorted.
  - done.
  - assert (Forall (λ c, type c = highlight)
              (map without_note (foldl attach_note hl nts))) as Hty.
    { rewrite Hmap. apply Forall_forall.
      by intros c (c' & -> & [? _]%list_elem_of_filter)%list_elem_of_fmap. }
    rewrite Forall_forall in Hty. apply Forall_forall. intros c Hc.
    apply (Hty (without_note c)). apply list_elem_of_fmap. eauto.
  - by rewrite length_map, Hperm'.
Qed.

Lemma parse_txt_clippings_sorted_witness :
  StronglySorted date_le [hl_t1; set_note hl_t2 (content note_t3)] ∧
  map without_note [hl_t1; set_note hl_t2 (content note_t3)]
  ≡ₚ map without_note (filter (λ c, type c = highlight) [note_t3; hl_t2; hl_t1]) ∧
  Forall (λ c, type c = highlight) [hl_t1; set_note hl_t2 (content note_t3)] ∧
  length [NoteNotMatched (content note_t3) (location note_t3)]
  = length (filter (λ c, type c = note_) [note_t3; hl_t2; hl_t1]).
Proof. by apply (parse_txt_clippings_sorted [note_t3; hl_t2; hl_t1]). Defined.

(** X20. Two or more highlights of which one carries no date cannot be put
    in timestamp order: [parse_txt_clippings] raises [TypeError]. *)
Theorem parse_txt_clippings_undated all_clips c :
  (2 ≤ length (filter (λ c, type c = highlight) all_clips))%nat →
  c ∈ all_clips → type c = highlight → date c = None →
  parse_txt_clippings all_clips = Raise TypeError.
Proof.
  intros Hlen Hin Hty Hdate. unfold parse_txt_clippings, sorted_by_date.
  assert (c ∈ filter (λ c, type c = highlight) all_clips) as Hc
    by (by apply list_elem_of_filter).
  destruct (filter (λ c, type c = highlight) all_clips) as [|a [|b hl]];
    [simpl in Hlen; lia..|].
  destruct (forallb has_date (a :: b :: hl)) eqn:Hdates; [|done].
  apply forallb_Forall in Hdates. rewrite Forall_forall in Hdates.
  specialize (Hdates c Hc). unfold has_date in Hdates. by rewrite Hdate in Hdates.
Qed.

Lemma parse_txt_clippings_undated_witness :
  parse_txt_clippings
    [hl_t1; mkClipping (py "Book") highlight (Range 7 9) None None None (py "undated")]
  = Raise TypeError.
Proof.
  apply (parse_txt_clippings_undated _
           (mkClipping (py "Book") highlight (Range 7 9) None None None (py "undated")));
    [simpl; lia|by right; left|done..].
Defined.
End txt_export.

Section html_export.
Import utils clip_utils.
Implicit Types (elements : list Div).

Lemma class_is_text_not_heading element :
  class_is element (py "noteText") = true →
  class_is element (py "noteHeading") = false.
Proof.
  unfold class_is. destruct (div_class element) as [[|x [|??]]|]; try done.
  intros ->%str_eqb_eq. done.
Qed.

Lemma adjacent_pairs_cons heading text rest :
  adjacent_pairs (heading :: text :: rest)
  = (heading, text) :: adjacent_pairs (text :: rest).
Proof. done. Qed.

Lemma adjacent_pairs_after_pair text rest :
  class_is text (py "noteText") = true →
  filter (λ p, is_note_pair p = true) (adjacent_pairs (text :: rest))
  = filter (λ p, is_note_pair p = true) (adjacent_pairs rest).
Proof.
  intros Htext. destruct rest as [|r rest]; [done|].
  rewrite adjacent_pairs_cons. rewrite filter_cons_False; [done|].
  unfold is_note_pair. cbn [fst snd].
  by rewrite (class_is_text_not_heading text Htext).
Qed.

Lemma collect_clips_cons Clip heading text rest :
  collect_clips Clip (heading :: text :: rest)
  = if class_is heading (py "noteHeading") && class_is text (py "noteText")
    then clip_ ← Clip (strip (div_text heading)) (strip (div_text text));
         all_clips ← collect_clips Clip rest;
         Ok (clip_ :: all_clips)
    else collect_clips Clip (text :: rest).
Proof. done. Qed.

Lemma collect_clips_adjacent_aux n Clip elements :
  (length elements < n)%nat →
  collect_clips Clip elements
  = mapM (λ p, Clip (strip (div_text p.1)) (strip (div_text p.2)))
      (filter (λ p, is_note_pair p = true) (adjacent_pairs elements)).
Proof.
  revert elements. induction n as [|n IH]; intros elements Hlen; [lia|].
  destruct elements as [|heading [|text rest]]; [done..|].
  rewrite collect_clips_cons, adjacent_pairs_cons.
  destruct (class_is heading (py "noteHeading") && class_is text (py "noteText"))
    eqn:Hpair.
  - rewrite filter_cons_True by done.
    apply andb_true_iff in Hpair as [_ Htext].
    rewrite adjacent_pairs_after_pair by done.
    cbn [mapM fst snd]. by rewrite IH by (simpl in *; lia).
  - rewrite filter_cons_False by (unfold is_note_pair; cbn [fst snd]; congruence).
    apply IH. simpl in *. lia.
Qed.

(** X22. The pairing loop of [parse_html_clippings] finds every heading that
    is immediately followed by a text element, and nothing else: the
    clippings are built, in order, from all the neighbouring pairs of a
    [noteHeading] and a [noteText], and the first constructor that raises
    ends the loop with its exception. *)
Theorem collect_clips_adjacent (Clip : str → str → res Clipping) elements :
  collect_clips Clip elements
  = mapM (λ p, Clip (strip (div_text p.1)) (strip (div_text p.2)))
      (filter (λ p, is_note_pair p = true) (adjacent_pairs elements)).
Proof. apply (collect_clips_adjacent_aux (S (length elements))). lia. Qed.
End html_export.

Lemma map_fixed {A} (f : A → A) (l : list A) :
  Forall (λ x, f x = x) l → map f l = l.
Proof. induction 1 as [|x l Hx _ IH]; [done|]. cbn [map]. by rewrite Hx, IH. Qed.

Section strip_and_split.
Implicit Types (s sep line : str) (lines : list str).

Lemma is_infix_refl s : is_infix s s.
Proof. exists [], []. by rewrite app_nil_r. Qed.

Lemma is_infix_trans a b c : is_infix a b → is_infix b c → is_infix a c.
Proof.
  intros (l1 & l2 & ->) (m1 & m2 & ->). exists (m1 ++ l1), (l2 ++ m2).
  by rewrite <- !app_assoc.
Qed.

Lemma is_infix_elem_of a b x : is_infix a b → x ∈ a → x ∈ b.
Proof. intros (l1 & l2 & ->) Hx. rewrite !elem_of_app. by right; left. Qed.

Lemma lstrip_suffix s : ∃ ws, s = ws ++ lstrip s ∧ Forall (λ c, isspace c = true) ws.
Proof.
  induction s as [|c s (ws & IH & Hws)]; [by exists []|]. cbn [lstrip].
  destruct (isspace c) eqn:Hc.
  - exists (c :: ws). split; [by rewrite IH at 1|by constructor].
  - by exists [].
Qed.

Lemma rstrip_prefix s : ∃ ws, s = rstrip s ++ ws ∧ Forall (λ c, isspace c = true) ws.
Proof.
  induction s as [|c s (ws & IH & Hws)]; [by exists []|]. cbn [rstrip].
  destruct (rstrip s) as [|d r] eqn:Hr.
  - destruct (isspace c) eqn:Hc.
    + exists (c :: ws). split; [by rewrite IH at 1|by constructor].
    + exists ws. split; [by rewrite IH at 1|done].
  - exists ws. split; [by rewrite IH at 1|done].
Qed.

Lemma strip_infix s : is_infix (strip s) s.
Proof.
  unfold strip. destruct (lstrip_suffix s) as (ws1 & Hs & _).
  destruct (rstrip_prefix (lstrip s)) as (ws2 & Hl & _).
  exists ws1, ws2. by rewrite <- Hl.
Qed.

Lemma lstrip_app_space ws s :
  Forall (λ c, isspace c = true) ws → lstrip (ws ++ s) = lstrip s.
Proof. induction 1 as [|c ws Hc _ IH]; [done|]. cbn [app lstrip]. by rewrite Hc. Qed.

Lemma rstrip_all_space ws : Forall (λ c, isspace c = true) ws → rstrip ws = [].
Proof.
  induction 1 as [|c ws Hc _ IH]; [done|]. cbn [rstrip]. by rewrite IH, Hc.
Qed.

Lemma rstrip_app_space s ws :
  Forall (λ c, isspace c = true) ws → rstrip (s ++ ws) = rstrip s.
Proof.
  intros Hws. induction s as [|c s IH]; [by apply rstrip_all_space|].
  cbn [app rstrip]. by rewrite IH.
Qed.

Lemma strip_fixed s : starts_clean s → ends_clean s → strip s = s.
Proof. intros ??. unfold strip. by rewrite lstrip_fixed, rstrip_fixed. Qed.

Lemma strip_clean s : starts_clean (strip s) ∧ ends_clean (strip s).
Proof.
  split; [apply rstrip_starts_clean, lstrip_starts_clean|apply rstrip_ends_clean].
Qed.

Lemma strip_between ws1 s ws2 :
  Forall (λ c, isspace c = true) ws1 → Forall (λ c, isspace c = true) ws2 →
  s ≠ [] → starts_clean s → ends_clean s →
  strip (ws1 ++ s ++ ws2) = s.
Proof.
  intros Hws1 Hws2 Hne Hstart Hend. unfold strip.
  rewrite lstrip_app_space by done.
  rewrite lstrip_fixed by (by destruct s).
  by rewrite rstrip_app_space, rstrip_fixed.
Qed.

(** The pieces of a split are pieces of the string, and none of them
    holds the separator. *)
Lemma split_go_pieces_aux n sep s :
  sep ≠ [] → (length s < n)%nat →
  Forall (λ p, is_infix p s ∧ ¬ is_infix sep p) (split_go sep s 0 []).
Proof.
  intros Hsep. revert s. induction n as [|n IH]; intros s Hlen; [lia|].
  destruct (split_go_first sep s [] Hsep) as [[Hno ->]|(l1 & l2 & -> & Hmin & ->)].
  { repeat constructor; [apply is_infix_refl|done]. }
  change (reverse [] ++ l1) with l1. constructor.
  - split; [by exists [], (sep ++ l2)|]. intros (a & b & ->).
    specialize (Hmin a (b ++ sep ++ l2)). rewrite <- !app_assoc in Hmin.
    specialize (Hmin eq_refl). rewrite !length_app in Hmin.
    destruct sep; [done|]. simpl in Hmin. lia.
  - eapply Forall_impl; [apply IH|].
    + rewrite !length_app in Hlen. destruct sep; [done|]. simpl in Hlen. lia.
    + intros p [Hp Hno]. split; [|done].
      eapply is_infix_trans; [done|]. exists (l1 ++ sep), []. by rewrite app_nil_r, <- app_assoc.
Qed.

Lemma split_go_pieces sep s :
  sep ≠ [] →
  Forall (λ p, is_infix p s ∧ ¬ is_infix sep p) (split_go sep s 0 []).
Proof. intros. apply (split_go_pieces_aux (S (length s))); [done|lia]. Qed.

Lemma not_infix_singleton (x : char) s : ¬ is_infix [x] s → x ∉ s.
Proof.
  intros Hno Hx. apply list_elem_of_split in Hx as (l1 & l2 & ->).
  apply Hno. by exists l1, l2.
Qed.

(** Splitting at a character. *)
Lemma split_go_char_chunk (x : char) chunk r acc :
  x ∉ chunk →
  split_go [x] (chunk ++ r) 0 acc = split_go [x] r 0 (reverse chunk ++ acc).
Proof.
  revert acc. induction chunk as [|c chunk IH]; intros acc; [done|].
  intros [Hc Hchunk]%not_elem_of_cons. cbn [app split_go startswith].
  destruct (N.eqb_spec x c) as [->|_]; [done|]. cbn [andb].
  by rewrite IH, reverse_cons, <- app_assoc.
Qed.

Lemma split_go_char_here (x : char) r acc :
  split_go [x] (x :: r) 0 acc = reverse acc :: split_go [x] r 0 [].
Proof. cbn [split_go startswith]. by rewrite N.eqb_refl. Qed.

Lemma split_go_join_lines (x : char) lines acc :
  lines ≠ [] → Forall (λ line, x ∉ line) lines →
  split_go [x] (join [x] lines) 0 acc
  = match lines with
    | [] => []
    | line :: rest => (reverse acc ++ line) :: rest
    end.
Proof.
  intros Hne Hlines. revert acc.
  induction Hlines as [|line lines Hline Hlines IH]; intros acc; [done|].
  destruct lines as [|line' lines].
  - cbn [join]. rewrite <- (app_nil_r line) at 1.
    rewrite split_go_char_chunk by done. cbn [split_go].
    by rewrite reverse_app, reverse_involutive.
  - change (join [x] (line :: line' :: lines))
      with (line ++ [x] ++ join [x] (line' :: lines)).
    rewrite split_go_char_chunk by done. cbn [app].
    rewrite split_go_char_here, IH by done.
    by rewrite reverse_app, reverse_involutive.
Qed.

(** Splitting at a separator that follows a newline. *)
Lemma split_go_after_newline sep text rest acc :
  sep ≠ [] → NEWLINE ∉ sep → ¬ is_infix sep text →
  split_go sep (text ++ [NEWLINE] ++ sep ++ rest) 0 acc
  = (reverse acc ++ text ++ [NEWLINE]) :: split_go sep rest 0 [].
Proof.
  intros Hsep Hnl. revert acc.
  assert (∀ u, startswith (NEWLINE :: u) sep = false) as Hhere.
  { intros u. destruct (startswith _ _) eqn:Hs; [|done].
    apply startswith_prefix in Hs as [r Hr]. destruct sep as [|y sep']; [done|].
    simplify_eq/=. destruct Hnl. by left. }
  induction text as [|c text IH]; intros acc Hno.
  - cbn [app split_go]. rewrite (Hhere (sep ++ rest)).
    assert (∃ y sep', sep = y :: sep') as (y & sep' & ->)
      by (destruct sep; [done|by eexists _, _]).
    cbn [app split_go].
    assert (startswith (y :: sep' ++ rest) (y :: sep') = true) as ->
      by (apply startswith_prefix; by exists rest).
    rewrite split_go_skip.
    replace (length (y :: sep') - 1)%nat with (length sep') by (simpl; lia).
    by rewrite drop_app_length, reverse_cons.
  - cbn [app split_go].
    assert (startswith (c :: text ++ NEWLINE :: sep ++ rest) sep = false) as ->.
    { destruct (startswith _ _) eqn:Hs; [|done].
      apply startswith_prefix in Hs as [r Hr].
      change (c :: text ++ NEWLINE :: sep ++ rest)
        with ((c :: text) ++ NEWLINE :: sep ++ rest) in Hr.
      apply app_eq_app in Hr as [l [[Htext Hr]|[Hs Hr]]].
      - destruct Hno. exists [], l. by rewrite Htext.
      - destruct l as [|z l].
        + rewrite app_nil_r in Hs. destruct Hno. exists [], []. by rewrite Hs, app_nil_r.
        + simplify_eq/=. destruct Hnl. apply elem_of_cons; right.
          apply elem_of_app; right. by left. }
    change (text ++ NEWLINE :: sep ++ rest) with (text ++ [NEWLINE] ++ sep ++ rest).
    rewrite IH.
    + by rewrite reverse_cons, <- !app_assoc.
    + intros (l1 & l2 & ->). apply Hno. by exists (c :: l1), l2.
Qed.
End strip_and_split.

Section txt_files.
Import utils clip_utils.
Implicit Types (s raw chunk line : str) (lines clip : list str).
Implicit Types (clips : list (list str)).

Lemma separator_no_newline : NEWLINE ∉ CLIP_SEPARATOR.
Proof. by apply (bool_decide_unpack _). Qed.

Lemma clip_lines_good chunk :
  ¬ is_infix CLIP_SEPARATOR chunk → Forall good_line (clip_lines chunk).
Proof.
  intros Hno. unfold clip_lines. apply Forall_forall.
  intros line (l0 & -> & [Hne Hl0]%list_elem_of_filter)%list_elem_of_fmap.
  pose proof (split_go_pieces [NEWLINE] (strip chunk) ltac:(done)) as Hpieces.
  rewrite Forall_forall in Hpieces. destruct (Hpieces l0 Hl0) as [Hin Hnl].
  destruct (strip_clean l0) as [Hstart Hend].
  split_and!; [by destruct (strip l0)|done|done| |].
  - intros Hx. apply (not_infix_singleton _ _ Hnl).
    by eapply is_infix_elem_of; [apply strip_infix|].
  - intros Hsep. apply Hno.
    eapply is_infix_trans; [done|]. eapply is_infix_trans; [apply strip_infix|].
    eapply is_infix_trans; [done|]. apply strip_infix.
Qed.

Lemma kept_clips_good raw : Forall good_clip (kept_clips raw).
Proof.
  unfold kept_clips. apply Forall_forall.
  intros clip [Hkeep (chunk & -> & Hchunk)%list_elem_of_fmap]%list_elem_of_filter.
  split; [done|]. apply clip_lines_good.
  pose proof (split_go_pieces CLIP_SEPARATOR (filter (λ c, c ≠ 0xfeff%N) raw)
                ltac:(done)) as Hpieces.
  rewrite Forall_forall in Hpieces. by destruct (Hpieces chunk Hchunk).
Qed.

Lemma txt_entry_keeps lines :
  txt_entry lines
  = if keeps_lines lines then Some (first_three lines) else None.
Proof. by destruct lines as [|a [|b [|c rest]]]. Qed.

Lemma omap_txt_entry clips :
  omap txt_entry clips
  = map first_three (filter (λ lines, keeps_lines lines = true) clips).
Proof.
  induction clips as [|lines clips IH]; [done|]. cbn [omap list_omap].
  rewrite txt_entry_keeps. destruct (keeps_lines lines) eqn:Hk.
  - rewrite filter_cons_True by done. cbn [map]. by rewrite <- IH.
  - rewrite filter_cons_False by congruence. done.
Qed.

Lemma omap_compose {A B C} (f : A → B) (g : B → option C) (l : list A) :
  omap (λ x, g (f x)) l = omap g (map f l).
Proof.
  induction l as [|x l IH]; [done|]. cbn [omap list_omap map].
  by rewrite IH.
Qed.

Lemma txt_entries_kept raw :
  txt_entries (filter (λ c, c ≠ 0xfeff%N) raw) = map first_three (kept_clips raw).
Proof. unfold txt_entries, kept_clips. by rewrite omap_compose, omap_txt_entry. Qed.

Lemma not_infix_app_newline sep a b :
  sep ≠ [] → NEWLINE ∉ sep → ¬ is_infix sep a → ¬ is_infix sep b →
  ¬ is_infix sep (a ++ [NEWLINE] ++ b).
Proof.
  intros Hsep Hnl Ha Hb (l1 & l2 & Heq).
  apply app_eq_app in Heq as [l [[Hl Heq]|[Hl Heq]]].
  - symmetry in Heq. apply app_eq_app in Heq as [l' [[Hl' Heq]|[Hl' Heq]]].
    + subst. apply Ha. by exists l1, l'.
    + destruct l' as [|z l'].
      * rewrite app_nil_r in Hl'. subst. apply Ha. exists l1, []. by rewrite app_nil_r.
      * simplify_eq/=. apply Hnl. rewrite elem_of_app. right. by left.
  - destruct l as [|z l].
    + cbn [app] in Heq. destruct sep as [|y sep']; [done|].
      simplify_eq/=. apply Hnl. by left.
    + simplify_eq/=. apply Hb. by exists l, l2.
Qed.

Lemma not_infix_join sep lines :
  sep ≠ [] → NEWLINE ∉ sep → Forall (λ line, ¬ is_infix sep line) lines →
  ¬ is_infix sep (join [NEWLINE] lines).
Proof.
  intros Hsep Hnl. induction 1 as [|line lines Hline Hlines IH].
  { intros (l1 & l2 & Heq). destruct l1, sep; simplify_eq/=. }
  destruct lines as [|line' lines]; [done|].
  change (join [NEWLINE] (line :: line' :: lines))
    with (line ++ [NEWLINE] ++ join [NEWLINE] (line' :: lines)).
  by apply not_infix_app_newline.
Qed.

Lemma join_starts_clean line lines :
  line ≠ [] → starts_clean line → starts_clean (join [NEWLINE] (line :: lines)).
Proof.
  intros Hne Hstart. destruct lines; [done|]. cbn [join]. by destruct line.
Qed.

Lemma join_nonempty line lines : line ≠ [] → join [NEWLINE] (line :: lines) ≠ [].
Proof. intros Hne. destruct lines; [done|]. cbn [join]. by destruct line. Qed.

Lemma join_ends_clean lines :
  lines ≠ [] → Forall (λ line, line ≠ [] ∧ ends_clean line) lines →
  ends_clean (join [NEWLINE] lines).
Proof.
  intros Hne. induction 1 as [|line lines [Hline Hend] Hlines IH]; [done|].
  destruct lines as [|line' lines]; [done|].
  change (join [NEWLINE] (line :: line' :: lines))
    with (line ++ [NEWLINE] ++ join [NEWLINE] (line' :: lines)).
  rewrite app_assoc. apply ends_clean_app; [|by apply IH].
  inversion Hlines as [|?? [??] _]; subst. by apply join_nonempty.
Qed.

(** The lines of an entry are read back from what was written for it,
    whether or not the newline that ends the previous separator line comes
    first. *)
Lemma clip_lines_written lead lines :
  Forall (λ c, isspace c = true) lead →
  lines ≠ [] → Forall good_line lines →
  clip_lines (lead ++ join [NEWLINE] lines ++ [NEWLINE]) = lines.
Proof.
  intros Hlead Hne Hlines. unfold clip_lines.
  destruct lines as [|line rest]; [done|].
  pose proof Hlines as Hlines'. rewrite Forall_forall in Hlines'.
  destruct (Hlines' line ltac:(by left)) as (Hl1 & Hl2 & _).
  rewrite strip_between;
    [|done|by repeat constructor|by apply join_nonempty|by apply join_starts_clean|].
  2:{ apply join_ends_clean; [done|]. eapply Forall_impl; [done|].
      by intros l (? & _ & ? & _). }
  rewrite split_go_join_lines;
    [|done|by eapply Forall_impl; [done|]; intros l (_ & _ & _ & ? & _)].
  change (reverse [] ++ line) with line.
  assert (∀ l, good_line l → strip l = l) as Hfixed
    by (intros l (_ & ? & ? & _); by apply strip_fixed).
  rewrite filter_all.
  - apply map_fixed. eapply Forall_impl; [done|]. apply Hfixed.
  - eapply Forall_impl; [done|]. intros l Hl. rewrite (Hfixed l Hl).
    destruct Hl as [Hl _]. by destruct l.
Qed.

Lemma written_clips_read lead clips :
  lead = [] ∨ lead = [NEWLINE] →
  Forall good_clip clips →
  omap (λ chunk, txt_entry (clip_lines chunk))
    (split_go CLIP_SEPARATOR (lead ++ concat (map written_clip clips)) 0 [])
  = map first_three clips.
Proof.
  intros Hlead Hclips. revert lead Hlead.
  induction Hclips as [|clip clips [Hkeep Hlines] _ IH]; intros lead Hlead.
  { cbn [map concat]. rewrite app_nil_r. by destruct Hlead as [-> | ->]. }
  cbn [map concat]. unfold written_clip at 1.
  assert (clip ≠ []) as Hne by (by destruct clip).
  replace (lead ++ (join [NEWLINE] clip ++ [NEWLINE] ++ CLIP_SEPARATOR ++ [NEWLINE])
           ++ concat (map written_clip clips))
    with ((lead ++ join [NEWLINE] clip) ++ [NEWLINE] ++ CLIP_SEPARATOR
          ++ [NEWLINE] ++ concat (map written_clip clips))
    by (by rewrite <- !app_assoc).
  rewrite split_go_after_newline; [|done|apply separator_no_newline|].
  2:{ assert (Forall (λ line, ¬ is_infix CLIP_SEPARATOR line) clip) as Hno
        by (eapply Forall_impl; [done|]; by intros l (_ & _ & _ & _ & ?)).
      destruct Hlead as [-> | ->].
      - by apply not_infix_join; [|apply separator_no_newline|].
      - destruct clip as [|line rest]; [done|].
        change ([NEWLINE] ++ join [NEWLINE] (line :: rest))
          with (join [NEWLINE] ([] :: line :: rest)).
        apply not_infix_join; [done|apply separator_no_newline|].
        constructor; [|done]. intros (l1 & l2 & Heq). by destruct l1. }
  change (reverse [] ++ ?l) with l. cbn [omap list_omap].
  rewrite <- app_assoc, clip_lines_written; [|by destruct Hlead as [-> | ->];
    repeat constructor|done..].
  rewrite txt_entry_keeps, Hkeep. f_equal. apply IH. by right.
Qed.

Lemma txt_entries_written clips :
  Forall good_clip clips →
  txt_entries (concat (map written_clip clips)) = map first_three clips.
Proof. intros. by apply (written_clips_read []); [left|]. Qed.

Implicit Types (d : list (str * list (list str))).

Lemma dict_append_new d k clip :
  k ∉ d.*1 → dict_append d k clip = d ++ [(k, [clip])].
Proof.
  induction d as [|[t cs] d IH]; [done|]. cbn [fmap list_fmap fst].
  intros [Hk Hd]%not_elem_of_cons. cbn [dict_append].
  destruct (str_eqb t k) eqn:Ht; [by apply str_eqb_eq in Ht|].
  cbn [app]. by rewrite IH.
Qed.

Lemma dict_append_old d1 k cs d2 clip :
  k ∉ d1.*1 →
  dict_append (d1 ++ (k, cs) :: d2) k clip = d1 ++ (k, cs ++ [clip]) :: d2.
Proof.
  induction d1 as [|[t cs'] d1 IH]; cbn [fmap list_fmap fst app dict_append].
  - intros _. assert (str_eqb k k = true) as -> by by apply str_eqb_eq. done.
  - intros [Hk Hd]%not_elem_of_cons.
    destruct (str_eqb t k) eqn:Ht; [by apply str_eqb_eq in Ht|]. by rewrite IH.
Qed.

Lemma dict_key_split d k :
  k ∈ d.*1 → ∃ d1 cs d2, d = d1 ++ (k, cs) :: d2 ∧ k ∉ d1.*1.
Proof.
  induction d as [|[t cs] d IH]; cbn [fmap list_fmap fst].
  { by intros ?%elem_of_nil. }
  destruct (decide (k = t)) as [->|Hne].
  { intros _. exists [], cs, d. split; [done|apply not_elem_of_nil]. }
  intros [?|Hin]%elem_of_cons; [done|].
  destruct (IH Hin) as (d1 & cs' & d2 & -> & Hd1).
  exists ((t, cs) :: d1), cs', d2. split; [done|].
  cbn [fmap list_fmap fst]. by apply not_elem_of_cons.
Qed.

Lemma filter_snoc_title t seen clip :
  filter (λ clip, file_title clip = t) (seen ++ [clip])
  = filter (λ clip, file_title clip = t) seen
    ++ (if decide (file_title clip = t) then [clip] else []).
Proof.
  by rewrite filter_app.
Qed.

Lemma grouped_step d seen clip :
  grouped d seen →
  grouped (dict_append d (file_title clip) clip) (seen ++ [clip]).
Proof.
  intros (Hnodup & Hall & Hd). set (k := file_title clip).
  destruct (decide (k ∈ d.*1)) as [Hin|Hnew].
  - destruct (dict_key_split d k Hin) as (d1 & cs & d2 & -> & Hd1).
    rewrite dict_append_old by done.
    assert ((d1 ++ (k, cs ++ [clip]) :: d2).*1 = (d1 ++ (k, cs) :: d2).*1) as Hkeys
      by (by rewrite !fmap_app).
    split_and!.
    + by rewrite Hkeys.
    + rewrite Hkeys. intros c [Hc| ->%list_elem_of_singleton]%elem_of_app;
        [by apply Hall|done].
    + intros t cs' Hin'. rewrite filter_snoc_title. fold k.
      apply elem_of_app in Hin' as [Hin'|[Heq|Hin']%elem_of_cons].
      * destruct (Hd t cs') as [? ->]; [apply elem_of_app; by left|].
        split; [done|]. destruct (decide (k = t)) as [<-|]; [|by rewrite app_nil_r].
        destruct Hd1. apply list_elem_of_fmap. by exists (k, filter (λ c, file_title c = k) seen).
      * injection Heq as -> ->. destruct (Hd k cs) as [? Hcs];
          [apply elem_of_app; right; by left|].
        split; [by destruct cs|]. rewrite <- Hcs. by rewrite decide_True.
      * destruct (Hd t cs') as [? ->]; [apply elem_of_app; right; by right|].
        split; [done|]. destruct (decide (k = t)) as [<-|]; [|by rewrite app_nil_r].
        rewrite fmap_app in Hnodup. apply NoDup_app in Hnodup as (_ & _ & Hnd).
        cbn [fmap list_fmap fst] in Hnd. apply NoDup_cons in Hnd as [Hk _].
        destruct Hk. apply list_elem_of_fmap.
        by exists (k, filter (λ c, file_title c = k) seen).
  - rewrite dict_append_new by done. split_and!.
    + rewrite fmap_app. apply NoDup_app. split_and!; [done| |apply NoDup_singleton].
      intros x Hx ->%list_elem_of_singleton. done.
    + rewrite fmap_app. intros c [Hc| ->%list_elem_of_singleton]%elem_of_app;
        apply elem_of_app; [left; by apply Hall|right; by left].
    + intros t cs Hin'. rewrite filter_snoc_title. fold k.
      apply elem_of_app in Hin' as [Hin'|Heq%list_elem_of_singleton].
      * destruct (Hd t cs Hin') as [? ->]. split; [done|].
        destruct (decide (k = t)) as [<-|]; [|by rewrite app_nil_r].
        destruct Hnew. apply list_elem_of_fmap.
        by exists (k, filter (λ c, file_title c = k) seen).
      * injection Heq as -> ->. split; [done|]. rewrite decide_True by done.
        destruct (filter (λ c, file_title c = k) seen) as [|c' rest] eqn:Hf; [done|].
        assert (c' ∈ filter (λ c, file_title c = k) seen) as Hc'
          by (rewrite Hf; by left).
        apply list_elem_of_filter in Hc' as [Hk Hc']. destruct Hnew.
        rewrite <- Hk. by apply Hall.
Qed.

Lemma group_by_title_grouped clips acc seen :
  Forall (λ clip, clip ≠ []) clips → grouped acc seen →
  ∃ d, group_by_title clips acc = Ok d ∧ grouped d (seen ++ clips).
Proof.
  intros Hclips. revert acc seen.
  induction Hclips as [|clip clips Hclip _ IH]; intros acc seen Hacc.
  { exists acc. by rewrite app_nil_r. }
  destruct clip as [|line rest]; [done|]. cbn [group_by_title].
  change (getitem (line :: rest) 0) with (Ok line). cbn [mbind res_bind].
  destruct (IH (dict_append acc (sanitize_title line) (line :: rest))
              (seen ++ [line :: rest])) as (d & -> & Hd).
  { by apply (grouped_step acc seen (line :: rest)). }
  exists d. split; [done|]. by rewrite <- app_assoc in Hd.
Qed.

Lemma first_three_title clip :
  keeps_lines clip = true → sanitize_title (first_three clip).1.1 = file_title clip.
Proof. by destruct clip as [|a [|b [|c rest]]]. Qed.

Lemma filter_first_three t clips :
  Forall (λ clip, keeps_lines clip = true) clips →
  filter (λ e, sanitize_title e.1.1 = t) (map first_three clips)
  = map first_three (filter (λ clip, file_title clip = t) clips).
Proof.
  induction 1 as [|clip clips Hclip _ IH]; [done|]. cbn [map].
  rewrite !filter_cons, (first_three_title clip Hclip), IH.
  by destruct (decide (file_title clip = t)).
Qed.

Lemma sanitize_title_clean t : Forall (λ c, c ∉ forbidden_in_title) (sanitize_title t).
Proof.
  apply Forall_forall. intros c [Hc _]%list_elem_of_filter Hin.
  apply existsb_eqb_elem_of in Hin. congruence.
Qed.

(** The dictionary built from an export, and the texts to be written. *)
Lemma group_by_title_files raw :
  ∃ d, group_by_title (kept_clips raw) [] = Ok d ∧
    let entries := txt_entries (filter (λ c, c ≠ 0xfeff%N) raw) in
    NoDup d.*1 ∧
    (∀ e, e ∈ entries → sanitize_title e.1.1 ∈ d.*1) ∧
    ∀ t cs, (t, cs) ∈ d →
      Forall (λ c, c ∉ forbidden_in_title) t ∧
      (∃ e, e ∈ entries ∧ sanitize_title e.1.1 = t) ∧
      txt_entries (concat (map written_clip cs)) ≠ [] ∧
      txt_entries (concat (map written_clip cs))
      = filter (λ e, sanitize_title e.1.1 = t) entries.
Proof.
  cbv zeta. rewrite txt_entries_kept.
  pose proof (kept_clips_good raw) as Hgood.
  assert (Forall (λ clip, keeps_lines clip = true) (kept_clips raw)) as Hkept
    by (eapply Forall_impl; [done|]; by intros clip [? _]).
  destruct (group_by_title_grouped (kept_clips raw) [] []) as (d & -> & Hd).
  { eapply Forall_impl; [done|]. intros clip Hk. by destruct clip. }
  { split_and!; [constructor|by intros ? ?%elem_of_nil|by intros ?? ?%elem_of_nil]. }
  cbn [app] in Hd. destruct Hd as (Hnodup & Hall & Hd).
  exists d. split; [done|]. split_and!; [done| |].
  - intros e (clip & -> & Hclip)%list_elem_of_fmap.
    rewrite Forall_forall in Hkept. rewrite first_three_title by by apply Hkept.
    by apply Hall.
  - intros t cs Hin. destruct (Hd t cs Hin) as [Hne Hcs].
    assert (Forall good_clip cs) as Hcsgood.
    { rewrite Hcs. apply Forall_forall. intros clip [_ Hclip]%list_elem_of_filter.
      rewrite Forall_forall in Hgood. by apply Hgood. }
    rewrite txt_entries_written by done.
    destruct cs as [|clip cs'] eqn:Hcseq; [done|].
    assert (clip ∈ filter (λ clip, file_title clip = t) (kept_clips raw)) as Hclip
      by (rewrite <- Hcs; by left).
    apply list_elem_of_filter in Hclip as [Htitle Hclip].
    split_and!.
    + rewrite <- Htitle. apply sanitize_title_clean.
    + exists (first_three clip). split; [by apply list_elem_of_fmap_2|].
      rewrite Forall_forall in Hkept. by rewrite first_three_title by by apply Hkept.
    + done.
    + by rewrite filter_first_three, <- Hcs.
Qed.

Lemma write_files_all write_file (d : list (str * list (list str))) :
  (∀ t cs, (t, cs) ∈ d →
     write_file (t ++ py ".txt") (concat (map written_clip cs)) = Ok tt) →
  write_files write_file d
  = Ok (map (λ entry, (entry.1, concat (map written_clip entry.2))) d).
Proof.
  induction d as [|[t cs] d IH]; intros Hw; [done|].
  cbn [write_files]. rewrite (Hw t cs) by by left. cbn [mbind res_bind].
  rewrite IH by (intros t' cs' Hin; apply Hw; by right). done.
Qed.

Lemma write_files_refused write_file (d : list (str * list (list str))) t cs :
  (t, cs) ∈ d →
  (∀ text, write_file (t ++ py ".txt") text ≠ Ok tt) →
  ∀ files, write_files write_file d ≠ Ok files.
Proof.
  intros Hin Hw. induction d as [|[t' cs'] d IH]; [by apply elem_of_nil in Hin|].
  intros files. cbn [write_files].
  destruct (write_file (t' ++ py ".txt") (concat (map written_clip cs')))
    as [[]| |] eqn:Hwrite; [|done..].
  cbn [mbind res_bind]. apply elem_of_cons in Hin as [Heq|Hin].
  - injection Heq as -> ->. by destruct (Hw _ Hwrite).
  - by destruct (write_files write_file d) as [fs| |] eqn:Hrest;
      [destruct (IH Hin fs)|..].
Qed.

(** X21. [split_txt_clippings_by_title] and the reader of
    [parse_txt_clippings] fit together. Without the export the splitter
    raises [FileNotFoundError]. When the export is read, the directory is
    made and the file of every title can be written, the splitter returns;
    the files it writes have distinct titles, free of the characters removed
    from titles; every entry of the export has its file; and reading back
    the text written for a title gives exactly the entries of the export
    (its byte order marks removed) whose title, once cleaned, is this one,
    in their order, and at least one. When the file of the title of some
    entry cannot be written, the splitter does not return. *)
Theorem split_txt_clippings_by_title_read_back
    (is_file : bool) (read : res str) (mkdir : res unit)
    (write_file : str → str → res unit) (raw : str) :
  let entries := txt_entries (filter (λ c, c ≠ 0xfeff%N) raw) in
  let run := split_txt_clippings_by_title is_file read mkdir write_file in
  (is_file = false → run = Raise FileNotFoundError) ∧
  (is_file = true → read = Ok raw → mkdir = Ok tt →
   (∀ e text, e ∈ entries →
      write_file (sanitize_title e.1.1 ++ py ".txt") text = Ok tt) →
   ∃ files,
     run = Ok files ∧
     NoDup files.*1 ∧
     (∀ e, e ∈ entries → sanitize_title e.1.1 ∈ files.*1) ∧
     ∀ title_ text, (title_, text) ∈ files →
       Forall (λ c, c ∉ forbidden_in_title) title_ ∧
       txt_entries text ≠ [] ∧
       txt_entries text = filter (λ e, sanitize_title e.1.1 = title_) entries) ∧
  (is_file = true → read = Ok raw →
   ∀ e, e ∈ entries →
     (∀ text, write_file (sanitize_title e.1.1 ++ py ".txt") text ≠ Ok tt) →
     ∀ files, run ≠ Ok files).
Proof.
  cbv zeta. unfold split_txt_clippings_by_title.
  destruct (group_by_title_files raw) as (d & Hgroup & Hnodup & Hall & Hd).
  split_and!.
  - by intros ->.
  - intros -> -> -> Hwrite. cbn [mbind res_bind]. rewrite Hgroup.
    cbn [mbind res_bind]. rewrite write_files_all.
    + assert ((map (λ entry : str * list (list str),
                      (entry.1, concat (map written_clip entry.2))) d).*1 = d.*1)
        as Hkeys.
      { rewrite <- list_fmap_compose. by apply list_fmap_ext. }
      eexists. split; [done|]. rewrite Hkeys. split_and!; [done..|].
      intros t0 text0 ([t cs] & Heq & Hin)%list_elem_of_fmap.
      cbn [fst snd] in Heq. injection Heq as -> ->.
      destruct (Hd t cs Hin) as (? & _ & ? & ?). done.
    + intros t cs Hin. destruct (Hd t cs Hin) as (_ & (e & He & <-) & _).
      by apply Hwrite.
  - intros -> -> e He Hwrite files. cbn [mbind res_bind]. rewrite Hgroup.
    cbn [mbind res_bind]. destruct mkdir as [[]| |]; [|done..].
    cbn [mbind res_bind].
    apply Hall in He. apply list_elem_of_fmap in He as ([t cs] & Ht & Hin).
    cbn [fst] in Ht. rewrite Ht in Hwrite.
    by apply (write_files_refused write_file d t cs).
Qed.

Lemma split_txt_clippings_by_title_read_back_witness :
  split_txt_clippings_by_title false (Ok two_book_export) (Ok tt) (λ _ _, Ok tt)
  = Raise FileNotFoundError ∧
  (∃ files,
     split_txt_clippings_by_title true (Ok two_book_export) (Ok tt)
       (λ _ _, Ok tt)
     = Ok files ∧
     NoDup files.*1 ∧
     (∀ e, e ∈ txt_entries (filter (λ c, c ≠ 0xfeff%N) two_book_export) →
        sanitize_title e.1.1 ∈ files.*1) ∧
     ∀ title_ text, (title_, text) ∈ files →
       Forall (λ c, c ∉ forbidden_in_title) title_ ∧
       txt_entries text ≠ [] ∧
       txt_entries text
       = filter (λ e, sanitize_title e.1.1 = title_)
           (txt_entries (filter (λ c, c ≠ 0xfeff%N) two_book_export))) ∧
  ∀ files,
    split_txt_clippings_by_title true (Ok two_book_export) (Ok tt)
      (λ name _, if str_eqb name (py "Emma a novel.txt")
                 then Raise ValueError else Ok tt)
    ≠ Ok files.
Proof.
  split; [|split].
  - by apply (proj1 (split_txt_clippings_by_title_read_back
                       false (Ok two_book_export) (Ok tt) (λ _ _, Ok tt)
                       two_book_export)).
  - by apply (proj1 (proj2 (split_txt_clippings_by_title_read_back
                              true (Ok two_book_export) (Ok tt) (λ _ _, Ok tt)
                              two_book_export))).
  - apply (proj2 (proj2 (split_txt_clippings_by_title_read_back
             true (Ok two_book_export) (Ok tt)
             (λ name _, if str_eqb name (py "Emma a novel.txt")
                        then Raise ValueError else Ok tt) two_book_export))
             eq_refl eq_refl
             (py "Emma: a novel", py "- Highlight at 7",
              py "handsome, clever, and rich")).
    + vm_compute. right. left.
    + intros text. by vm_compute.
Defined.

(** The files written for this export: one for each title, the colon gone
    from the name of the second and kept in its text. *)
Example split_txt_clippings_by_title_example :
  split_txt_clippings_by_title true (Ok two_book_export) (Ok tt) (λ _ _, Ok tt)
  = Ok [(py "Dune",
         py "Dune" ++ [NEWLINE] ++ py "- Highlight at 1-5" ++ [NEWLINE]
         ++ py "Fear is the mind-killer." ++ [NEWLINE] ++ CLIP_SEPARATOR
         ++ [NEWLINE]
         ++ py "Dune" ++ [NEWLINE] ++ py "- Note at 5" ++ [NEWLINE]
         ++ py "litany" ++ [NEWLINE] ++ CLIP_SEPARATOR ++ [NEWLINE]);
        (py "Emma a novel",
         py "Emma: a novel" ++ [NEWLINE] ++ py "- Highlight at 7"
         ++ [NEWLINE] ++ py "handsome, clever, and rich" ++ [NEWLINE]
         ++ CLIP_SEPARATOR ++ [NEWLINE])].
Proof. by vm_compute. Qed.
End txt_files.

(** * Further properties of the orchestrator *)

Section orchestrator_matches.
Import utils re_kindle.
Implicit Types (c : Clipping) (m : Match) (spine items : list Item).

Lemma first_passing c items :
  Forall (λ item, ¬ passes c item) items ∨
  ∃ pre item post, items = pre ++ item :: post ∧
    Forall (λ item, ¬ passes c item) pre ∧ passes c item.
Proof.
  induction items as [|item items IH]; [by left|].
  assert (passes c item ∨ ¬ passes c item) as [Hp|Hp]
    by (unfold passes; destruct (contains _ _); [by left|by right]).
  { right. by exists [], item, items. }
  destruct IH as [Hall|(pre & item' & post & -> & Hpre & Hitem)].
  - left. by constructor.
  - right. exists (item :: pre), item', post. split_and!; [done| |done].
    by constructor.
Qed.

(** What the loop of [find_clip_in_spine] returns when it returns a match. *)
Lemma find_clip_loop_match c items offset start_from m :
  find_clip_loop c (remove_spaces (content c)) items offset start_from
  = Ok (Some m) →
  ∃ pre item post lo n,
    items = pre ++ item :: post ∧
    Forall (λ item, ¬ passes c item) pre ∧ passes c item ∧
    clip m = c ∧ spine_ix m = start_from + offset + len pre ∧
    matched_tag_indices m = map Z.of_nat (seq lo n) ∧
    (lo + n ≤ length (find_all_p item))%nat ∧
    all_tag_str m
    = normalize_whitespace
        (concat (map tag_str (take n (drop lo (find_all_p item))))) ∧
    min_window_subsequence (all_tag_str m) (remove_spaces (content c))
    = Ok (pre_highlight m).
Proof.
  destruct (first_passing c items) as [Hall|(pre & item & post & -> & Hpre & Hitem)].
  { rewrite <- (app_nil_r items), (find_clip_loop_skip c _ items []); done. }
  rewrite (find_clip_loop_skip c _ pre (item :: post)) by done.
  destruct (find_clip_loop_hit c item post (offset + len pre) start_from Hitem)
    as (r & -> & Hr).
  destruct (find_text_spans (find_all_p item) (content c)) as [matched|];
    [|by rewrite Hr].
  destruct Hr as (lo & n & all_tag & w & -> & -> & Hle & -> & Hw).
  intros [= <-]. exists pre, item, post, lo, n. cbn.
  split_and!; (done || lia).
Qed.

Lemma window_infix (s : str) b e :
  0 <= b → b <= e → e <= len s → is_infix (seg s b e) s.
Proof.
  intros. exists (seg s 0 b), (seg s e (len s)). by apply seg_split.
Qed.

(** X14. Every match that [find_clip_in_spine] returns is well formed. Its
    document index points at the first document that passes the space-free
    test; its block indices are consecutive positions of that document's
    blocks; its markup is the concatenation of those blocks, normalized; and
    its window is empty, or it is a piece of that markup that holds the
    characters of the clipping, spaces removed, in order. *)
Theorem find_clip_in_spine_match c spine m :
  find_clip_in_spine c spine 0 = Ok (Some m) →
  clip m = c ∧
  ∃ pre item post lo n,
    spine = pre ++ item :: post ∧ spine_ix m = len pre ∧
    Forall (λ item, ¬ passes c item) pre ∧ passes c item ∧
    matched_tag_indices m = map Z.of_nat (seq lo n) ∧
    (lo + n ≤ length (find_all_p item))%nat ∧
    all_tag_str m
    = normalize_whitespace
        (concat (map tag_str (take n (drop lo (find_all_p item))))) ∧
    (pre_highlight m = [] ∨
     is_infix (pre_highlight m) (all_tag_str m) ∧
     remove_spaces (content c) `sublist_of` pre_highlight m).
Proof.
  unfold find_clip_in_spine. rewrite slice_all.
  intros (pre & item & post & lo & n & -> & Hpre & Hitem & Hclip & Hix & Hidx
          & Hle & Htags & Hwin)%find_clip_loop_match.
  split; [done|]. exists pre, item, post, lo, n.
  split_and!; [done|lia|done..|].
  destruct (remove_spaces (content c)) as [|x t] eqn:Ht.
  { left. destruct (all_tag_str m) as [|y s]; [by injection Hwin|].
    by vm_compute in Hwin. }
  destruct (min_window_subsequence_cases (all_tag_str m) (x :: t))
    as [[Hrun _]|(b & l & Hrun & (? & ? & ? & Hsub) & _)]; [done|..];
    rewrite Hrun in Hwin; injection Hwin as <-; [by left|right].
  split; [apply window_infix; lia|done].
Qed.

Lemma find_clip_in_spine_match_witness :
  clip quick_fox_match = quick_fox ∧
  ∃ pre item post lo n,
    [fox_doc] = pre ++ item :: post ∧ spine_ix quick_fox_match = len pre ∧
    Forall (λ item, ¬ passes quick_fox item) pre ∧ passes quick_fox item ∧
    matched_tag_indices quick_fox_match = map Z.of_nat (seq lo n) ∧
    (lo + n ≤ length (find_all_p item))%nat ∧
    all_tag_str quick_fox_match
    = normalize_whitespace
        (concat (map tag_str (take n (drop lo (find_all_p item))))) ∧
    (pre_highlight quick_fox_match = [] ∨
     is_infix (pre_highlight quick_fox_match) (all_tag_str quick_fox_match) ∧
     remove_spaces (content quick_fox) `sublist_of` pre_highlight quick_fox_match).
Proof. by apply (find_clip_in_spine_match quick_fox [fox_doc]). Defined.

(** X15. A clipping whose content is empty, or made of spaces only, is found
    in the first document whatever that document holds: the match has no
    block and an empty window, and the injector raises [ValueError] on it. *)
Theorem find_clip_in_spine_blank_content c item rest :
  remove_spaces (content c) = [] →
  find_clip_in_spine c (item :: rest) 0 = Ok (Some (mkMatch c 0 [] [] [])) ∧
  create_highlighted_tags (mkMatch c 0 [] [] []) = Raise ValueError.
Proof.
  intros Hblank. split; [|done].
  unfold find_clip_in_spine. rewrite slice_all. cbn [find_clip_loop].
  rewrite Hblank.
  assert (∀ s : str, contains s [] = true) as -> by (by intros [|??]).
  pose proof (remove_spaces_nil _ Hblank) as Hq.
  destruct (find_text_spans (find_all_p item) (content c)) as [matched|] eqn:Hspans.
  - destruct (find_text_spans_range _ _ _ Hspans) as (lo & n & -> & _ & Hn).
    rewrite (Hn Hq). done.
  - unfold find_text_spans in Hspans. rewrite Hq in Hspans.
    destruct (build_spans _ _ _) as [combined spans].
    rewrite find_nil in Hspans. done.
Qed.

Lemma find_clip_in_spine_blank_content_witness :
  find_clip_in_spine (sample_highlight "Book" "   " (Range 1 2) 1) [fox_doc] 0
  = Ok (Some (mkMatch (sample_highlight "Book" "   " (Range 1 2) 1) 0 [] [] [])) ∧
  create_highlighted_tags
    (mkMatch (sample_highlight "Book" "   " (Range 1 2) 1) 0 [] [] [])
  = Raise ValueError.
Proof. by apply find_clip_in_spine_blank_content. Defined.

Lemma slice_from {A} (l : list A) (a : Z) :
  - len l <= a →
  slice l a (len l) = drop (Z.to_nat (if a <? 0 then a + len l else a)) l.
Proof.
  intros Ha. unfold slice, clamp_index. cbv zeta.
  assert ((len l <? 0) = false) as -> by (apply Z.ltb_ge; unfold len; lia).
  replace (0 `max` (len l `min` len l)) with (len l) by (unfold len; lia).
  destruct (Z.ltb_spec a 0).
  - replace (0 `max` (len l `min` (a + len l))) with (a + len l) by lia.
    apply take_ge. rewrite length_drop. unfold len in *. lia.
  - destruct (Z.le_gt_cases a (len l)).
    + replace (0 `max` (len l `min` a)) with a by lia.
      apply take_ge. rewrite length_drop. unfold len in *. lia.
    + replace (0 `max` (len l `min` a)) with (len l) by (unfold len in *; lia).
      rewrite !drop_ge by (unfold len in *; lia). by rewrite take_nil.
Qed.

(** X16. [find_clip_in_spine] with a starting index. For [start_from] not
    below [-len(spine)], a match that is returned carries an index that,
    used on [spine] as Python does (a negative index counts from the end),
    gives the first document at or after the starting position that passes
    the space-free test. *)
Theorem find_clip_in_spine_start_from c spine start_from m :
  - len spine <= start_from →
  find_clip_in_spine c spine start_from = Ok (Some m) →
  let first := Z.to_nat (if start_from <? 0 then start_from + len spine
                         else start_from) in
  ∃ (j : nat) item,
    getitem spine (spine_ix m) = Ok item ∧ spine !! j = Some item ∧
    passes c item ∧ (first ≤ j)%nat ∧
    ∀ k item', (first ≤ k < j)%nat → spine !! k = Some item' → ¬ passes c item'.
Proof.
  intros Hsf. unfold find_clip_in_spine. rewrite slice_from by done. cbv zeta.
  set (first := Z.to_nat _).
  intros (pre & item & post & lo & n & Hitems & Hpre & Hitem & _ & Hix & _)
    %find_clip_loop_match.
  assert (spine !! (first + length pre)%nat = Some item) as Hj.
  { rewrite <- lookup_drop, Hitems. by apply list_lookup_middle. }
  pose proof (lookup_lt_Some _ _ _ Hj) as Hlt.
  exists (first + length pre)%nat, item. split_and!; [|done|done|lia|].
  - unfold getitem. cbv zeta. rewrite Hix. subst first.
    destruct (Z.ltb_spec start_from 0).
    + assert ((start_from + 0 + len pre <? 0) = true) as ->
        by (apply Z.ltb_lt; unfold len in *; lia).
      assert ((start_from + 0 + len pre + len spine <? 0) = false) as ->
        by (apply Z.ltb_ge; unfold len in *; lia).
      replace (Z.to_nat (start_from + 0 + len pre + len spine))
        with (Z.to_nat (start_from + len spine) + length pre)%nat
        by (unfold len in *; lia).
      by rewrite Hj.
    + assert ((start_from + 0 + len pre <? 0) = false) as ->
        by (apply Z.ltb_ge; unfold len in *; lia).
      assert ((start_from + 0 + len pre <? 0) = false) as ->
        by (apply Z.ltb_ge; unfold len in *; lia).
      replace (Z.to_nat (start_from + 0 + len pre))
        with (Z.to_nat start_from + length pre)%nat by (unfold len in *; lia).
      by rewrite Hj.
  - intros k item' [Hk1 Hk2] Hk. rewrite Forall_forall in Hpre. apply Hpre.
    apply list_elem_of_lookup. exists (k - first)%nat.
    assert (drop first spine !! (k - first)%nat = Some item') as Hd
      by (rewrite lookup_drop; replace (first + (k - first))%nat with k by lia; done).
    rewrite Hitems, lookup_app_l in Hd by lia. done.
Qed.

Lemma find_clip_in_spine_start_from_witness :
  ∃ (j : nat) item,
    getitem [doc_ab; doc_a_b] (-1) = Ok item ∧
    [doc_ab; doc_a_b] !! j = Some item ∧
    passes clip_a_b item ∧ (1 ≤ j)%nat ∧
    ∀ k item', (1 ≤ k < j)%nat → [doc_ab; doc_a_b] !! k = Some item' →
      ¬ passes clip_a_b item'.
Proof.
  by apply (find_clip_in_spine_start_from clip_a_b [doc_ab; doc_a_b] (-1)
              (mkMatch clip_a_b (-1) [0] (py "<p>a b</p>") (py "a b"))).
Defined.
End orchestrator_matches.

Section library_menu.
Import utils re_kindle.
Implicit Types (names : list str) (parse : str → option (list Clipping)).
Implicit Types (prefetched : list (option (list Clipping))).

Lemma index_from_app pre x rest pos :
  x ∉ pre → index_from (pre ++ x :: rest) x pos = Ok (pos + len pre).
Proof.
  revert pos. induction pre as [|y pre IH]; intros pos; cbn [app index_from].
  - intros _. assert (str_eqb x x = true) as -> by by apply str_eqb_eq.
    f_equal. unfold len. simpl. lia.
  - intros [Hne Hpre]%not_elem_of_cons.
    destruct (str_eqb y x) eqn:Hy; [by apply str_eqb_eq in Hy|].
    rewrite IH by done. f_equal. len_lia.
Qed.

Lemma getitem_middle {A} (l1 : list A) x l2 : getitem (l1 ++ x :: l2) (len l1) = Ok x.
Proof.
  destruct (getitem_Ok (l1 ++ x :: l2) (len l1)) as (y & -> & Hy); [len_lia|].
  unfold len in Hy. rewrite Nat2Z.id, list_lookup_middle in Hy by done.
  by injection Hy as ->.
Qed.

(** The keys of the second sort are the lengths of the sorted clippings,
    position by position. *)
Lemma second_sort_keys names prefetched pre ppre rest prest :
  names = pre ++ rest → prefetched = ppre ++ prest →
  length pre = length ppre → length rest = length prest → NoDup names →
  mapM (λ x, i ← index_from names x 0; p ← getitem prefetched i; len_prefetched p)
    rest
  = mapM len_prefetched prest.
Proof.
  revert pre ppre prest. induction rest as [|x rest IH];
    intros pre ppre prest Hnames Hp Hlen Hlen' Hnodup.
  { by destruct prest. }
  destruct prest as [|p prest]; [done|]. cbn [mapM].
  rewrite Hnames, index_from_app.
  2:{ rewrite Hnames in Hnodup. apply NoDup_app in Hnodup as (_ & Hd & _).
      intros Hx. apply (Hd x Hx). by left. }
  cbn [mbind res_bind]. rewrite Hp.
  replace (0 + len pre) with (len ppre) by (unfold len; lia).
  rewrite getitem_middle. cbn [mbind res_bind]. rewrite <- Hnames, <- Hp.
  rewrite (IH (pre ++ [x]) (ppre ++ [p]) prest);
    [done|by rewrite <- app_assoc|by rewrite <- app_assoc| | |done].
  - rewrite !length_app. simpl. lia.
  - simpl in Hlen'. lia.
Qed.

Lemma mapM_len_prefetched_None prefetched :
  None ∈ prefetched → mapM len_prefetched prefetched = Raise TypeError.
Proof.
  induction prefetched as [|p prefetched IH]; [by intros ?%elem_of_nil|].
  intros [<-|Hin]%elem_of_cons; [done|]. cbn [mapM].
  destruct p; [|done]. cbn [len_prefetched mbind res_bind]. by rewrite IH.
Qed.

Lemma mapM_len_prefetched_Some prefetched :
  Forall is_Some prefetched →
  mapM len_prefetched prefetched = Ok (map prefetched_size prefetched).
Proof.
  induction 1 as [|p prefetched [l ->] _ IH]; [done|]. cbn [mapM].
  cbn [len_prefetched mbind res_bind]. by rewrite IH.
Qed.

Lemma prefetch_and_sort_keys names parse :
  NoDup names →
  prefetch_and_sort names parse
  = (keys ← mapM len_prefetched (sorted prefetched_size true (map parse names));
     Ok (map snd (sorted fst false (zip keys names)),
         sorted prefetched_size true (map parse names))).
Proof.
  intros Hnodup. unfold prefetch_and_sort. cbv zeta.
  rewrite (second_sort_keys names
             (sorted prefetched_size true (map parse names)) [] [] names
             (sorted prefetched_size true (map parse names))
             eq_refl eq_refl eq_refl); [done| |done].
  pose proof (sorted_perm prefetched_size true (map parse names)) as Hperm.
  apply Permutation_length in Hperm. by rewrite Hperm, length_map.
Qed.

(** X17. One file of the library that cannot be parsed, and the whole
    listing fails: the first sort counts such a file as empty, the second
    takes the length of [None] and raises [TypeError]. *)
Theorem prefetch_and_sort_unparsed names parse x :
  NoDup names → x ∈ names → parse x = None →
  prefetch_and_sort names parse = Raise TypeError.
Proof.
  intros Hnodup Hx Hnone. rewrite prefetch_and_sort_keys by done.
  rewrite mapM_len_prefetched_None; [done|].
  rewrite sorted_perm. apply list_elem_of_fmap. by exists x.
Qed.

Lemma prefetch_and_sort_unparsed_witness :
  prefetch_and_sort [py "a.txt"; py "b.txt"]
    (λ x, if str_eqb x (py "a.txt") then Some [quick_fox] else None)
  = Raise TypeError.
Proof.
  apply (prefetch_and_sort_unparsed _ _ (py "b.txt")); [|by right; left|done].
  by apply (bool_decide_unpack _).
Defined.

(** X18. What the menu of clippings files pairs. When every file parses and
    the files come with strictly decreasing numbers of clippings, the names
    are turned around and the clippings are not: entry [k] shows, and
    returns, the name of the file at position [k] from the end with the
    clippings of the file at position [k] from the start. When the numbers
    strictly increase, names and clippings are both turned around and every
    entry pairs a file with its own clippings. *)
Theorem prefetch_and_sort_pairs names parse :
  NoDup names → Forall (λ x, is_Some (parse x)) names →
  (StronglySorted (λ a b, file_size parse b < file_size parse a) names →
   prefetch_and_sort names parse = Ok (reverse names, map parse names)) ∧
  (StronglySorted (λ a b, file_size parse a < file_size parse b) names →
   prefetch_and_sort names parse = Ok (reverse names, map parse (reverse names))).
Proof.
  intros Hnodup Hsome.
  assert (∀ prefetched, prefetched ≡ₚ map parse names → Forall is_Some prefetched)
    as Hall.
  { intros prefetched ->. apply Forall_forall.
    intros p (x & -> & Hx)%list_elem_of_fmap. rewrite Forall_forall in Hsome.
    by apply Hsome. }
  rewrite prefetch_and_sort_keys by done. split; intros Hsorted.
  - rewrite sorted_descending_fixed.
    2:{ change (map parse names) with (parse <$> names).
        eapply StronglySorted_fmap; [|exact Hsorted]. by intros x y Hxy. }
    rewrite mapM_len_prefetched_Some by by apply Hall.
    cbn [mbind res_bind]. rewrite sorted_ascending_reverse.
    2:{ apply (StronglySorted_zip (λ a b, b < a)).
        change (map prefetched_size (map parse names))
          with (prefetched_size <$> (parse <$> names)).
        rewrite <- list_fmap_compose.
        eapply StronglySorted_fmap; [|exact Hsorted]. by intros x y Hxy. }
    do 2 f_equal. change (map snd ?l) with (l.*2).
    rewrite fmap_reverse, snd_zip; [done|]. by rewrite !length_map.
  - rewrite sorted_descending_reverse.
    2:{ change (map parse names) with (parse <$> names).
        eapply StronglySorted_fmap; [|exact Hsorted]. by intros x y Hxy. }
    rewrite mapM_len_prefetched_Some
      by (apply Hall; by rewrite reverse_Permutation).
    cbn [mbind res_bind]. rewrite sorted_ascending_reverse.
    2:{ apply (StronglySorted_zip (λ a b, b < a)).
        change (map prefetched_size ?l) with (prefetched_size <$> l).
        change (map parse names) with (parse <$> names).
        rewrite <- fmap_reverse, <- list_fmap_compose, fmap_reverse.
        apply (StronglySorted_reverse (λ a b, a < b)).
        eapply StronglySorted_fmap; [|exact Hsorted]. by intros x y Hxy. }
    f_equal. f_equal.
    + change (map snd ?l) with (l.*2).
      rewrite fmap_reverse, snd_zip; [done|].
      by rewrite length_map, length_reverse, length_map.
    + change (map parse ?l) with (parse <$> l). by rewrite fmap_reverse.
Qed.

Lemma prefetch_and_sort_pairs_witness :
  let parse := λ x, if str_eqb x (py "a.txt") then Some [quick_fox; jumps]
                    else Some [nothing] in
  prefetch_and_sort [py "a.txt"; py "b.txt"] parse
  = Ok ([py "b.txt"; py "a.txt"], [Some [quick_fox; jumps]; Some [nothing]]).
Proof.
  refine (proj1 (prefetch_and_sort_pairs [py "a.txt"; py "b.txt"] _ _ _) _).
  - by apply (bool_decide_unpack _).
  - repeat constructor; by eexists.
  - repeat constructor.
Defined.
End library_menu.
